(** * go-imap mock package: the in-memory connection and the scripted server

    A shallow embedding of the in-memory connection of package [mock]
    (Conn, halfConn, netTimer, netTimeout), of its script runner (T.Script,
    T.script, T.Join) and of [imap/server.go] (mockServer.EnableTLS), with
    the properties of the package's specification stated and proved over
    it.

    Conventions of the embedding.
    - A Go [[]byte] is a backing array together with a length; the nil slice
      is a value of its own.  Bytes of the array beyond the length are kept,
      as Go keeps them.
    - A [*halfConn] is a [side] (the pair of half connections made by
      [NewConn] is the whole heap), so that the two endpoints alias the same
      two half connections.
    - [time.Time] and [time.Duration] are integers (nanoseconds); the zero
      [time.Time] is [0].  Every call of [time.Now()] takes its reading as an
      argument.
    - Everything between taking the mutex and the next [Wait] or return is
      one atomic step.  A blocking loop is a function of the wake-ups it
      gets: for each one, what the other goroutines did to the heap while
      the caller slept, and the clock reading after it.
    - [sync.Cond] is the list of goroutines blocked in [Wait]; [Broadcast]
      empties it. *)

From Stdlib Require Import String.
From Stdlib Require Import List ZArith Bool Lia Arith PeanoNat.
Import ListNotations.

Set Implicit Arguments.

(* ================================================================== *)
(** ** Go values: bytes, slices, [copy] *)

Definition byte := Byte.byte.

(** A slice over a backing array [arr], of length [n]; its capacity is the
    length of the array (every slice of the package starts at index 0 of its
    array). *)
Inductive slice : Type :=
| nil_slice
| Slice (arr : list byte) (n : nat).

Definition len (s : slice) : nat :=
  match s with nil_slice => 0 | Slice _ n => n end.

Definition cap (s : slice) : nat :=
  match s with nil_slice => 0 | Slice a _ => length a end.

(** The bytes a reader of the slice sees: [s[0], ..., s[len(s)-1]]. *)
Definition elems (s : slice) : list byte :=
  match s with nil_slice => [] | Slice a n => firstn n a end.

Definition is_nil (s : slice) : bool :=
  match s with nil_slice => true | Slice _ _ => false end.

(** [make([]byte, 0, c)] *)
Definition make (c : nat) : slice := Slice (repeat Byte.x00 c) 0.

(** [s[:k]], for [k <= cap(s)] (the only way the package reslices); a nil
    slice resliced stays nil. *)
Definition reslice (s : slice) (k : nat) : slice :=
  match s with nil_slice => nil_slice | Slice a _ => Slice a k end.

(** The number of bytes [copy(dst, src)] moves. *)
Definition copy_n (dstlen : nat) (src : list byte) : nat :=
  Nat.min dstlen (length src).

(** [copy(b, src)] on a destination given by its bytes. *)
Definition copy (b src : list byte) : list byte :=
  let n := copy_n (length b) src in firstn n src ++ skipn n b.

(** [copy(a[lo:hi], src)] on the backing array [a]: the array afterwards. *)
Definition copy_at (a : list byte) (lo hi : nat) (src : list byte)
  : list byte :=
  let i := copy_n (hi - lo) src in
  firstn lo a ++ firstn i src ++ skipn (lo + i) a.

(* ================================================================== *)
(** ** Time, errors *)

Definition Time := Z.
Definition Duration := Z.

Definition IsZero (t : Time) : bool := (t =? 0)%Z.
Definition Before (t u : Time) : bool := (t <? u)%Z.
Definition After (t u : Time) : bool := (u <? t)%Z.

(** [netTimeout] is a string type with the methods of [net.Error]. *)
Definition netTimeout := string.

Module NetTimeout.
Definition Error (e : netTimeout) : string := e.
Definition Timeout (e : netTimeout) : bool := true.
Definition Temporary (e : netTimeout) : bool := false.
End NetTimeout.

(** The error values the connection returns: [io.EOF] or a [netTimeout]. *)
Inductive error : Type :=
| io_EOF
| ErrTimeout (e : netTimeout).

(** The [net.Error] interface: [Timeout()] and [Temporary()]. *)
Record net_Error : Type := mk_net_Error
  { ne_Timeout : bool; ne_Temporary : bool }.

(** The type assertion [err.(net.Error)]: [io.EOF] has no such methods. *)
Definition as_net_Error (e : error) : option net_Error :=
  match e with
  | io_EOF => None
  | ErrTimeout s =>
      Some (mk_net_Error (NetTimeout.Timeout s) (NetTimeout.Temporary s))
  end.

Definition is_EOF (e : option error) : bool :=
  match e with Some io_EOF => true | _ => false end.

(* ================================================================== *)
(** ** netTimer *)

(** [Timer] is [None] for a nil [*time.Timer], and otherwise holds the
    duration the timer was last armed with. *)
Record netTimer : Type := mk_netTimer
  { Timer : option Duration; now_ : Time; end_ : Time }.

(** [var alarm netTimer] *)
Definition zero_netTimer : netTimer := mk_netTimer None 0%Z 0%Z.

Definition set_end (t : netTimer) (e : Time) : netTimer :=
  mk_netTimer (Timer t) (now_ t) e.

(** [Set], with [clk] the reading of [time.Now()]. *)
Definition netTimer_Set (clk : Time) (t : netTimer)
           (deadline : Time) (timeout : Duration) : netTimer :=
  if (0 <? timeout)%Z then
    let t1 := set_end t (clk + timeout)%Z in
    if negb (IsZero deadline) && Before deadline (end_ t1)
    then set_end t1 deadline
    else t1
  else if negb (IsZero deadline) then set_end t deadline
  else t.

(** [Timeout], with [clk] the reading of [time.Now()]; it stores the
    reading in the timer. *)
Definition netTimer_Timeout (clk : Time) (t : netTimer) : bool * netTimer :=
  if negb (IsZero (end_ t)) then
    let t1 := mk_netTimer (Timer t) clk (end_ t) in
    (negb (After (end_ t1) (now_ t1)), t1)
  else (false, t).

(** [Schedule]: arms (or re-arms) the timer whose callback broadcasts on the
    condition variable; the result says whether the caller defers [Stop]. *)
Definition netTimer_Schedule (t : netTimer) : bool * netTimer :=
  if negb (IsZero (end_ t)) then
    let d := (end_ t - now_ t)%Z in
    match Timer t with
    | None => (true, mk_netTimer (Some d) (now_ t) (end_ t))
    | Some _ => (false, mk_netTimer (Some d) (now_ t) (end_ t))
    end
  else (false, t).

(* ================================================================== *)
(** ** halfConn *)

(** A goroutine, as far as a condition variable can tell them apart. *)
Definition gid := nat.

Record halfConn : Type := mk_halfConn
  { waiters : list gid;   (* sync.Cond: the goroutines blocked in Wait *)
    addr : string;        (* Reader's address *)
    buf : slice;          (* Read/write buffer *)
    off : nat;            (* Read offset in buf *)
    eof : bool }.         (* Writer closed *)

Definition set_waiters (c : halfConn) (w : list gid) : halfConn :=
  mk_halfConn w (addr c) (buf c) (off c) (eof c).
Definition set_buf (c : halfConn) (s : slice) : halfConn :=
  mk_halfConn (waiters c) (addr c) s (off c) (eof c).
Definition set_off (c : halfConn) (o : nat) : halfConn :=
  mk_halfConn (waiters c) (addr c) (buf c) o (eof c).
Definition set_eof (c : halfConn) (e : bool) : halfConn :=
  mk_halfConn (waiters c) (addr c) (buf c) (off c) e.

Definition Broadcast (c : halfConn) : halfConn := set_waiters c [].
Definition Wait (g : gid) (c : halfConn) : halfConn :=
  set_waiters c (g :: waiters c).

Definition newHalfConn (a : string) (bufSize : nat) : halfConn :=
  mk_halfConn [] a (make bufSize) 0 false.

(** [c.buf[c.off:]]: the Go runtime panics when [off > len(buf)]. *)
Definition buf_from_off (c : halfConn) : option (list byte) :=
  if len (buf c) <? off c then None
  else Some (skipn (off c) (elems (buf c))).

(** What one pass through the [for] loop of [read] or [write] ends in. *)
Inductive pass (R : Type) : Type :=
| Returns (n : nat) (err : option error) (r : R)
| Waits (n : nat) (alarm : netTimer) (r : R)
| Panics.
Arguments Panics {R}.

Definition read_timeout (a : string) : error :=
  ErrTimeout ("mock(" ++ a ++ "): read timeout")%string.
Definition write_timeout (a : string) : error :=
  ErrTimeout ("mock(" ++ a ++ "): write timeout")%string.

(** One pass of the loop of [halfConn.read]: [g] is the calling goroutine,
    [clk] the clock read by [alarm.Timeout()], [b] the destination.  The
    result carries the destination and the half connection afterwards. *)
Definition read_pass (g : gid) (clk : Time) (a : string)
           (alarm : netTimer) (b : list byte) (c : halfConn)
  : pass (list byte * halfConn) :=
  if is_nil (buf c) then Returns 0 (Some io_EOF) (b, c)
  else
    let (expired, alarm1) := netTimer_Timeout clk alarm in
    if expired then Returns 0 (Some (read_timeout a)) (b, c)
    else if length b =? 0 then Returns 0 None (b, c)
    else if 0 <? len (buf c) then
      match buf_from_off c with
      | None => Panics
      | Some src =>
          let n := copy_n (length b) src in
          let b1 := copy b src in
          let c1 := set_off c (off c + n) in
          if off c1 =? len (buf c1) then
            let c2 := set_off (set_buf c1 (reslice (buf c1) 0)) 0 in
            Returns n (if eof c2 then Some io_EOF else None)
                    (b1, Broadcast c2)
          else Returns n None (b1, Broadcast c1)
      end
    else Waits 0 (snd (netTimer_Schedule alarm1)) (b, Wait g c).

(** The compaction at the head of the fourth case of [write]. *)
Definition compact (c : halfConn) : option halfConn :=
  if len (buf c) =? cap (buf c) then
    match buf_from_off c with
    | None => None
    | Some src =>
        match buf c with
        | nil_slice => Some (set_off c 0)
        | Slice arr k =>
            Some (set_off
                    (set_buf c (Slice (copy_at arr 0 k src) (copy_n k src)))
                    0)
        end
    end
  else Some c.

(** [i := copy(c.buf[len(c.buf):cap(c.buf)], src); c.buf = c.buf[:len(c.buf)+i]] *)
Definition append (c : halfConn) (src : list byte) : nat * halfConn :=
  match buf c with
  | nil_slice => (0, c)
  | Slice arr k =>
      let i := copy_n (length arr - k) src in
      (i, set_buf c (Slice (copy_at arr k (length arr) src) (k + i)))
  end.

(** One pass of the loop of [halfConn.write]; [n] is the count of bytes
    written by the passes before.  The result carries the half connection
    afterwards. *)
Definition write_pass (g : gid) (clk : Time) (a : string)
           (alarm : netTimer) (b : list byte) (n : nat) (c : halfConn)
  : pass halfConn :=
  if eof c then Returns n (Some io_EOF) c
  else
    let (expired, alarm1) := netTimer_Timeout clk alarm in
    if expired then Returns n (Some (write_timeout a)) c
    else if length b =? 0 then Returns n None c
    else if (Z.of_nat (len (buf c)) - Z.of_nat (off c)
             <? Z.of_nat (cap (buf c)))%Z then
      match compact c with
      | None => Panics
      | Some c1 =>
          let (i, c2) := append c1 (skipn n b) in
          let c3 := Broadcast c2 in
          let n1 := n + i in
          if n1 =? length b then Returns n1 None c3
          else Waits n1 (snd (netTimer_Schedule alarm1)) (Wait g c3)
      end
    else Waits n (snd (netTimer_Schedule alarm1)) (Wait g c).

(* ================================================================== *)
(** ** The pair of half connections, and Conn *)

(** The two [*halfConn] of a pair. *)
Inductive side : Type := SideA | SideB.

Definition other (p : side) : side :=
  match p with SideA => SideB | SideB => SideA end.

Definition side_eqb (p q : side) : bool :=
  match p, q with
  | SideA, SideA | SideB, SideB => true
  | _, _ => false
  end.

(** The heap: what the two pointers point to. *)
Record Pipe : Type := mk_Pipe { hcA : halfConn; hcB : halfConn }.

Definition get (p : side) (h : Pipe) : halfConn :=
  match p with SideA => hcA h | SideB => hcB h end.

Definition put (p : side) (c : halfConn) (h : Pipe) : Pipe :=
  match p with
  | SideA => mk_Pipe c (hcB h)
  | SideB => mk_Pipe (hcA h) c
  end.

(** An assignment or a method call through the pointer [p]. *)
Definition upd (p : side) (f : halfConn -> halfConn) (h : Pipe) : Pipe :=
  put p (f (get p h)) h.

(** [Conn]; the mutex is the atomicity of the steps. *)
Record Conn : Type := mk_Conn
  { r : side;        (* Read side *)
    w : side;        (* Write side *)
    rd : Time;       (* Read deadline *)
    wd : Time;       (* Write deadline *)
    t : Duration }.  (* Read/write timeout *)

(** [NewConn]: the two endpoints and the heap they share. *)
Definition NewConn (addrA addrB : string) (bufSize : Z)
  : Conn * Conn * Pipe :=
  let bufSize := if (bufSize <=? 0)%Z then 4096%Z else bufSize in
  let a := newHalfConn addrA (Z.to_nat bufSize) in
  let b := newHalfConn addrB (Z.to_nat bufSize) in
  (mk_Conn SideA SideB 0%Z 0%Z 0%Z, mk_Conn SideB SideA 0%Z 0%Z 0%Z,
   mk_Pipe a b).

(** How a call of a blocking method ends, given the wake-ups it gets:
    it returns, it is still blocked in [Wait] after the last of them, or it
    panics. *)
Inductive call (R : Type) : Type :=
| Done (n : nat) (err : option error) (res : R)
| Blocked (res : R)
| Panicked.
Arguments Panicked {R}.

(** A wake-up: what happened to the heap while the caller was in [Wait]
    (the mutex released), and the clock the caller reads next. *)
Definition wake : Type := (Pipe -> Pipe) * Time.

(** The [for] loop of [halfConn.read] on the half connection at [p]. *)
Fixpoint read_loop (g : gid) (a : string) (p : side) (wakes : list wake)
         (clk : Time) (alarm : netTimer) (b : list byte) (h : Pipe)
  : call (list byte * Pipe) :=
  match read_pass g clk a alarm b (get p h) with
  | Returns n err (b1, c1) => Done n err (b1, put p c1 h)
  | Panics => Panicked
  | Waits _ alarm1 (b1, c1) =>
      match wakes with
      | [] => Blocked (b1, put p c1 h)
      | (f, clk1) :: ws => read_loop g a p ws clk1 alarm1 b1 (f (put p c1 h))
      end
  end.

(** [halfConn.read]: [clk0] is the clock read by [alarm.Set], [clk] the one
    read by the first [alarm.Timeout()]. *)
Definition halfConn_read (g : gid) (p : side) (b : list byte) (d : Time)
           (tmo : Duration) (a : string) (clk0 clk : Time)
           (wakes : list wake) (h : Pipe) : call (list byte * Pipe) :=
  read_loop g a p wakes clk (netTimer_Set clk0 zero_netTimer d tmo) b h.

(** The [for] loop of [halfConn.write] on the half connection at [p]. *)
Fixpoint write_loop (g : gid) (a : string) (p : side) (wakes : list wake)
         (clk : Time) (alarm : netTimer) (b : list byte) (n : nat) (h : Pipe)
  : call Pipe :=
  match write_pass g clk a alarm b n (get p h) with
  | Returns n1 err c1 => Done n1 err (put p c1 h)
  | Panics => Panicked
  | Waits n1 alarm1 c1 =>
      match wakes with
      | [] => Blocked (put p c1 h)
      | (f, clk1) :: ws =>
          write_loop g a p ws clk1 alarm1 b n1 (f (put p c1 h))
      end
  end.

Definition halfConn_write (g : gid) (p : side) (b : list byte) (d : Time)
           (tmo : Duration) (a : string) (clk0 clk : Time)
           (wakes : list wake) (h : Pipe) : call Pipe :=
  write_loop g a p wakes clk (netTimer_Set clk0 zero_netTimer d tmo) b 0 h.

(** [Conn.close] *)
Definition Conn_close (c : Conn) (h : Pipe) : Pipe :=
  if negb (is_nil (buf (get (r c) h))) then
    let h1 := upd (r c) (fun x => set_buf x nil_slice) h in
    let h2 := upd (r c) (fun x => set_eof x true) h1 in
    let h3 := upd (w c) (fun x => set_eof x true) h2 in
    let h4 := upd (r c) Broadcast h3 in
    upd (w c) Broadcast h4
  else h.

(** [Conn.Close]: the error returned (always nil) and the heap. *)
Definition Conn_Close (c : Conn) (h : Pipe) : option error * Pipe :=
  (None, Conn_close c h).

(** [Conn.Clear] *)
Definition Conn_Clear (c : Conn) (h : Pipe) : Pipe :=
  let h1 := upd (r c) (fun x => set_buf x (reslice (buf x) 0)) h in
  let h2 := upd (w c) (fun x => set_buf x (reslice (buf x) 0)) h1 in
  let h3 := upd (r c) (fun x => set_off x 0) h2 in
  let h4 := upd (w c) (fun x => set_off x 0) h3 in
  let h5 := upd (r c) Broadcast h4 in
  upd (w c) Broadcast h5.

(** [Conn.Read] *)
Definition Conn_Read (g : gid) (c : Conn) (b : list byte) (clk0 clk : Time)
           (wakes : list wake) (h : Pipe) : call (list byte * Pipe) :=
  match halfConn_read g (r c) b (rd c) (t c) (addr (get (r c) h))
                      clk0 clk wakes h with
  | Done n err (b1, h1) =>
      Done n err (b1, if is_EOF err then Conn_close c h1 else h1)
  | Blocked res => Blocked res
  | Panicked => Panicked
  end.

(** [Conn.Write] *)
Definition Conn_Write (g : gid) (c : Conn) (b : list byte) (clk0 clk : Time)
           (wakes : list wake) (h : Pipe) : call Pipe :=
  halfConn_write g (w c) b (wd c) (t c) (addr (get (r c) h))
                 clk0 clk wakes h.

(** [Conn.deadline] and the setters built on it. *)
Definition Conn_deadline (c : Conn) (d : Time) (rf wf : bool) : Conn :=
  let c1 := if rf then mk_Conn (r c) (w c) d (wd c) (t c) else c in
  if wf then mk_Conn (r c1) (w c1) (rd c1) d (t c1) else c1.

Definition SetDeadline (c : Conn) (d : Time) := Conn_deadline c d true true.
Definition SetReadDeadline (c : Conn) (d : Time) :=
  Conn_deadline c d true false.
Definition SetWriteDeadline (c : Conn) (d : Time) :=
  Conn_deadline c d false true.
Definition SetTimeout (c : Conn) (d : Duration) : Conn :=
  mk_Conn (r c) (w c) (rd c) (wd c) d.

(** The callback of the timer armed by [Schedule]. *)
Definition timer_fires (p : side) (h : Pipe) : Pipe := upd p Broadcast h.

(* ================================================================== *)
(** ** Invariants *)

(** The bytes written and not yet read. *)
Definition pending (c : halfConn) : list byte :=
  skipn (off c) (elems (buf c)).

(** The invariant of the specification: [0 <= off <= len(buf) <= cap(buf)]. *)
Definition hc_inv (c : halfConn) : Prop :=
  off c <= len (buf c) /\ len (buf c) <= cap (buf c).

(** What the code keeps of a buffer that is not released: the invariant
    above, and a read offset at the end of the buffer only when the buffer
    is empty (a drained buffer is reset at once). *)
Definition hc_ok (c : halfConn) : Prop :=
  hc_inv c /\ (off c = len (buf c) -> len (buf c) = 0).

Definition released (c : halfConn) : Prop := is_nil (buf c) = true.

Definition hc_wf (c : halfConn) : Prop := released c \/ hc_ok c.

(** Both half connections are well formed, and a released buffer comes with
    the end-of-stream flag on both of them. *)
Definition pipe_wf (h : Pipe) : Prop :=
  forall p, hc_wf (get p h) /\
            (released (get p h) ->
             eof (get p h) = true /\ eof (get (other p) h) = true).

(** An endpoint made by [NewConn]: its two sides differ. *)
Definition conn_wf (c : Conn) : Prop := w c = other (r c).

(** The state [read] leaves when it has taken [n] of the pending bytes. *)
Definition after_read (c : halfConn) (n : nat) : halfConn :=
  Broadcast (if n =? length (pending c)
             then set_off (set_buf c (reslice (buf c) 0)) 0
             else set_off c (off c + n)).

(* ================================================================== *)
(** ** Calls one after the other *)

(** Whether the timer that [Set] configures at [clk0] from the deadline [d]
    and the timeout [tmo] is found expired by [Timeout] at [clk]. *)
Definition expired (d : Time) (tmo : Duration) (clk0 clk : Time) : bool :=
  fst (netTimer_Timeout clk (netTimer_Set clk0 zero_netTimer d tmo)).

(** A call of [Read] or [Write]: its slice, the clock read by [Set] and the
    clock read by the first [Timeout]. *)
Record io : Type := mk_io
  { io_b : list byte; io_clk0 : Time; io_clk : Time }.

(** The calls of [ws] made one after the other by a goroutine that runs
    alone: a call that does not return in its first pass never returns, as
    nobody is there to wake it, and the run stops ([None]).  The result
    lists what each call returned. *)
Fixpoint write_seq (g : gid) (c : Conn) (ws : list io) (h : Pipe)
  : option (list (nat * option error) * Pipe) :=
  match ws with
  | [] => Some ([], h)
  | x :: ws' =>
      match Conn_Write g c (io_b x) (io_clk0 x) (io_clk x) [] h with
      | Done n err h1 =>
          match write_seq g c ws' h1 with
          | Some (res, h2) => Some ((n, err) :: res, h2)
          | None => None
          end
      | _ => None
      end
  end.

(** The same for [Read]; for each call the result has the bytes read,
    [b[:n]], and the error. *)
Fixpoint read_seq (g : gid) (c : Conn) (rs : list io) (h : Pipe)
  : option (list (list byte * option error) * Pipe) :=
  match rs with
  | [] => Some ([], h)
  | x :: rs' =>
      match Conn_Read g c (io_b x) (io_clk0 x) (io_clk x) [] h with
      | Done n err (b1, h1) =>
          match read_seq g c rs' h1 with
          | Some (res, h2) => Some ((firstn n b1, err) :: res, h2)
          | None => None
          end
      | _ => None
      end
  end.

Definition total (xs : list io) : nat := length (concat (map io_b xs)).

(** A half connection that is neither released nor closed by its writer. *)
Definition open (c : halfConn) : Prop :=
  is_nil (buf c) = false /\ hc_ok c /\ eof c = false.

(* ================================================================== *)
(** ** The atomic steps of the operations *)

(** The invariant of the specification, the bound on the offset asked only
    of a buffer that is not released. *)
Definition hc_inv_open (c : halfConn) : Prop :=
  len (buf c) <= cap (buf c) /\
  (is_nil (buf c) = false -> off c <= len (buf c)).

(** The half connection a pass leaves; a pass that panics has changed
    nothing before it does. *)
Definition pass_state (R : Type) (st : R -> halfConn) (x : pass R)
           (c : halfConn) : halfConn :=
  match x with
  | Returns _ _ res => st res
  | Waits _ _ res => st res
  | Panics => c
  end.

Inductive op : Type := OpRead | OpWrite | OpClear | OpClose | OpTimer.

(** [step o h h']: one atomic step of the operation [o] takes the heap
    from [h] to [h']: a pass of [read] or of [write] on one of the half
    connections, [Clear] or [close] on an endpoint, the broadcast of an
    expired timer. *)
Inductive step : op -> Pipe -> Pipe -> Prop :=
| step_read : forall g clk a alarm b p h,
    step OpRead h
         (put p (pass_state snd (read_pass g clk a alarm b (get p h))
                            (get p h)) h)
| step_write : forall g clk a alarm b n p h,
    step OpWrite h
         (put p (pass_state (fun c => c)
                            (write_pass g clk a alarm b n (get p h))
                            (get p h)) h)
| step_Clear : forall c h, conn_wf c -> step OpClear h (Conn_Clear c h)
| step_close : forall c h, conn_wf c -> step OpClose h (Conn_close c h)
| step_timer : forall p h, step OpTimer h (timer_fires p h).

(** The heaps a pair made by [NewConn] can get to. *)
Inductive reachable : Pipe -> Prop :=
| reach_new : forall addrA addrB bufSize,
    reachable (snd (NewConn addrA addrB bufSize))
| reach_step : forall o h h', reachable h -> step o h h' -> reachable h'.

(** What every pass of [read] and of [write] keeps of a half connection. *)
Definition keeps (c c' : halfConn) : Prop :=
  eof c' = eof c /\ is_nil (buf c') = is_nil (buf c) /\
  (hc_inv c -> hc_inv c') /\
  (hc_inv_open c -> hc_inv_open c') /\
  (hc_wf c -> hc_wf c').

(** A wake-up during which the other goroutines did nothing but run
    operations of the package leaves the heap well formed. *)
Definition wake_ok (x : wake) : Prop :=
  forall h, pipe_wf h -> pipe_wf (fst x h).

(* ================================================================== *)
(** ** The scripted server: [T.Script], [T.script], [T.Join] *)

Module Script.

(** A channel of [V]: the values buffered, the capacity, whether it is
    closed, and the sends and the close it has seen. *)
Inductive chan_event (V : Type) : Type :=
| Ev_send (v : V)
| Ev_close.
Arguments Ev_close {V}.

Record chan (V : Type) : Type := mk_chan
  { cbuf : list V; ccap : nat; cclosed : bool;
    clog : list (chan_event V) }.

(** [make(chan V, n)] *)
Definition make_chan (V : Type) (n : nat) : chan V :=
  mk_chan [] n false [].
Arguments make_chan {V} n.

(** [ch <- v]: on a closed channel it panics, on a full one it blocks. *)
Inductive sent (V : Type) : Type :=
| Sent (ch : chan V)
| Send_blocks
| Send_panics.
Arguments Send_blocks {V}.
Arguments Send_panics {V}.

Definition chan_send (V : Type) (v : V) (ch : chan V) : sent V :=
  if cclosed ch then Send_panics
  else if length (cbuf ch) <? ccap ch
       then Sent (mk_chan (cbuf ch ++ [v]) (ccap ch) false
                          (clog ch ++ [Ev_send v]))
       else Send_blocks.

(** [close(ch)]: [None] is the panic on a channel closed already. *)
Definition chan_close (V : Type) (ch : chan V) : option (chan V) :=
  if cclosed ch then None
  else Some (mk_chan (cbuf ch) (ccap ch) true (clog ch ++ [Ev_close])).

(** [v, ok := <-ch], on a channel variable that may be nil ([None]): a
    nil channel blocks for ever, an empty open one until a send or the
    close; a closed and empty one yields the zero value and [false]. *)
Inductive received (V : Type) : Type :=
| Received (v : option V) (ok : bool) (ch : chan V)
| Recv_blocks.
Arguments Recv_blocks {V}.

Definition chan_recv (V : Type) (ch : option (chan V)) : received V :=
  match ch with
  | None => Recv_blocks
  | Some c =>
      match cbuf c with
      | v :: rest =>
          Received (Some v) true (mk_chan rest (ccap c) (cclosed c) (clog c))
      | [] => if cclosed c then Received None false c else Recv_blocks
      end
  end.

Definition sends (V : Type) (ch : chan V) : nat :=
  length (filter (fun e => match e with Ev_send _ => true | Ev_close => false end)
                 (clog ch)).

(** The methods of [imap.MockServer] the script runner calls, on a
    server whose state is [S] and whose errors are [E]; [ReadFull n] is
    [io.ReadFull(t.s, b)] on a [b] of length [n] and yields [b]
    afterwards.  The calls are taken to return. *)
Record MockServer (S E : Type) : Type := mk_MockServer
  { WriteLine : list byte -> S -> S * option E;
    Flush : S -> S * option E;
    ReadLine : S -> S * (list byte * option E);
    Write : list byte -> S -> S * (nat * option E);
    ReadFull : nat -> S -> S * (list byte * option E) }.

(** [ScriptFunc] *)
Definition ScriptFunc (S E : Type) : Type := S -> S * option E.

(** A script action, by its dynamic type. *)
Inductive action (S E : Type) : Type :=
| A_string (v : string)
| A_Send (v : list byte)
| A_Recv (v : list byte)
| A_ScriptFunc (f : ScriptFunc S E)
| A_func (f : ScriptFunc S E)
| A_other (ty : string).
Arguments A_string {S E}.
Arguments A_Send {S E}.
Arguments A_Recv {S E}.
Arguments A_other {S E}.

(** The values [panicf] panics with: the format and its arguments. *)
Inductive fault (E : Type) : Type :=
| F_prefix (ln : nat) (v : string)
| F_write (ln : nat) (v : string + list byte) (err : E)
| F_compare (ln : nat) (v b : string) (err : option E)
| F_run (ln : nat) (err : E)
| F_action (ln : nat) (ty : string).
Arguments F_prefix {E}.
Arguments F_action {E}.

(** Code of the runner: a function of the server state that returns a
    value or panics. *)
Inductive res (E A : Type) : Type :=
| Ok (a : A)
| Panic (f : fault E).
Arguments Ok {E A}.
Arguments Panic {E A}.

Definition M (S E A : Type) : Type := S -> S * res E A.

Definition ret (S E A : Type) (a : A) : M S E A := fun s => (s, Ok a).
Arguments ret {S E A} a.

Definition bind (S E A B : Type) (m : M S E A) (k : A -> M S E B)
  : M S E B :=
  fun s => match m s with
           | (s1, Ok a) => k a s1
           | (s1, Panic f) => (s1, Panic f)
           end.

Definition panicf (S E A : Type) (f : fault E) : M S E A :=
  fun s => (s, Panic f).
Arguments panicf {S E A} f.

(** A call of a method of the server. *)
Definition call (S E A : Type) (m : S -> S * A) : M S E A :=
  fun s => let (s1, a) := m s in (s1, Ok a).
Arguments call {S E A} m.

Notation "x <- m ;; k" := (bind m (fun x => k))
  (at level 61, m at next level, right associativity).

(** [flush] *)
Definition flush (S E : Type) (srv : MockServer S E) (ln : nat)
           (v : string + list byte) (err : option E) : M S E unit :=
  err1 <- match err with
          | None => call (Flush srv)
          | Some e => ret (Some e)
          end ;;
  match err1 with
  | Some e => panicf (F_write ln v e)
  | None => ret tt
  end.

(** [compare] *)
Definition compare (S E : Type) (ln : nat) (v b : string)
           (err : option E) : M S E unit :=
  if negb (String.eqb v b)
     || match err with Some _ => true | None => false end
  then panicf (F_compare ln v b err)
  else ret tt.

(** [run] *)
Definition run (S E : Type) (ln : nat) (f : ScriptFunc S E)
  : M S E unit :=
  err <- call f ;;
  match err with
  | Some e => panicf (F_run ln e)
  | None => ret tt
  end.

(** [v[3:]] *)
Definition from3 (v : string) : string :=
  String.substring 3 (String.length v - 3) v.

(** The body of the [for] loop of [script], [ln] already incremented. *)
Definition act (S E : Type) (srv : MockServer S E) (ln : nat)
           (v : action S E) : M S E unit :=
  match v with
  | A_string v =>
      if String.prefix "S: " v then
        err <- call (WriteLine srv (list_byte_of_string (from3 v))) ;;
        flush srv ln (inl v) err
      else if String.prefix "C: " v then
        r <- call (ReadLine srv) ;;
        compare ln (from3 v) (string_of_list_byte (fst r)) (snd r)
      else panicf (F_prefix ln v)
  | A_Send v =>
      r <- call (Write srv v) ;;
      flush srv ln (inr v) (snd r)
  | A_Recv v =>
      r <- call (ReadFull srv (length v)) ;;
      compare ln (string_of_list_byte v) (string_of_list_byte (fst r))
              (snd r)
  | A_ScriptFunc f => run ln f
  | A_func f => run ln f
  | A_other ty => panicf (F_action ln ty)
  end.

(** The [for] loop of [script] from the index [ln] on. *)
Fixpoint script_loop (S E : Type) (srv : MockServer S E)
         (script : list (action S E)) (ln : nat) : M S E unit :=
  match script with
  | [] => ret tt
  | v :: rest =>
      _ <- act srv (Datatypes.S ln) v ;;
      script_loop srv rest (Datatypes.S ln)
  end.

(** How the goroutine of [script] ends: it returns, it is blocked in the
    send of its deferred function, or a panic of the deferred function
    takes the program down. *)
Inductive exit : Type := Exit_returns | Exit_blocked | Exit_crash.

(** What [recover()] yields after the loop. *)
Definition recovered (E : Type) (r : res E unit) : option (fault E) :=
  match r with Ok _ => None | Panic f => Some f end.

(** [script]: the loop, then the deferred
    [func() { ch <- recover(); close(ch) }]. *)
Definition script (S E : Type) (srv : MockServer S E)
           (actions : list (action S E)) (ch : chan (option (fault E)))
           (s : S) : S * chan (option (fault E)) * exit :=
  let (s1, r) := script_loop srv actions 0 s in
  match chan_send (recovered r) ch with
  | Sent ch1 =>
      match chan_close ch1 with
      | Some ch2 => (s1, ch2, Exit_returns)
      | None => (s1, ch1, Exit_crash)
      end
  | Send_blocks => (s1, ch, Exit_blocked)
  | Send_panics => (s1, ch, Exit_crash)
  end.

(** What [Errorf] and [Fatalf] log. *)
Inductive report (E : Type) : Type :=
| R_server (v : fault E)      (* "t.Join() S: %v" *)
| R_no_script                 (* "t.Join() called without an active script" *)
| R_client (err : E)          (* "t.Join() C: %v" *)
| R_still_active.             (* "t.Script() called while another script is active" *)
Arguments R_no_script {E}.
Arguments R_still_active {E}.

(** [T]: the channel variable [t.ch] (with the state of the channel it
    refers to), and of the embedded [*testing.T] the failure flag and the
    log. *)
Record T (E : Type) : Type := mk_T
  { t_ch : option (chan (option (fault E)));
    t_failed : bool;
    t_log : list (report E) }.

Definition Errorf (E : Type) (m : report E) (t : T E) : T E :=
  mk_T (t_ch t) true (t_log t ++ [m]).

(** How a method of [T] ends: it returns, it blocks, or [FailNow] ends
    the goroutine of the test. *)
Inductive ended (E : Type) : Type :=
| Returns (t : T E)
| Blocks
| FailNow (t : T E).
Arguments Blocks {E}.

(** [Script] up to the [go] statement: the [select] takes what the
    channel has ready, if anything; [Returns t] has in [t_ch t] the
    channel just made, the one the new goroutine is given. *)
Definition Script (E : Type) (t : T E) : ended E :=
  match chan_recv (t_ch t) with
  | Received _ _ _ =>
      Returns (mk_T (Some (make_chan 1)) (t_failed t) (t_log t))
  | Recv_blocks =>
      match t_ch t with
      | Some _ => FailNow (Errorf R_still_active t)
      | None => Returns (mk_T (Some (make_chan 1)) (t_failed t) (t_log t))
      end
  end.

(** The goroutine started by [Script] runs to its end. *)
Definition script_ends (S E : Type) (srv : MockServer S E)
           (actions : list (action S E)) (s : S) (t : T E) : S * T E :=
  match t_ch t with
  | Some ch =>
      let '(s1, ch1, _) := script srv actions ch s in
      (s1, mk_T (Some ch1) (t_failed t) (t_log t))
  | None => (s, t)
  end.

(** [Join] *)
Definition Join (E : Type) (err : option E) (t : T E) : ended E :=
  match chan_recv (t_ch t) with
  | Recv_blocks => Blocks
  | Received v ok ch1 =>
      let t1 := mk_T (Some ch1) (t_failed t) (t_log t) in
      let after (t2 : T E) : ended E :=
        let t3 := match err with
                  | Some e => Errorf (R_client e) t2
                  | None => t2
                  end in
        if t_failed t3 then FailNow t3 else Returns t3 in
      match v with
      | Some (Some f) => after (Errorf (R_server f) t1)
      | _ => if negb ok then FailNow (Errorf R_no_script t1)
             else after t1
      end
  end.

End Script.

(* ================================================================== *)
(** ** [imap/server.go]: [mockServer.EnableTLS] *)

Module Server.

(** A [net.Conn]: a connection handed to [NewMockServer], or the
    [*tls.Conn] that [tls.Server] makes over another one. *)
Inductive net_Conn (Config : Type) : Type :=
| Raw (id : nat)
| TLS (under : net_Conn Config) (config : Config).
Arguments Raw {Config}.

(** [tls.Server] *)
Definition tls_Server (Config : Type) (c : net_Conn Config)
           (config : Config) : net_Conn Config := TLS c config.

(** A link of the transport: what [Attach] has set as its reader and
    its writer. *)
Record link (Config : Type) : Type := mk_link
  { l_reader : option (net_Conn Config);
    l_writer : option (net_Conn Config) }.

Definition Attach (Config : Type) (rd wr : net_Conn Config)
           (l : link Config) : link Config :=
  mk_link (Some rd) (Some wr).

(** The fields of [transport] that [EnableTLS] uses. *)
Record transport (Config : Type) : Type := mk_transport
  { conn : net_Conn Config;
    bufLink : link Config;
    cmpLink : link Config }.

Inductive error : Type :=
| ErrEncryptionActive
| ErrHandshake (msg : string).

(** What [server.go] uses and does not declare: the methods [Encrypted]
    and [Compressed] of [transport], and the outcome of the handshake on
    a connection, which the peer decides. *)
Record env (Config : Type) : Type := mk_env
  { Encrypted : transport Config -> bool;
    Compressed : transport Config -> bool;
    Handshake : net_Conn Config -> option error }.

(** The transport and the handshakes run so far. *)
Record world (Config : Type) : Type := mk_world
  { tr : transport Config;
    handshakes : list (net_Conn Config) }.

(** [EnableTLS] *)
Definition EnableTLS (Config : Type) (e : env Config) (config : Config)
           (w : world Config) : option error * world Config :=
  if Encrypted e (tr w) then (Some ErrEncryptionActive, w)
  else
    let c := tls_Server (conn (tr w)) config in
    let err := Handshake e c in
    let hs := handshakes w ++ [c] in
    match err with
    | None =>
        let t1 := mk_transport c (bufLink (tr w)) (cmpLink (tr w)) in
        if Compressed e t1
        then (None,
              mk_world (mk_transport c (bufLink t1)
                                     (Attach c c (cmpLink t1))) hs)
        else (None,
              mk_world (mk_transport c (Attach c c (bufLink t1))
                                     (cmpLink t1)) hs)
    | Some _ => (err, mk_world (tr w) hs)
    end.

End Server.

(* ================================================================== *)
(** ** Addresses, runs of steps, passes with their bytes *)

(** [netAddr] is a string type with the methods of [net.Addr]. *)
Definition netAddr := string.

Module NetAddr.
Definition Network (a : netAddr) : string := "mock".
Definition String (a : netAddr) : string := a.
End NetAddr.

(** [Conn.LocalAddr] and [Conn.RemoteAddr] *)
Definition LocalAddr (c : Conn) (h : Pipe) : netAddr := addr (get (r c) h).
Definition RemoteAddr (c : Conn) (h : Pipe) : netAddr := addr (get (w c) h).

(** [reaches h h']: some steps of the operations take the heap from [h] to
    [h']. *)
Inductive reaches : Pipe -> Pipe -> Prop :=
| reaches_refl : forall h, reaches h h
| reaches_step : forall o h h1 h2,
    reaches h h1 -> step o h1 h2 -> reaches h h2.

(** A pass of [write] or of [read] on a half connection, as an event. *)
Inductive hop : Type :=
| Wr (g : gid) (clk : Time) (a : string) (alarm : netTimer)
     (b : list byte) (n : nat)
| Rd (g : gid) (clk : Time) (a : string) (alarm : netTimer) (b : list byte).

(** What a pass moves: the bytes of [b] the pass of [write] counts as
    written ([b[n:n']] when the count goes from [n] to [n']), the bytes the
    pass of [read] hands to its caller ([b[:n]]), and the half connection
    afterwards. *)
Definition hop_run (o : hop) (c : halfConn)
  : list byte * list byte * halfConn :=
  match o with
  | Wr g clk a alarm b n =>
      match write_pass g clk a alarm b n c with
      | Returns n' _ c' => (firstn (n' - n) (skipn n b), [], c')
      | Waits n' _ c' => (firstn (n' - n) (skipn n b), [], c')
      | Panics => ([], [], c)
      end
  | Rd g clk a alarm b =>
      match read_pass g clk a alarm b c with
      | Returns n _ (b', c') => ([], firstn n b', c')
      | Waits _ _ (_, c') => ([], [], c')
      | Panics => ([], [], c)
      end
  end.

(** The passes of [os] run in turn: all the bytes written, all the bytes
    read, the half connection at the end. *)
Fixpoint hops_run (os : list hop) (c : halfConn)
  : list byte * list byte * halfConn :=
  match os with
  | [] => ([], [], c)
  | o :: os' =>
      let '(i, u, c1) := hop_run o c in
      let '(is', us, c2) := hops_run os' c1 in
      (i ++ is', u ++ us, c2)
  end.

(** The count of a pass of [write] is within its slice. *)
Definition hop_ok (o : hop) : Prop :=
  match o with
  | Wr _ _ _ _ b n => n <= length b
  | Rd _ _ _ _ _ => True
  end.

(** What a [Read] of the endpoint [c] into [k] bytes, called and checked at
    the clock [clk] and given no wake-up, leaves of the heap. *)
Definition drain (g : gid) (c : Conn) (k : nat) (clk : Time) (h : Pipe)
  : Pipe :=
  match Conn_Read g c (repeat Byte.x00 k) clk clk [] h with
  | Done _ _ (_, h') => h'
  | Blocked (_, h') => h'
  | Panicked => h
  end.

(** An endpoint with no write deadline and no timeout, and one with no
    read deadline and no timeout. *)
Definition no_write_timer (c : Conn) : Prop := wd c = 0%Z /\ (t c <= 0)%Z.
Definition no_read_timer (c : Conn) : Prop := rd c = 0%Z /\ (t c <= 0)%Z.

(** What the other goroutines do leaves the buffer and the read offset of
    the half connection at [p] as they are. *)
Definition quiet (p : side) (f : Pipe -> Pipe) : Prop :=
  forall h, buf (get p (f h)) = buf (get p h) /\
            off (get p (f h)) = off (get p h).

(** The action index a fault carries (the [%d] of its format). *)
Definition fault_ln (E : Type) (f : Script.fault E) : nat :=
  match f with
  | Script.F_prefix ln _ => ln
  | Script.F_write ln _ _ => ln
  | Script.F_compare ln _ _ _ => ln
  | Script.F_run ln _ => ln
  | Script.F_action ln _ => ln
  end.

(** The reports [Join] adds to the log for the outcome of the script and
    for the error of the client. *)
Definition join_reports (E : Type) (v : option (Script.fault E))
           (err : option E) : list (Script.report E) :=
  match v with Some f => [Script.R_server f] | None => [] end
  ++ match err with Some e => [Script.R_client e] | None => [] end.

(** What a [Write] of [d] by the endpoint [c], called and checked at the
    clock [clk] and given no wake-up, leaves of the heap. *)
Definition written (g : gid) (c : Conn) (d : list byte) (clk : Time)
           (h : Pipe) : Pipe :=
  match Conn_Write g c d clk clk [] h with
  | Done _ _ h' => h'
  | Blocked h' => h'
  | Panicked => h
  end.

(* ================================================================== *)
(** ** The earlier [mock.go]: [T.script] with raw [[]byte] entries, [Dial] *)

Module Script0.

(** A script action, by its dynamic type: this [script] has cases for
    [string], [[]byte] and [ScriptFunc] only. *)
Inductive action (S E : Type) : Type :=
| A_string (v : string)
| A_bytes (v : list byte)
| A_ScriptFunc (f : Script.ScriptFunc S E)
| A_other (ty : string).
Arguments A_string {S E}.
Arguments A_bytes {S E}.
Arguments A_other {S E}.

(** The values [script] panics with: the format of [panicf] and its
    arguments, or the error itself in [panic(err)]. *)
Inductive fault (E : Type) : Type :=
| F_begin (v : string) (ln : nat)
| F_not_followed (v : string) (ln : nat)
| F_ReadLine (v : string) (b : list byte) (err : option E)
| F_Read (v b : list byte) (err : option E)
| F_not_preceded (v : list byte) (ln : nat)
| F_action (ty : string) (ln : nat)
| F_err (err : E).
Arguments F_begin {E}.
Arguments F_not_followed {E}.
Arguments F_not_preceded {E}.
Arguments F_action {E}.

(** Code of the runner: a function of the server state that returns a
    value ([inl]) or panics ([inr]). *)
Definition M (S E A : Type) : Type := S -> S * (A + fault E).

Definition ret (S E A : Type) (a : A) : M S E A := fun s => (s, inl a).
Arguments ret {S E A} a.

Definition bind (S E A B : Type) (m : M S E A) (k : A -> M S E B)
  : M S E B :=
  fun s => match m s with
           | (s1, inl a) => k a s1
           | (s1, inr f) => (s1, inr f)
           end.

Definition panicf (S E A : Type) (f : fault E) : M S E A :=
  fun s => (s, inr f).
Arguments panicf {S E A} f.

Definition call (S E A : Type) (m : S -> S * A) : M S E A :=
  fun s => let (s1, a) := m s in (s1, inl a).
Arguments call {S E A} m.

Notation "x <- m ;; k" := (bind m (fun x => k))
  (at level 61, m at next level, right associativity).

(** [v[:n]] on a [v] of [n] bytes at least. *)
Definition upto (n : nat) (v : string) : string := String.substring 0 n v.

(** The end of an iteration: [if err != nil { panic(err) }], then
    [who = ""]; the value is the [who] of the next iteration. *)
Definition finish (S E : Type) (err : option E) : M S E string :=
  match err with
  | Some e => panicf (F_err e)
  | None => ret EmptyString
  end.

(** [err = f(); if err == nil { err = t.s.Flush() }] *)
Definition then_Flush (S E : Type) (srv : Script.MockServer S E)
           (err : option E) : M S E (option E) :=
  match err with
  | None => call (Script.Flush srv)
  | Some e => ret (Some e)
  end.

(** The body of the [for] loop of [script], [ln] already incremented:
    [who] is the variable as the iteration finds it, [next] the entry
    [script[ln]] when [ln < len(script)]; the value is [who] as the
    iteration leaves it. *)
Definition act (S E : Type) (srv : Script.MockServer S E) (ln : nat)
           (who : string) (v : action S E) (next : option (action S E))
  : M S E string :=
  match v with
  | A_string v =>
      if (String.length v <? 3)
         || (negb (String.eqb (upto 3 v) "S: ")
             && negb (String.eqb (upto 3 v) "C: "))
      then panicf (F_begin v ln)
      else
        let who := upto 1 v in
        let v := Script.from3 v in
        if String.length v =? 0 then
          match next with
          | Some (A_bytes _) => ret who
          | _ => panicf (F_not_followed v ln)
          end
        else if String.eqb who "S" then
          err <- call (Script.WriteLine srv (list_byte_of_string v)) ;;
          err <- then_Flush srv err ;;
          finish err
        else
          r <- call (Script.ReadLine srv) ;;
          if negb (String.eqb (string_of_list_byte (fst r)) v)
          then panicf (F_ReadLine v (fst r) (snd r))
          else finish (snd r)
  | A_bytes v =>
      if String.eqb who "S" then
        r <- call (Script.Write srv v) ;;
        err <- then_Flush srv (snd r) ;;
        finish err
      else if String.eqb who "C" then
        r <- call (Script.ReadFull srv (length v)) ;;
        if negb (String.eqb (string_of_list_byte (fst r))
                            (string_of_list_byte v))
        then panicf (F_Read v (fst r) (snd r))
        else finish (snd r)
      else panicf (F_not_preceded v ln)
  | A_ScriptFunc f =>
      err <- call f ;;
      finish err
  | A_other ty => panicf (F_action ty ln)
  end.

(** The [for] loop of [script] from the index [ln] on. *)
Fixpoint script_loop (S E : Type) (srv : Script.MockServer S E)
         (script : list (action S E)) (ln : nat) (who : string)
  : M S E unit :=
  match script with
  | [] => ret tt
  | v :: rest =>
      who1 <- act srv (Datatypes.S ln) who v (hd_error rest) ;;
      script_loop srv rest (Datatypes.S ln) who1
  end.

(** What [recover()] yields after the loop. *)
Definition recovered (E : Type) (r : unit + fault E)
  : option (fault E) :=
  match r with inl _ => None | inr f => Some f end.

(** [script]: the loop, then the deferred
    [func() { ch <- recover(); close(ch) }]. *)
Definition script (S E : Type) (srv : Script.MockServer S E)
           (actions : list (action S E))
           (ch : Script.chan (option (fault E))) (s : S)
  : S * Script.chan (option (fault E)) * Script.exit :=
  let (s1, r) := script_loop srv actions 0 EmptyString s in
  match Script.chan_send (recovered r) ch with
  | Script.Sent ch1 =>
      match Script.chan_close ch1 with
      | Some ch2 => (s1, ch2, Script.Exit_returns)
      | None => (s1, ch1, Script.Exit_crash)
      end
  | Script.Send_blocks => (s1, ch, Script.Exit_blocked)
  | Script.Send_panics => (s1, ch, Script.Exit_crash)
  end.

(** The fields of [T] that [Dial] uses: the client's end of the
    connection, [t.cn], and the client, [t.c]. *)
Record T (C Cl : Type) : Type := mk_T
  { t_cn : option C;
    t_c : option Cl }.

(** [Dial], with [imap.NewClient] on the connection as [NewClient];
    [None] is the panic ["mock: Dial already called"]. *)
Definition Dial (C Cl E : Type) (NewClient : C -> option Cl * option E)
           (t : T C Cl) : option (T C Cl * (option Cl * option E)) :=
  match t_cn t with
  | None => None
  | Some cn =>
      let (c, err) := NewClient cn in
      Some (mk_T None c, (c, err))
  end.

End Script0.

(** ** The two generations of [script] side by side *)

(** Where the raw entries of a script of the earlier runner stand: a line
    that is just ["S: "] or ["C: "] is followed by a [[]byte], a [[]byte]
    follows such a line, and every entry is of a type the runner knows and
    every line begins with ["S: "] or ["C: "].  [marked] says that the entry
    before was such a line. *)
Definition is_marker (v : string) : bool :=
  String.eqb v "S: " || String.eqb v "C: ".

Fixpoint well_placed (S E : Type) (marked : bool)
         (script : list (Script0.action S E)) : bool :=
  match script with
  | [] => negb marked
  | Script0.A_string v :: rest =>
      negb marked
      && (String.prefix "S: " v || String.prefix "C: " v)
      && well_placed (is_marker v) rest
  | Script0.A_bytes _ :: rest => marked && well_placed false rest
  | Script0.A_ScriptFunc _ :: rest => negb marked && well_placed false rest
  | Script0.A_other _ :: _ => false
  end.

(** The script of the later runner that says the same: a line ["S: "] with
    its [[]byte] becomes a [Send], a line ["C: "] with its [[]byte] a
    [Recv]. *)
Fixpoint upgrade (S E : Type) (who : string)
         (script : list (Script0.action S E))
  : list (Script.action S E) :=
  match script with
  | [] => []
  | Script0.A_string v :: rest =>
      if is_marker v then upgrade (Script0.upto 1 v) rest
      else Script.A_string v :: upgrade EmptyString rest
  | Script0.A_bytes v :: rest =>
      (if String.eqb who "S" then Script.A_Send v else Script.A_Recv v)
      :: upgrade EmptyString rest
  | Script0.A_ScriptFunc f :: rest =>
      Script.A_ScriptFunc f :: upgrade EmptyString rest
  | Script0.A_other ty :: rest =>
      Script.A_other ty :: upgrade EmptyString rest
  end.

(** Whether a run ended without a fault. *)
Definition clean0 (E : Type) (r : unit + Script0.fault E) : bool :=
  match r with inl _ => true | inr _ => false end.

Definition clean (E : Type) (r : Script.res E unit) : bool :=
  match r with Script.Ok _ => true | Script.Panic _ => false end.

(* ================================================================== *)
(** * Properties *)

(* ------------------------------------------------------------------ *)
(** *** Lists and slices *)

Lemma copy_n_le_dst : forall k src, copy_n k src <= k.
Proof. intros; unfold copy_n; lia. Qed.

Lemma copy_n_le_src : forall k src, copy_n k src <= length src.
Proof. intros; unfold copy_n; lia. Qed.

Lemma copy_length : forall b src, length (copy b src) = length b.
Proof.
  intros b src. unfold copy.
  pose proof (copy_n_le_dst (length b) src).
  pose proof (copy_n_le_src (length b) src).
  rewrite length_app, length_firstn, length_skipn. lia.
Qed.

Lemma copy_prefix : forall b src,
  firstn (copy_n (length b) src) (copy b src)
  = firstn (copy_n (length b) src) src.
Proof.
  intros b src. unfold copy.
  pose proof (copy_n_le_src (length b) src).
  rewrite firstn_app, firstn_firstn, Nat.min_id, length_firstn.
  replace (copy_n (length b) src - Nat.min (copy_n (length b) src) (length src))
    with 0 by lia.
  simpl. apply app_nil_r.
Qed.

Lemma copy_suffix : forall b src,
  skipn (copy_n (length b) src) (copy b src)
  = skipn (copy_n (length b) src) b.
Proof.
  intros b src. unfold copy.
  pose proof (copy_n_le_src (length b) src).
  rewrite skipn_app, length_firstn.
  replace (copy_n (length b) src - Nat.min (copy_n (length b) src) (length src))
    with 0 by lia.
  rewrite skipn_all2 by (rewrite length_firstn; lia).
  reflexivity.
Qed.

Lemma copy_at_length : forall a lo hi src,
  lo <= hi -> hi <= length a -> length (copy_at a lo hi src) = length a.
Proof.
  intros a lo hi src Hlo Hhi. unfold copy_at.
  pose proof (copy_n_le_dst (hi - lo) src).
  pose proof (copy_n_le_src (hi - lo) src).
  rewrite !length_app, !length_firstn, length_skipn. lia.
Qed.

(** After [copy(a[lo:hi], src)] the array reads, up to the end of what was
    copied, as its old first [lo] bytes followed by the bytes copied. *)
Lemma copy_at_firstn : forall a lo hi src,
  lo <= hi -> hi <= length a ->
  firstn (lo + copy_n (hi - lo) src) (copy_at a lo hi src)
  = firstn lo a ++ firstn (copy_n (hi - lo) src) src.
Proof.
  intros a lo hi src Hlo Hhi. unfold copy_at.
  pose proof (copy_n_le_src (hi - lo) src) as Hs.
  set (i := copy_n (hi - lo) src) in *.
  rewrite app_assoc.
  rewrite firstn_app.
  rewrite length_app, !length_firstn.
  replace (Nat.min lo (length a)) with lo by lia.
  replace (Nat.min i (length src)) with i by lia.
  replace (lo + i - (lo + i)) with 0 by lia.
  simpl. rewrite app_nil_r.
  apply firstn_all2.
  rewrite length_app, !length_firstn. lia.
Qed.

Lemma pending_length : forall c,
  length (pending c) = Nat.min (len (buf c)) (cap (buf c)) - off c.
Proof.
  intros c. unfold pending, elems, len, cap.
  destruct (buf c) as [|arr k]; simpl.
  - rewrite skipn_nil. reflexivity.
  - rewrite length_skipn, length_firstn. reflexivity.
Qed.

Lemma hc_ok_pending_length : forall c,
  hc_ok c -> length (pending c) = len (buf c) - off c.
Proof.
  intros c [[Ho Hl] _]. rewrite pending_length. lia.
Qed.

Lemma hc_ok_pending_nil : forall c,
  hc_ok c -> (pending c = [] <-> len (buf c) = 0).
Proof.
  intros c Hok. pose proof (hc_ok_pending_length Hok) as Hlen.
  destruct Hok as [[Ho Hl] Hz]. split; intros H.
  - rewrite H in Hlen. simpl in Hlen. apply Hz. lia.
  - apply length_zero_iff_nil. lia.
Qed.

Lemma not_released_false : forall c,
  is_nil (buf c) = false -> hc_wf c -> hc_ok c.
Proof.
  intros c Hn [Hr | Hok]; [unfold released in Hr; congruence | exact Hok].
Qed.

(* ------------------------------------------------------------------ *)
(** *** One pass of [read] *)

Lemma buf_from_off_ok : forall c,
  off c <= len (buf c) -> buf_from_off c = Some (pending c).
Proof.
  intros c H. unfold buf_from_off.
  destruct (Nat.ltb_spec (len (buf c)) (off c)); [lia | reflexivity].
Qed.

Lemma read_pass_data : forall g clk a alarm b c,
  is_nil (buf c) = false -> hc_ok c ->
  fst (netTimer_Timeout clk alarm) = false ->
  length b <> 0 -> pending c <> [] ->
  let n := copy_n (length b) (pending c) in
  read_pass g clk a alarm b c
  = Returns n
            (if (n =? length (pending c)) && eof c then Some io_EOF else None)
            (copy b (pending c), after_read c n).
Proof.
  intros g clk a alarm b c Hn Hok Hexp Hb Hp n.
  pose proof (hc_ok_pending_length Hok) as Hlen.
  pose proof (proj1 (hc_ok_pending_nil Hok)) as Hnil.
  destruct Hok as [[Ho Hl] Hz].
  unfold read_pass. rewrite Hn.
  destruct (netTimer_Timeout clk alarm) as [e alarm1]. simpl in Hexp. subst e.
  destruct (Nat.eqb_spec (length b) 0) as [|_]; [contradiction|].
  destruct (Nat.ltb_spec 0 (len (buf c))) as [Hpos|Hz0].
  2:{ exfalso. apply Hp. apply length_zero_iff_nil. lia. }
  rewrite (buf_from_off_ok c Ho). fold n.
  unfold after_read. simpl off. simpl buf.
  pose proof (copy_n_le_src (length b) (pending c)) as Hle. fold n in Hle.
  destruct (Nat.eqb_spec (off c + n) (len (buf c))) as [He|He];
    destruct (Nat.eqb_spec n (length (pending c))) as [He'|He']; try lia.
  - simpl. destruct (eof c); reflexivity.
  - reflexivity.
Qed.

Lemma read_pass_empty : forall g clk a alarm b c,
  is_nil (buf c) = false -> hc_ok c ->
  fst (netTimer_Timeout clk alarm) = false ->
  length b <> 0 -> pending c = [] ->
  read_pass g clk a alarm b c
  = Waits 0 (snd (netTimer_Schedule (snd (netTimer_Timeout clk alarm))))
          (b, Wait g c).
Proof.
  intros g clk a alarm b c Hn Hok Hexp Hb Hp.
  apply (hc_ok_pending_nil Hok) in Hp.
  unfold read_pass. rewrite Hn.
  destruct (netTimer_Timeout clk alarm) as [e alarm1]. simpl in *. subst e.
  destruct (Nat.eqb_spec (length b) 0) as [|_]; [contradiction|].
  rewrite Hp. reflexivity.
Qed.

Lemma pending_after_read : forall c n,
  hc_ok c -> n <= length (pending c) ->
  pending (after_read c n) = skipn n (pending c).
Proof.
  intros c n Hok Hle. pose proof (hc_ok_pending_length Hok) as Hlen.
  unfold after_read.
  destruct (Nat.eqb_spec n (length (pending c))) as [He|He].
  - unfold pending at 1. simpl.
    rewrite skipn_all2 by lia.
    destruct (buf c); reflexivity.
  - unfold pending. simpl. rewrite skipn_skipn. f_equal. lia.
Qed.

Lemma hc_ok_after_read : forall c n,
  is_nil (buf c) = false -> hc_ok c -> n <= length (pending c) ->
  hc_ok (after_read c n).
Proof.
  intros c n Hn Hok Hle. pose proof (hc_ok_pending_length Hok) as Hlen.
  destruct Hok as [[Ho Hl] Hz]. unfold after_read, hc_ok, hc_inv.
  destruct (Nat.eqb_spec n (length (pending c))) as [He|He]; simpl.
  - destruct (buf c); simpl in *; [discriminate | lia].
  - lia.
Qed.

(* ------------------------------------------------------------------ *)
(** *** One pass of [write] *)

(** A write that fits behind the bytes of the buffer returns in its first
    pass, the bytes appended to the pending ones. *)
Lemma write_pass_fits : forall g clk a alarm b c,
  is_nil (buf c) = false -> hc_ok c -> eof c = false ->
  fst (netTimer_Timeout clk alarm) = false ->
  length b <> 0 ->
  len (buf c) + length b <= cap (buf c) ->
  exists c',
    write_pass g clk a alarm b 0 c = Returns (length b) None c' /\
    pending c' = pending c ++ b /\
    is_nil (buf c') = false /\ hc_ok c' /\ eof c' = false /\
    cap (buf c') = cap (buf c) /\
    len (buf c') = len (buf c) + length b /\
    off c' = off c /\ waiters c' = [] /\ addr c' = addr c.
Proof.
  intros g clk a alarm b c Hn Hok He Hexp Hb Hfit.
  destruct Hok as [[Ho Hl] Hz].
  unfold write_pass. rewrite He.
  destruct (netTimer_Timeout clk alarm) as [e alarm1]. simpl in Hexp. subst e.
  destruct (Nat.eqb_spec (length b) 0) as [|_]; [contradiction|].
  destruct (Z.ltb_spec (Z.of_nat (len (buf c)) - Z.of_nat (off c))
                       (Z.of_nat (cap (buf c)))) as [_|Hge]; [|lia].
  unfold compact.
  destruct (Nat.eqb_spec (len (buf c)) (cap (buf c))) as [Heq|_]; [lia|].
  unfold append. simpl skipn.
  destruct c as [ws ad bf o ef]; simpl in *.
  destruct bf as [|arr k]; [discriminate|]; simpl in *.
  assert (Hi : copy_n (length arr - k) b = length b)
    by (unfold copy_n; lia).
  rewrite Hi. simpl. rewrite Nat.eqb_refl.
  eexists; split; [reflexivity|].
  unfold pending, hc_ok, hc_inv; simpl.
  rewrite copy_at_length by lia.
  repeat split; try lia; try assumption.
  pose proof (@copy_at_firstn arr k (length arr) b ltac:(lia) ltac:(lia)) as Hf.
  rewrite Hi in Hf. rewrite Hf.
  rewrite skipn_app, length_firstn.
  replace (o - Nat.min k (length arr)) with 0 by lia.
  rewrite firstn_all. reflexivity.
Qed.

Lemma write_pass_nothing : forall g clk a alarm n c,
  eof c = false -> fst (netTimer_Timeout clk alarm) = false ->
  write_pass g clk a alarm [] n c = Returns n None c.
Proof.
  intros g clk a alarm n c He Hexp. unfold write_pass. rewrite He.
  destruct (netTimer_Timeout clk alarm) as [e alarm1]. simpl in Hexp.
  subst e. reflexivity.
Qed.

Lemma get_put_same : forall p c h, get p (put p c h) = c.
Proof. intros [] c h; reflexivity. Qed.

Lemma get_put_other : forall p c h, get (other p) (put p c h) = get (other p) h.
Proof. intros [] c h; reflexivity. Qed.

Lemma firstn_plus : forall (l : list byte) n m,
  firstn (n + m) l = firstn n l ++ firstn m (skipn n l).
Proof.
  intros l n; revert l. induction n as [|n IH]; intros l m; simpl.
  - reflexivity.
  - destruct l as [|x l]; simpl.
    + rewrite firstn_nil. reflexivity.
    + rewrite IH. reflexivity.
Qed.

Lemma write_seq_ok : forall g c ws h,
  open (get (w c) h) ->
  len (buf (get (w c) h)) + total ws <= cap (buf (get (w c) h)) ->
  Forall (fun x => expired (wd c) (t c) (io_clk0 x) (io_clk x) = false) ws ->
  exists h1,
    write_seq g c ws h
    = Some (map (fun x => (length (io_b x), None)) ws, h1) /\
    open (get (w c) h1) /\
    pending (get (w c) h1) = pending (get (w c) h) ++ concat (map io_b ws).
Proof.
  intros g c ws. induction ws as [|x ws IH]; intros h Hopen Hfit Htm.
  - exists h. simpl. rewrite app_nil_r. auto.
  - inversion Htm as [|? ? Hx Hws]; subst.
    destruct Hopen as (Hn & Hok & He).
    unfold total in Hfit. simpl in Hfit. rewrite length_app in Hfit.
    fold (total ws) in Hfit.
    assert (Hstep : exists c',
      Conn_Write g c (io_b x) (io_clk0 x) (io_clk x) [] h
      = Done (length (io_b x)) None (put (w c) c' h) /\
      open c' /\ pending c' = pending (get (w c) h) ++ io_b x /\
      cap (buf c') = cap (buf (get (w c) h)) /\
      len (buf c') = len (buf (get (w c) h)) + length (io_b x)).
    { unfold Conn_Write, halfConn_write, write_loop.
      destruct (io_b x) as [|y b] eqn:Eb.
      - exists (get (w c) h).
        rewrite write_pass_nothing by assumption.
        rewrite app_nil_r. simpl. unfold open.
        repeat split; auto; try apply Hok; lia.
      - destruct (@write_pass_fits g (io_clk x)
                    (addr (get (r c) h))
                    (netTimer_Set (io_clk0 x) zero_netTimer (wd c) (t c))
                    (y :: b) (get (w c) h) Hn Hok He Hx)
          as (c' & Hw & Hp & Hn' & Hok' & He' & Hc' & Hl' & _);
          [simpl; lia | lia |].
        exists c'. rewrite Hw. unfold open. repeat split; auto;
          apply Hok'. }
    destruct Hstep as (c' & Hw & Hopen' & Hp' & Hc' & Hl').
    destruct (IH (put (w c) c' h)) as (h1 & Hs & Hopen1 & Hp1).
    + rewrite get_put_same. exact Hopen'.
    + rewrite get_put_same. lia.
    + exact Hws.
    + exists h1. simpl. rewrite Hw, Hs. split; [reflexivity|].
      split; [exact Hopen1|].
      rewrite Hp1, get_put_same, Hp', <- app_assoc. reflexivity.
Qed.

Lemma read_seq_ok : forall g c rs h,
  open (get (r c) h) ->
  total rs <= length (pending (get (r c) h)) ->
  Forall (fun x => expired (rd c) (t c) (io_clk0 x) (io_clk x) = false) rs ->
  exists got h2,
    read_seq g c rs h = Some (got, h2) /\
    concat (map fst got) = firstn (total rs) (pending (get (r c) h)) /\
    map snd got = map (fun _ => None) rs /\
    map (fun y => length (fst y)) got = map (fun x => length (io_b x)) rs /\
    open (get (r c) h2) /\
    pending (get (r c) h2) = skipn (total rs) (pending (get (r c) h)).
Proof.
  intros g c rs. induction rs as [|x rs IH]; intros h Hopen Hfit Htm.
  - exists [], h. unfold total. simpl. repeat split; auto; apply Hopen.
  - inversion Htm as [|? ? Hx Hrs]; subst.
    destruct Hopen as (Hn & Hok & He).
    unfold total in Hfit |- *. simpl in Hfit |- *.
    rewrite length_app in Hfit |- *.
    fold (total rs) in Hfit |- *.
    set (c0 := get (r c) h) in *.
    set (n := length (io_b x)) in *.
    assert (Hstep : exists b1 c',
      Conn_Read g c (io_b x) (io_clk0 x) (io_clk x) [] h
      = Done n None (b1, put (r c) c' h) /\
      firstn n b1 = firstn n (pending c0) /\
      open c' /\ pending c' = skipn n (pending c0)).
    { unfold Conn_Read, halfConn_read, read_loop. fold c0.
      destruct (Nat.eq_dec n 0) as [Hz|Hnz].
      - exists (io_b x), c0. unfold read_pass. rewrite Hn.
        unfold expired in Hx.
        destruct (netTimer_Timeout _ _) as [e alarm1]. simpl in Hx. subst e.
        fold n. rewrite Hz. simpl. unfold open.
        repeat split; auto; apply Hok.
      - assert (Hp : pending c0 <> []).
        { intros Hp. rewrite Hp in Hfit. simpl in Hfit. lia. }
        rewrite read_pass_data by assumption.
        assert (Hcn : copy_n (length (io_b x)) (pending c0) = n)
          by (unfold copy_n; fold n; lia).
        rewrite Hcn, He, andb_false_r. simpl.
        exists (copy (io_b x) (pending c0)), (after_read c0 n).
        split; [reflexivity|]. split.
        + rewrite <- Hcn at 1 2. apply copy_prefix.
        + split.
          * unfold open. repeat split.
            -- unfold after_read.
               destruct (n =? length (pending c0)); simpl;
                 destruct (buf c0); simpl in *; congruence.
            -- apply hc_ok_after_read; auto; lia.
            -- apply hc_ok_after_read; auto; lia.
            -- apply hc_ok_after_read; auto; lia.
            -- unfold after_read.
               destruct (n =? length (pending c0)); exact He.
          * apply pending_after_read; auto; lia. }
    destruct Hstep as (b1 & c' & Hr & Hb1 & Hopen' & Hp').
    destruct (IH (put (r c) c' h)) as (got & h2 & Hs & Hcat & Herr & Hlen & Hopen2 & Hp2).
    + rewrite get_put_same. exact Hopen'.
    + rewrite get_put_same, Hp', length_skipn. lia.
    + exact Hrs.
    + rewrite get_put_same in Hcat, Hp2.
      exists ((firstn n b1, None) :: got), h2. simpl.
      rewrite Hr, Hs. split; [reflexivity|].
      split; [rewrite Hcat, Hb1, Hp'; symmetry; apply firstn_plus|].
      split; [rewrite Herr; reflexivity|].
      split.
      { rewrite Hlen. f_equal. rewrite Hb1, length_firstn. lia. }
      split; [exact Hopen2|].
      rewrite Hp2, Hp', skipn_skipn. f_equal. lia.
Qed.

(* ------------------------------------------------------------------ *)
(** *** Bytes written are the bytes read *)

(** C1.  On a half connection that is open and empty, the write calls [ws]
    of one endpoint, of total length at most the capacity of the buffer and
    none of them timed out, all return in their first pass with the whole
    slice written and no error; the read calls [rs] of the peer that follow,
    asking in total for as many bytes, all return without error, and the
    bytes they return, in order, are the bytes written, in order. *)
Theorem write_read_roundtrip : forall gw gr cw cr ws rs h,
  r cr = w cw ->
  open (get (w cw) h) ->
  pending (get (w cw) h) = [] ->
  total ws <= cap (buf (get (w cw) h)) ->
  Forall (fun x => expired (wd cw) (t cw) (io_clk0 x) (io_clk x) = false) ws ->
  Forall (fun x => expired (rd cr) (t cr) (io_clk0 x) (io_clk x) = false) rs ->
  total rs = total ws ->
  exists h1 got h2,
    write_seq gw cw ws h
    = Some (map (fun x => (length (io_b x), None)) ws, h1) /\
    read_seq gr cr rs h1 = Some (got, h2) /\
    concat (map fst got) = concat (map io_b ws) /\
    map snd got = map (fun _ => None) rs.
Proof.
  intros gw gr cw cr ws rs h Hpeer Hopen Hempty Hcap Hw Hr Htot.
  assert (Hlen : len (buf (get (w cw) h)) = 0).
  { destruct Hopen as (_ & Hok & _).
    apply (hc_ok_pending_nil Hok). exact Hempty. }
  destruct (@write_seq_ok gw cw ws h Hopen ltac:(lia) Hw)
    as (h1 & Hws & Hopen1 & Hp1).
  rewrite Hempty in Hp1. simpl in Hp1.
  rewrite <- Hpeer in Hopen1, Hp1.
  destruct (@read_seq_ok gr cr rs h1 Hopen1) as (got & h2 & Hrs & Hcat & Herr & _).
  - rewrite Hp1. unfold total in *. lia.
  - exact Hr.
  - exists h1, got, h2. repeat split; auto.
    rewrite Hcat, Hp1, Htot. unfold total. apply firstn_all.
Qed.

Lemma write_read_roundtrip_witness :
  let cs := NewConn "client" "server" 4 in
  let ws := [mk_io [Byte.x61; Byte.x62] 5 6; mk_io [Byte.x63] 7 8]%Z in
  let rs := [mk_io [Byte.x00] 9 9; mk_io [Byte.x00; Byte.x00] 9 9]%Z in
  exists h1 got h2,
    write_seq 1 (snd (fst cs)) ws (snd cs)
    = Some (map (fun x => (length (io_b x), None)) ws, h1) /\
    read_seq 2 (fst (fst cs)) rs h1 = Some (got, h2) /\
    concat (map fst got) = concat (map io_b ws) /\
    map snd got = map (fun _ => None) rs.
Proof.
  intros cs ws rs.
  apply (@write_read_roundtrip 1 2 (snd (fst cs)) (fst (fst cs)) ws rs (snd cs)).
  - reflexivity.
  - unfold open, hc_ok, hc_inv. subst cs. simpl.
    repeat split; first [reflexivity | lia].
  - reflexivity.
  - vm_compute. lia.
  - repeat constructor.
  - repeat constructor.
  - reflexivity.
Defined.

(* ------------------------------------------------------------------ *)
(** *** The buffer is a queue, compaction included *)

(** The compaction moves the pending bytes to the head of the array and
    keeps them as they are. *)
Lemma compact_pending : forall c,
  is_nil (buf c) = false -> hc_ok c ->
  exists c1,
    compact c = Some c1 /\ pending c1 = pending c /\
    is_nil (buf c1) = false /\ hc_ok c1 /\
    cap (buf c1) = cap (buf c) /\ eof c1 = eof c /\
    (len (buf c) = cap (buf c) -> off c1 = 0).
Proof.
  intros c Hn Hok. unfold compact.
  destruct (Nat.eqb_spec (len (buf c)) (cap (buf c))) as [Heq|Hne].
  2:{ exists c. repeat split; auto; try apply Hok. contradiction. }
  destruct Hok as [[Ho Hl] Hz].
  rewrite (buf_from_off_ok c Ho).
  destruct c as [ws ad bf o ef]. simpl in *.
  destruct bf as [|arr k]; [discriminate|]. simpl in *.
  set (src := pending (mk_halfConn ws ad (Slice arr k) o ef)).
  assert (Hsrc : length src = k - o).
  { unfold src. rewrite pending_length. simpl. lia. }
  assert (Hk1 : copy_n k src = length src) by (unfold copy_n; lia).
  eexists. split; [reflexivity|].
  assert (Hlen : length (copy_at arr 0 k src) = length arr)
    by (apply copy_at_length; lia).
  unfold hc_ok, hc_inv. simpl. rewrite Hlen, Hk1.
  repeat split; try lia.
  unfold pending. simpl.
  pose proof (@copy_at_firstn arr 0 k src ltac:(lia) ltac:(lia)) as Hf.
  simpl in Hf. replace (k - 0) with k in Hf by lia.
  rewrite Hk1 in Hf. rewrite Hf. apply firstn_all.
Qed.

(** [append] puts as many of the bytes of [src] as fit behind the pending
    ones. *)
Lemma append_pending : forall c src,
  is_nil (buf c) = false -> hc_ok c ->
  let i := copy_n (cap (buf c) - len (buf c)) src in
  fst (append c src) = i /\
  pending (snd (append c src)) = pending c ++ firstn i src /\
  is_nil (buf (snd (append c src))) = false /\
  hc_ok (snd (append c src)) /\
  eof (snd (append c src)) = eof c.
Proof.
  intros c src Hn [[Ho Hl] Hz] i.
  destruct c as [ws ad bf o ef]. simpl in *.
  destruct bf as [|arr k]; [discriminate|]. simpl in *.
  subst i. set (i := copy_n (length arr - k) src).
  assert (Hi : i <= length arr - k) by apply copy_n_le_dst.
  unfold append. simpl. fold i.
  assert (Hlen : length (copy_at arr k (length arr) src) = length arr)
    by (apply copy_at_length; lia).
  unfold hc_ok, hc_inv, pending. simpl. rewrite Hlen.
  repeat split; try lia.
  pose proof (@copy_at_firstn arr k (length arr) src ltac:(lia) ltac:(lia))
    as Hf.
  fold i in Hf. rewrite Hf.
  rewrite skipn_app, length_firstn.
  replace (o - Nat.min k (length arr)) with 0 by lia.
  reflexivity.
Qed.

(** A pass of [write] on a buffer that is not released appends to the
    pending bytes the next bytes of [b], as many as it counts, and nothing
    else; it does not panic. *)
Lemma write_pass_appends : forall g clk a alarm b n c,
  is_nil (buf c) = false -> hc_ok c -> n <= length b ->
  exists n' c',
    (exists err, write_pass g clk a alarm b n c = Returns n' err c' \/
                 exists alarm', write_pass g clk a alarm b n c
                                = Waits n' alarm' c') /\
    n <= n' /\ n' <= length b /\
    pending c' = pending c ++ firstn (n' - n) (skipn n b) /\
    is_nil (buf c') = false /\ hc_ok c'.
Proof.
  intros g clk a alarm b n c Hn Hok Hnb.
  assert (Hsame : forall c0, pending c0 = pending c ->
            pending c0 = pending c ++ firstn (n - n) (skipn n b)).
  { intros c0 H0. rewrite Nat.sub_diag. simpl. rewrite app_nil_r. exact H0. }
  unfold write_pass.
  destruct (eof c) eqn:He.
  { exists n, c. split; [exists (Some io_EOF); left; reflexivity|].
    repeat split; auto; apply Hok. }
  destruct (netTimer_Timeout clk alarm) as [e alarm1].
  destruct e.
  { exists n, c. split; [exists (Some (write_timeout a)); left; reflexivity|].
    repeat split; auto; apply Hok. }
  destruct (length b =? 0).
  { exists n, c. split; [exists None; left; reflexivity|].
    repeat split; auto; apply Hok. }
  destruct (_ <? _)%Z.
  2:{ exists n, (Wait g c).
      split; [exists None; right; eexists; reflexivity|].
      repeat split; auto; apply Hok. }
  destruct (compact_pending Hn Hok)
    as (c1 & Hc & Hp1 & Hn1 & Hok1 & _ & He1 & _).
  rewrite Hc.
  destruct (@append_pending c1 (skipn n b) Hn1 Hok1)
    as (Hi & Hp2 & Hn2 & Hok2 & He2).
  destruct (append c1 (skipn n b)) as [i c2]. simpl in *.
  assert (Hile : i <= length b - n).
  { rewrite Hi. pose proof (copy_n_le_src (cap (buf c1) - len (buf c1))
                                          (skipn n b)) as H.
    rewrite length_skipn in H. exact H. }
  assert (Hp : pending c2 = pending c ++ firstn (n + i - n) (skipn n b)).
  { rewrite Hp2, Hp1, Hi. f_equal. f_equal. lia. }
  destruct (n + i =? length b).
  - exists (n + i), (Broadcast c2).
    split; [exists None; left; reflexivity|].
    repeat split; auto; try lia; apply Hok2.
  - exists (n + i), (Wait g (Broadcast c2)).
    split; [exists None; right; eexists; reflexivity|].
    repeat split; auto; try lia; apply Hok2.
Qed.

(* ------------------------------------------------------------------ *)
(** *** The order of the cases of [read] *)

Lemma after_read_fields : forall c n,
  is_nil (buf c) = false ->
  waiters (after_read c n) = [] /\
  eof (after_read c n) = eof c /\
  addr (after_read c n) = addr c /\
  is_nil (buf (after_read c n)) = false /\
  cap (buf (after_read c n)) = cap (buf c) /\
  (n = length (pending c) ->
   len (buf (after_read c n)) = 0 /\ off (after_read c n) = 0) /\
  (n <> length (pending c) ->
   off (after_read c n) = off c + n /\ buf (after_read c n) = buf c).
Proof.
  intros c n Hn. unfold after_read.
  destruct (Nat.eqb_spec n (length (pending c))) as [He|He]; simpl;
    destruct (buf c); simpl in *; try discriminate;
    repeat split; auto; intros; congruence.
Qed.

(** C2.  One pass of the loop of [read] on a well-formed half connection
    decides in this order: (1) buffer released: end-of-stream; (2) timer
    expired: the timeout error; (3) empty destination: zero bytes and no
    error; (4) bytes pending: as many as the destination holds are copied to
    its head, the read offset advances by their count or, when they were the
    last, the buffer is reset, end-of-stream is returned with them exactly
    when they were the last and the writer has closed, and the waiters are
    woken; (5) otherwise the caller waits, and the loop runs its next pass
    from case (1) on the state it is woken in.  In case (4) the call returns
    at least one byte, however many were asked for. *)
Theorem read_priority_order : forall g clk a alarm b c,
  hc_wf c ->
  let tm := netTimer_Timeout clk alarm in
  (is_nil (buf c) = true ->
   read_pass g clk a alarm b c = Returns 0 (Some io_EOF) (b, c)) /\
  (is_nil (buf c) = false -> fst tm = true ->
   read_pass g clk a alarm b c = Returns 0 (Some (read_timeout a)) (b, c)) /\
  (is_nil (buf c) = false -> fst tm = false -> length b = 0 ->
   read_pass g clk a alarm b c = Returns 0 None (b, c)) /\
  (is_nil (buf c) = false -> fst tm = false -> length b <> 0 ->
   pending c <> [] ->
   let n := Nat.min (length b) (length (pending c)) in
   exists b' c',
     read_pass g clk a alarm b c
     = Returns n
               (if (n =? length (pending c)) && eof c
                then Some io_EOF else None)
               (b', c') /\
     0 < n /\
     firstn n b' = firstn n (pending c) /\ skipn n b' = skipn n b /\
     pending c' = skipn n (pending c) /\
     (n = length (pending c) -> len (buf c') = 0 /\ off c' = 0) /\
     (n <> length (pending c) -> off c' = off c + n /\ buf c' = buf c) /\
     waiters c' = [] /\ eof c' = eof c /\ is_nil (buf c') = false) /\
  (is_nil (buf c) = false -> fst tm = false -> length b <> 0 ->
   pending c = [] ->
   read_pass g clk a alarm b c
   = Waits 0 (snd (netTimer_Schedule (snd tm))) (b, Wait g c) /\
   forall p h ws f clk1,
     get p h = c ->
     read_loop g a p [] clk alarm b h = Blocked (b, put p (Wait g c) h) /\
     read_loop g a p ((f, clk1) :: ws) clk alarm b h
     = read_loop g a p ws clk1 (snd (netTimer_Schedule (snd tm))) b
                 (f (put p (Wait g c) h))).
Proof.
  intros g clk a alarm b c Hwf tm.
  split; [|split; [|split; [|split]]].
  - intros Hn. unfold read_pass. rewrite Hn. reflexivity.
  - intros Hn Hexp. unfold read_pass. rewrite Hn.
    subst tm. destruct (netTimer_Timeout clk alarm) as [e alarm1].
    simpl in Hexp. subst e. reflexivity.
  - intros Hn Hexp Hb. unfold read_pass. rewrite Hn.
    subst tm. destruct (netTimer_Timeout clk alarm) as [e alarm1].
    simpl in Hexp. subst e. rewrite Hb. reflexivity.
  - intros Hn Hexp Hb Hp n.
    pose proof (not_released_false Hn Hwf) as Hok.
    exists (copy b (pending c)), (after_read c n).
    assert (Hlen : length (pending c) <> 0).
    { intros H0. apply Hp. apply length_zero_iff_nil. exact H0. }
    assert (Hle : n <= length (pending c)) by (subst n; lia).
    destruct (@after_read_fields c n Hn) as (Hw & He & _ & Hn' & _ & Hd & Hnd).
    split; [apply read_pass_data; assumption|].
    split; [subst n; lia|].
    split; [apply copy_prefix|].
    split; [apply copy_suffix|].
    split; [apply pending_after_read; assumption|].
    auto.
  - intros Hn Hexp Hb Hp.
    pose proof (not_released_false Hn Hwf) as Hok.
    pose proof (@read_pass_empty g clk a alarm b c Hn Hok Hexp Hb Hp)
      as Hpass.
    split; [exact Hpass|].
    intros p h ws f clk1 Hget. subst c.
    split; simpl; rewrite Hpass; reflexivity.
Qed.

Lemma read_priority_order_witness :
  let c := mk_halfConn [5] "client"
             (Slice [Byte.x61; Byte.x62; Byte.x00; Byte.x00] 2) 0 true in
  let b := [Byte.x00; Byte.x00; Byte.x00] in
  hc_wf c /\
  exists b' c',
    read_pass 2 10%Z "client" zero_netTimer b c
    = Returns 2 (Some io_EOF) (b', c') /\
    firstn 2 b' = [Byte.x61; Byte.x62] /\ skipn 2 b' = [Byte.x00] /\
    pending c' = [] /\ len (buf c') = 0 /\ off c' = 0 /\ waiters c' = [].
Proof.
  intros c b.
  assert (Hwf : hc_wf c).
  { right. unfold hc_ok, hc_inv. simpl. repeat split; lia. }
  split; [exact Hwf|].
  destruct (@read_priority_order 2 10%Z "client"%string zero_netTimer b c Hwf)
    as (_ & _ & _ & H4 & _).
  destruct H4 as (b' & c' & Hr & _ & Hb1 & Hb2 & Hp & Hd & _ & Hw & _);
    try reflexivity; try discriminate.
  exists b', c'. simpl in Hr, Hb1, Hb2, Hp, Hd.
  destruct (Hd eq_refl) as [Hl Ho].
  repeat split; assumption.
Defined.

(* ------------------------------------------------------------------ *)
(** *** What a pass changes *)

Lemma read_pass_shape : forall g clk a alarm b c,
  let c' := pass_state snd (read_pass g clk a alarm b c) c in
  eof c' = eof c /\ addr c' = addr c /\
  ((buf c' = buf c /\ off c' = off c) \/
   (off c <= len (buf c) /\ is_nil (buf c) = false /\
    is_nil (buf c') = false /\ cap (buf c') = cap (buf c) /\
    ((off c' = 0 /\ len (buf c') = 0) \/
     (buf c' = buf c /\ off c <= off c' /\ off c' <= len (buf c) /\
      off c' <> len (buf c))))).
Proof.
  intros g clk a alarm b c. unfold read_pass.
  destruct (is_nil (buf c)) eqn:Hn; simpl; [auto|].
  destruct (netTimer_Timeout clk alarm) as [e alarm1].
  destruct e; simpl; [auto|].
  destruct (length b =? 0); simpl; [auto|].
  destruct (0 <? len (buf c)); simpl; [|auto].
  unfold buf_from_off.
  destruct (Nat.ltb_spec (len (buf c)) (off c)) as [Hlt|Hle]; simpl; [auto|].
  set (n := copy_n (length b) (skipn (off c) (elems (buf c)))).
  assert (Hn_le : off c + n <= len (buf c)).
  { pose proof (copy_n_le_src (length b) (skipn (off c) (elems (buf c)))) as H.
    fold n in H. fold (pending c) in H. rewrite pending_length in H. lia. }
  destruct (Nat.eqb_spec (off c + n) (len (buf c))) as [He|He]; simpl.
  - split; [reflexivity|]. split; [reflexivity|]. right.
    destruct (buf c) as [|arr k]; [discriminate|]. simpl in *.
    repeat split; auto.
  - split; [reflexivity|]. split; [reflexivity|]. right.
    repeat split; auto. right. repeat split; auto. lia.
Qed.

Lemma write_pass_shape : forall g clk a alarm b n c,
  let c' := pass_state (fun x => x) (write_pass g clk a alarm b n c) c in
  eof c' = eof c /\ addr c' = addr c /\
  ((buf c' = buf c /\ off c' = off c) \/
   (is_nil (buf c') = is_nil (buf c) /\
    (len (buf c) <= cap (buf c) -> cap (buf c') = cap (buf c)) /\
    ((len (buf c) <> cap (buf c) /\ off c' = off c /\
      len (buf c) <= len (buf c') /\
      (len (buf c) <= cap (buf c) -> len (buf c') <= cap (buf c))) \/
     (len (buf c) = cap (buf c) /\ off c <= len (buf c) /\ off c' = 0 /\
      len (buf c') <= cap (buf c))))).
Proof.
  intros g clk a alarm b n c. unfold write_pass.
  destruct (eof c) eqn:He; simpl; [auto|].
  destruct (netTimer_Timeout clk alarm) as [e alarm1].
  destruct e; simpl; [rewrite He; auto|].
  destruct (length b =? 0); simpl; [rewrite He; auto|].
  destruct (Z.ltb_spec (Z.of_nat (len (buf c)) - Z.of_nat (off c))
                       (Z.of_nat (cap (buf c)))) as [Hlt|Hge]; simpl;
    [|rewrite He; auto].
  unfold compact, buf_from_off.
  destruct (Nat.eqb_spec (len (buf c)) (cap (buf c))) as [Heq|Hne].
  - destruct (Nat.ltb_spec (len (buf c)) (off c)) as [Hlt'|Hle]; simpl;
      [rewrite He; auto|].
    destruct c as [ws ad bf o ef]. simpl in *.
    destruct bf as [|arr k]; simpl in *.
    + unfold append. simpl. destruct (n + 0 =? length b); simpl;
        (split; [auto|]; split; [auto|]); right; repeat split; auto;
        right; repeat split; auto; lia.
    + unfold append. simpl.
      set (src := skipn o (firstn k arr)).
      set (k1 := copy_n k src).
      set (arr1 := copy_at arr 0 k src).
      assert (Hk1 : k1 <= k) by apply copy_n_le_dst.
      assert (Ha1 : length arr1 = length arr)
        by (apply copy_at_length; lia).
      set (i := copy_n (length arr1 - k1) (skipn n b)).
      assert (Hi : i <= length arr1 - k1) by apply copy_n_le_dst.
      assert (Ha2 : length (copy_at arr1 k1 (length arr1) (skipn n b))
                    = length arr1)
        by (apply copy_at_length; lia).
      destruct (n + i =? length b); simpl;
        (split; [auto|]; split; [auto|]); right; rewrite Ha2;
        (split; [reflexivity|]); (split; [intros; lia|]);
        right; repeat split; lia.
  - destruct c as [ws ad bf o ef]. simpl in *.
    destruct bf as [|arr k]; simpl in *.
    + unfold append. simpl. destruct (n + 0 =? length b); simpl;
        (split; [auto|]; split; [auto|]); left; auto.
    + unfold append. simpl.
      set (i := copy_n (length arr - k) (skipn n b)).
      assert (Hi : i <= length arr - k) by apply copy_n_le_dst.
      destruct (n + i =? length b); simpl;
        (split; [auto|]; split; [auto|]); right;
        (split; [reflexivity|]);
        (split; [intros; apply copy_at_length; lia|]);
        left; repeat split; try lia.
Qed.

Lemma read_pass_keeps : forall g clk a alarm b c,
  keeps c (pass_state snd (read_pass g clk a alarm b c) c).
Proof.
  intros g clk a alarm b c.
  destruct (read_pass_shape g clk a alarm b c) as (He & _ & Hs).
  set (c' := pass_state snd (read_pass g clk a alarm b c) c) in *.
  unfold keeps, hc_wf, released, hc_ok, hc_inv_open, hc_inv.
  destruct Hs as [[Hb Ho] | (Hle & Hn & Hn' & Hc & [[Ho Hl] | (Hb & Ho1 & Ho2 & Ho3)])].
  - rewrite Hb, Ho. tauto.
  - rewrite Hn, Hn', Hc, Ho, Hl.
    split; [exact He|]. split; [reflexivity|].
    split; [lia|]. split; [lia|]. intros _. right. lia.
  - rewrite Hb.
    split; [exact He|]. split; [reflexivity|].
    split; [lia|]. split; [intros [H1 H2]; split; [exact H1|intros; lia]|].
    intros [H | [[H1 H2] H3]]; [left; exact H|]. right. lia.
Qed.

Lemma write_pass_keeps : forall g clk a alarm b n c,
  keeps c (pass_state (fun x => x) (write_pass g clk a alarm b n c) c).
Proof.
  intros g clk a alarm b n c.
  destruct (write_pass_shape g clk a alarm b n c) as (He & _ & Hs).
  set (c' := pass_state (fun x => x) (write_pass g clk a alarm b n c) c) in *.
  unfold keeps, hc_wf, released, hc_ok, hc_inv_open, hc_inv.
  destruct Hs as [[Hb Ho] | (Hn & Hc & [(Hne & Ho & Hl1 & Hl2) | (Heq & Ho1 & Ho & Hl)])].
  - rewrite Hb, Ho. tauto.
  - rewrite Hn, Ho.
    split; [exact He|]. split; [reflexivity|].
    split; [intros [H1 H2]; specialize (Hc H2); specialize (Hl2 H2); lia|].
    split.
    + intros [H1 H2]. specialize (Hc H1). specialize (Hl2 H1).
      split; [lia|]. intros H3. specialize (H2 H3). lia.
    + intros [H | [[H1 H2] H3]]; [left; exact H|].
      specialize (Hc H2). specialize (Hl2 H2). right. lia.
  - rewrite Hn, Ho.
    split; [exact He|]. split; [reflexivity|].
    split; [intros [H1 H2]; specialize (Hc H2); lia|].
    split.
    + intros [H1 H2]. specialize (Hc H1). split; [lia|]. intros; lia.
    + intros [H | [[H1 H2] H3]]; [left; exact H|].
      specialize (Hc H2). right. lia.
Qed.

(* ------------------------------------------------------------------ *)
(** *** [Clear] and [close] on the pair *)

Lemma get_put : forall p q c h,
  get q (put p c h) = if side_eqb p q then c else get q h.
Proof. intros [] [] c h; reflexivity. Qed.

Lemma Conn_Clear_get : forall c h p,
  conn_wf c ->
  get p (Conn_Clear c h)
  = Broadcast (set_off (set_buf (get p h) (reslice (buf (get p h)) 0)) 0).
Proof.
  intros [rs ws rd0 wd0 t0] h p Hc. unfold conn_wf in Hc. simpl in Hc.
  subst ws. destruct rs, p; reflexivity.
Qed.

Lemma Conn_close_released : forall c h,
  is_nil (buf (get (r c) h)) = true -> Conn_close c h = h.
Proof. intros c h H. unfold Conn_close. rewrite H. reflexivity. Qed.

Lemma Conn_close_get : forall c h,
  conn_wf c -> is_nil (buf (get (r c) h)) = false ->
  get (r c) (Conn_close c h)
  = Broadcast (set_eof (set_buf (get (r c) h) nil_slice) true) /\
  get (w c) (Conn_close c h) = Broadcast (set_eof (get (w c) h) true).
Proof.
  intros [rs ws rd0 wd0 t0] h Hc Hn. unfold conn_wf in Hc. simpl in *.
  subst ws. unfold Conn_close. simpl. rewrite Hn.
  destruct rs; split; reflexivity.
Qed.

Lemma side_cases : forall c p, conn_wf c -> p = r c \/ p = w c.
Proof.
  intros c p Hc. rewrite Hc. destruct p, (r c); auto.
Qed.

(* ------------------------------------------------------------------ *)
(** *** What the steps keep *)

Lemma step_keeps_eof : forall o h h',
  step o h h' -> forall p, eof (get p h) = true -> eof (get p h') = true.
Proof.
  intros o h h' Hs. destruct Hs; intros q Hq.
  - rewrite get_put. destruct (side_eqb p q) eqn:E; [|exact Hq].
    destruct p, q; try discriminate;
      rewrite (proj1 (read_pass_keeps g clk a alarm b _)); exact Hq.
  - rewrite get_put. destruct (side_eqb p q) eqn:E; [|exact Hq].
    destruct p, q; try discriminate;
      rewrite (proj1 (write_pass_keeps g clk a alarm b n _)); exact Hq.
  - rewrite Conn_Clear_get by assumption. exact Hq.
  - destruct (is_nil (buf (get (r c) h))) eqn:Hn.
    + rewrite Conn_close_released by assumption. exact Hq.
    + destruct (Conn_close_get h H Hn) as [Hr Hw].
      destruct (side_cases q H) as [-> | ->];
        [rewrite Hr | rewrite Hw]; reflexivity.
  - unfold timer_fires, upd. rewrite get_put.
    destruct (side_eqb p q) eqn:E; [|exact Hq].
    destruct p, q; try discriminate; exact Hq.
Qed.

Lemma step_keeps_inv_open : forall o h h',
  step o h h' ->
  (forall p, hc_inv_open (get p h)) -> forall p, hc_inv_open (get p h').
Proof.
  intros o h h' Hs Hinv. destruct Hs; intros q.
  - rewrite get_put. destruct (side_eqb p q) eqn:E; [|apply Hinv].
    apply read_pass_keeps, Hinv.
  - rewrite get_put. destruct (side_eqb p q) eqn:E; [|apply Hinv].
    apply write_pass_keeps, Hinv.
  - rewrite Conn_Clear_get by assumption.
    destruct (Hinv q) as [Hl Ho]. unfold hc_inv_open. simpl.
    destruct (buf (get q h)); simpl in *; split; intros; lia.
  - destruct (is_nil (buf (get (r c) h))) eqn:Hn.
    + rewrite Conn_close_released by assumption. apply Hinv.
    + destruct (Conn_close_get h H Hn) as [Hr Hw].
      destruct (side_cases q H) as [-> | ->].
      * rewrite Hr. unfold hc_inv_open. simpl. split; [lia|discriminate].
      * rewrite Hw. exact (Hinv (w c)).
  - unfold timer_fires, upd. rewrite get_put.
    destruct (side_eqb p q) eqn:E; [|apply Hinv].
    exact (Hinv p).
Qed.

Lemma step_keeps_inv : forall o h h',
  step o h h' -> o <> OpClose ->
  (forall p, hc_inv (get p h)) -> forall p, hc_inv (get p h').
Proof.
  intros o h h' Hs Ho Hinv. destruct Hs; intros q.
  - rewrite get_put. destruct (side_eqb p q) eqn:E; [|apply Hinv].
    apply read_pass_keeps, Hinv.
  - rewrite get_put. destruct (side_eqb p q) eqn:E; [|apply Hinv].
    apply write_pass_keeps, Hinv.
  - rewrite Conn_Clear_get by assumption.
    destruct (Hinv q) as [Hl Hc]. unfold hc_inv. simpl.
    destruct (buf (get q h)); simpl in *; split; lia.
  - congruence.
  - unfold timer_fires, upd. rewrite get_put.
    destruct (side_eqb p q) eqn:E; [|apply Hinv].
    exact (Hinv p).
Qed.

Lemma other_involutive : forall p, other (other p) = p.
Proof. intros []; reflexivity. Qed.

Lemma side_eqb_other : forall p, side_eqb p (other p) = false.
Proof. intros []; reflexivity. Qed.

Lemma side_eqb_true : forall p q, side_eqb p q = true -> p = q.
Proof. intros [] []; simpl; congruence. Qed.

Lemma side_eqb_false : forall p q, side_eqb p q = false -> q = other p.
Proof. intros [] []; simpl; congruence. Qed.

(** A step on one side that keeps the flag and whether the buffer is
    released keeps the heap well formed. *)
Lemma put_keeps_wf : forall p c' h,
  pipe_wf h -> keeps (get p h) c' -> pipe_wf (put p c' h).
Proof.
  intros p c' h Hwf (He & Hn & _ & _ & Hk) q.
  destruct (Hwf q) as [Hq1 Hq2]. unfold released in *.
  rewrite !get_put.
  destruct (side_eqb p q) eqn:E.
  - apply side_eqb_true in E. subst q. rewrite side_eqb_other.
    split; [apply Hk; exact Hq1|].
    rewrite Hn, He. exact Hq2.
  - apply side_eqb_false in E. subst q. rewrite other_involutive.
    replace (side_eqb p p) with true by (destruct p; reflexivity).
    rewrite other_involutive in Hq2. rewrite He.
    split; [exact Hq1 | exact Hq2].
Qed.

Lemma step_keeps_wf : forall o h h',
  step o h h' -> pipe_wf h -> pipe_wf h'.
Proof.
  intros o h h' Hs Hwf. destruct Hs.
  - apply put_keeps_wf; [exact Hwf | apply read_pass_keeps].
  - apply put_keeps_wf; [exact Hwf | apply write_pass_keeps].
  - intros q. rewrite !Conn_Clear_get by assumption.
    destruct (Hwf q) as [Hq1 Hq2]. unfold hc_wf, released, hc_ok, hc_inv in *.
    simpl. revert Hq1 Hq2.
    destruct (buf (get q h)); simpl; intros Hq1 Hq2.
    + split; [left; reflexivity | exact Hq2].
    + split; [|discriminate].
      right. destruct Hq1 as [Hq1|Hq1]; [discriminate Hq1|]. lia.
  - destruct (is_nil (buf (get (r c) h))) eqn:Hn.
    + rewrite Conn_close_released by assumption. exact Hwf.
    + destruct (Conn_close_get h H Hn) as [Hr Hw]. intros q.
      assert (Hoth : other (r c) = w c /\ other (w c) = r c).
      { rewrite H. rewrite other_involutive. auto. }
      destruct Hoth as [Ho1 Ho2].
      destruct (side_cases q H) as [-> | ->].
      * rewrite Ho1, Hr, Hw. unfold hc_wf, released. simpl. auto.
      * rewrite Ho2, Hr, Hw. unfold hc_wf, released. simpl.
        destruct (Hwf (w c)) as [Hq1 Hq2]. split; [exact Hq1|auto].
  - unfold timer_fires, upd. apply put_keeps_wf; [exact Hwf|].
    destruct (Hwf p) as [Hq1 _].
    unfold keeps, hc_inv, hc_inv_open, hc_wf, released, hc_ok, hc_inv.
    simpl. tauto.
Qed.

Lemma NewConn_wf : forall addrA addrB bufSize,
  pipe_wf (snd (NewConn addrA addrB bufSize)).
Proof.
  intros addrA addrB bufSize q. unfold hc_wf, released, hc_ok, hc_inv.
  destruct q; simpl; (split; [right; repeat split; lia | discriminate]).
Qed.

Lemma reachable_wf : forall h, reachable h -> pipe_wf h.
Proof.
  intros h Hr. induction Hr as [|o h h' _ IH Hs].
  - apply NewConn_wf.
  - exact (step_keeps_wf Hs IH).
Qed.

(** What the other goroutines do while a caller waits, when it is a step
    of the package, is a well-behaved wake-up. *)
Lemma step_wake_ok : forall (f : Pipe -> Pipe) (clk : Time),
  (forall h, exists o, step o h (f h)) -> wake_ok (f, clk).
Proof.
  intros f clk Hf h Hwf. simpl.
  destruct (Hf h) as [o Hs]. exact (step_keeps_wf Hs Hwf).
Qed.

(* ------------------------------------------------------------------ *)
(** *** The invariant of a half connection *)

(** C6, as the specification states it, fails for [close]: it releases the
    buffer of the read side and leaves the read offset as it was.  Here the
    server writes two bytes, the client reads one of them and closes: the
    client's read side is left with offset 1 and a nil buffer. *)
Lemma close_breaks_offset_bound :
  let cs := NewConn "client" "server" 4 in
  let cA := fst (fst cs) in
  let cB := snd (fst cs) in
  let h1 := mk_Pipe
              (mk_halfConn [] "client"
                 (Slice [Byte.x61; Byte.x62; Byte.x00; Byte.x00] 2) 0 false)
              (mk_halfConn [] "server"
                 (Slice [Byte.x00; Byte.x00; Byte.x00; Byte.x00] 0) 0 false) in
  let h2 := mk_Pipe
              (mk_halfConn [] "client"
                 (Slice [Byte.x61; Byte.x62; Byte.x00; Byte.x00] 2) 1 false)
              (mk_halfConn [] "server"
                 (Slice [Byte.x00; Byte.x00; Byte.x00; Byte.x00] 0) 0 false) in
  Conn_Write 1 cB [Byte.x61; Byte.x62] 0%Z 0%Z [] (snd cs) = Done 2 None h1 /\
  Conn_Read 2 cA [Byte.x00] 0%Z 0%Z [] h1 = Done 1 None ([Byte.x61], h2) /\
  step OpClose h2 (Conn_close cA h2) /\
  (forall p, hc_inv (get p h2)) /\
  get SideA (Conn_close cA h2) = mk_halfConn [] "client" nil_slice 1 true /\
  ~ hc_inv (get SideA (Conn_close cA h2)).
Proof.
  intros cs cA cB h1 h2.
  split; [reflexivity|]. split; [reflexivity|].
  split; [apply step_close; reflexivity|].
  split; [intros []; unfold hc_inv; simpl; lia|].
  split; [reflexivity|].
  unfold hc_inv. simpl. lia.
Qed.

(** C6, amended.  Every atomic step of [read], [write], [Clear] and [close]
    (and the broadcast of a timer) keeps the end-of-stream flag of both half
    connections once it is set, and keeps [len(buf) <= cap(buf)] together
    with [off <= len(buf)] for every buffer that is not released; the steps
    other than [close] keep [off <= len(buf) <= cap(buf)] as it stands. *)
Theorem invariant_kept : forall o h h',
  step o h h' ->
  (forall p, eof (get p h) = true -> eof (get p h') = true) /\
  ((forall p, hc_inv_open (get p h)) -> forall p, hc_inv_open (get p h')) /\
  (o <> OpClose ->
   (forall p, hc_inv (get p h)) -> forall p, hc_inv (get p h')).
Proof.
  intros o h h' Hs. split; [|split].
  - exact (step_keeps_eof Hs).
  - exact (step_keeps_inv_open Hs).
  - exact (step_keeps_inv Hs).
Qed.

Lemma invariant_kept_witness :
  let c := mk_Conn SideA SideB 0%Z 0%Z 0%Z in
  let h := mk_Pipe
             (mk_halfConn [] "client"
                (Slice [Byte.x61; Byte.x62; Byte.x00; Byte.x00] 2) 1 false)
             (mk_halfConn [] "server"
                (Slice [Byte.x00; Byte.x00; Byte.x00; Byte.x00] 0) 0 true) in
  (forall p, eof (get p h) = true -> eof (get p (Conn_Clear c h)) = true) /\
  ((forall p, hc_inv_open (get p h)) ->
   forall p, hc_inv_open (get p (Conn_Clear c h))) /\
  (OpClear <> OpClose ->
   (forall p, hc_inv (get p h)) -> forall p, hc_inv (get p (Conn_Clear c h))).
Proof.
  intros c h.
  apply (@invariant_kept OpClear h (Conn_Clear c h)).
  apply step_Clear. reflexivity.
Defined.

(* ------------------------------------------------------------------ *)
(** *** The timer *)

Lemma end_of_Set : forall clk d tmo,
  end_ (netTimer_Set clk zero_netTimer d tmo)
  = (if 0 <? tmo then
       if negb (d =? 0) && (d <? clk + tmo) then d else clk + tmo
     else if negb (d =? 0) then d else 0)%Z.
Proof.
  intros clk d tmo. unfold netTimer_Set, IsZero, Before.
  destruct (0 <? tmo)%Z; simpl.
  - destruct (negb (d =? 0)%Z && (d <? clk + tmo)%Z); reflexivity.
  - destruct (negb (d =? 0)%Z); reflexivity.
Qed.

Lemma Timeout_spec : forall clk tm,
  fst (netTimer_Timeout clk tm)
  = (negb (end_ tm =? 0) && (end_ tm <=? clk))%Z.
Proof.
  intros clk tm. unfold netTimer_Timeout, IsZero, After.
  destruct (end_ tm =? 0)%Z; simpl; [reflexivity|].
  destruct (Z.ltb_spec clk (end_ tm)), (Z.leb_spec (end_ tm) clk);
    simpl; auto; lia.
Qed.

(** C7 as the specification states it fails in its last part: a timeout
    of zero is not "no wait".  With no deadline and a zero timeout the
    timer has no expiry: [Timeout] reports false however late it is asked,
    and a read of an empty buffer is still blocked after two wake-ups, the
    each after a broadcast, the second one a thousand seconds after the
    call. *)
Lemma zero_timeout_waits :
  let cs := NewConn "client" "server" 4 in
  let h_blocked :=
    mk_Pipe (mk_halfConn [2] "client"
               (Slice [Byte.x00; Byte.x00; Byte.x00; Byte.x00] 0) 0 false)
            (mk_halfConn [] "server"
               (Slice [Byte.x00; Byte.x00; Byte.x00; Byte.x00] 0) 0 false) in
  end_ (netTimer_Set 100%Z zero_netTimer 0%Z 0%Z) = 0%Z /\
  expired 0%Z 0%Z 100%Z 1000000000000%Z = false /\
  halfConn_read 2 SideA [Byte.x00] 0%Z 0%Z "client" 100%Z 100%Z
                [(upd SideA Broadcast, 1000000000%Z);
                 (upd SideA Broadcast, 1000000000000%Z)]
                (snd cs)
  = Blocked ([Byte.x00], h_blocked).
Proof.
  intros cs h_blocked. repeat split; reflexivity.
Qed.

(** C7, amended.  [Set] on a fresh timer, at the clock [clk]: with a
    positive timeout and a deadline the expiry is the earlier of the
    deadline and [clk + timeout]; with a positive timeout alone it is
    [clk + timeout]; with a deadline alone it is the deadline; a timeout
    that is not positive, zero included, counts as unset, and with no
    deadline either the timer has no expiry and never reports a timeout.
    A timer with an expiry reports a timeout exactly from the expiry on. *)
Theorem timer_expiry : forall clk d tmo,
  let tm := netTimer_Set clk zero_netTimer d tmo in
  ((0 < tmo)%Z -> d <> 0%Z -> end_ tm = Z.min d (clk + tmo)) /\
  ((0 < tmo)%Z -> d = 0%Z -> end_ tm = (clk + tmo)%Z) /\
  ((tmo <= 0)%Z -> d <> 0%Z -> end_ tm = d) /\
  ((tmo <= 0)%Z -> d = 0%Z ->
   end_ tm = 0%Z /\ forall clk', fst (netTimer_Timeout clk' tm) = false) /\
  (forall clk', end_ tm <> 0%Z ->
                fst (netTimer_Timeout clk' tm) = (end_ tm <=? clk')%Z).
Proof.
  intros clk d tmo tm.
  assert (He := end_of_Set clk d tmo). fold tm in He.
  repeat split.
  - intros Ht Hd. rewrite He.
    destruct (Z.ltb_spec 0 tmo); [|lia].
    destruct (Z.eqb_spec d 0); [contradiction|]. simpl.
    destruct (Z.ltb_spec d (clk + tmo)); lia.
  - intros Ht Hd. rewrite He. subst d.
    destruct (Z.ltb_spec 0 tmo); [reflexivity|lia].
  - intros Ht Hd. rewrite He.
    destruct (Z.ltb_spec 0 tmo); [lia|].
    destruct (Z.eqb_spec d 0); [contradiction|reflexivity].
  - rewrite He. subst d. destruct (Z.ltb_spec 0 tmo); [lia|reflexivity].
  - intros clk'. rewrite Timeout_spec, He. subst d.
    destruct (Z.ltb_spec 0 tmo); [lia|reflexivity].
  - intros clk' Hne. rewrite Timeout_spec.
    destruct (Z.eqb_spec (end_ tm) 0); [contradiction|reflexivity].
Qed.

Lemma timer_expiry_witness :
  end_ (netTimer_Set 100%Z zero_netTimer 50%Z 10%Z) = Z.min 50 (100 + 10) /\
  end_ (netTimer_Set 100%Z zero_netTimer 0%Z 10%Z) = (100 + 10)%Z /\
  end_ (netTimer_Set 100%Z zero_netTimer 50%Z 0%Z) = 50%Z /\
  (end_ (netTimer_Set 100%Z zero_netTimer 0%Z 0%Z) = 0%Z /\
   forall clk',
     fst (netTimer_Timeout clk' (netTimer_Set 100%Z zero_netTimer 0%Z 0%Z))
     = false).
Proof.
  split; [|split; [|split]].
  - apply (proj1 (timer_expiry 100%Z 50%Z 10%Z)); [lia | discriminate].
  - apply (proj1 (proj2 (timer_expiry 100%Z 0%Z 10%Z))); [lia | reflexivity].
  - apply (proj1 (proj2 (proj2 (timer_expiry 100%Z 50%Z 0%Z))));
      [lia | discriminate].
  - apply (proj1 (proj2 (proj2 (proj2 (timer_expiry 100%Z 0%Z 0%Z)))));
      [lia | reflexivity].
Defined.

(* ------------------------------------------------------------------ *)
(** *** A deadline in the past *)

Lemma put_get_same : forall p h, put p (get p h) h = h.
Proof. intros [] []; reflexivity. Qed.

Lemma past_deadline_expired : forall clk0 clk d tmo,
  let alarm := netTimer_Set clk0 zero_netTimer d tmo in
  end_ alarm <> 0%Z -> (end_ alarm < clk0)%Z -> (clk0 <= clk)%Z ->
  fst (netTimer_Timeout clk alarm) = true.
Proof.
  intros clk0 clk d tmo alarm Hne Hlt Hclk. rewrite Timeout_spec.
  destruct (Z.eqb_spec (end_ alarm) 0); [contradiction|].
  destruct (Z.leb_spec (end_ alarm) clk); [reflexivity|lia].
Qed.

(** C4 as the specification states it fails where the half connection is
    already closed: the end-of-stream cases come before the timer.  Here
    the client has closed; its read with a deadline of 5, called at 10,
    returns [io.EOF], which is not a [net.Error]; so does its write. *)
Lemma past_deadline_on_closed_is_EOF :
  let cs := NewConn "client" "server" 4 in
  let cA := SetDeadline (fst (fst cs)) 5%Z in
  let h := Conn_close cA (snd cs) in
  end_ (netTimer_Set 10%Z zero_netTimer (rd cA) (t cA)) = 5%Z /\
  Conn_Read 1 cA [Byte.x00] 10%Z 10%Z [] h
  = Done 0 (Some io_EOF) ([Byte.x00], h) /\
  Conn_Write 1 cA [Byte.x61] 10%Z 10%Z [] h = Done 0 (Some io_EOF) h /\
  as_net_Error io_EOF = None.
Proof.
  intros cs cA h. repeat split; reflexivity.
Qed.

(** C4, amended.  A call of [read] or [write] whose timer, as [Set]
    configures it at the clock [clk0] of the call, has an expiry strictly
    before [clk0] returns in its first pass whatever wake-ups are on offer
    (it never waits), with no byte moved and the heap as it was.  The error
    is [io.EOF] when the buffer is released (for [read]) or the writer's
    end-of-stream flag is set (for [write]), as these cases come first, and
    otherwise the [netTimeout] error, whose [Timeout()] is true and whose
    [Temporary()] is false. *)
Theorem past_deadline_returns_at_once :
  forall g p b d tmo a clk0 clk wakes h,
  let alarm := netTimer_Set clk0 zero_netTimer d tmo in
  end_ alarm <> 0%Z -> (end_ alarm < clk0)%Z -> (clk0 <= clk)%Z ->
  halfConn_read g p b d tmo a clk0 clk wakes h
  = Done 0 (Some (if is_nil (buf (get p h)) then io_EOF else read_timeout a))
         (b, h) /\
  halfConn_write g p b d tmo a clk0 clk wakes h
  = Done 0 (Some (if eof (get p h) then io_EOF else write_timeout a)) h /\
  as_net_Error (read_timeout a) = Some (mk_net_Error true false) /\
  as_net_Error (write_timeout a) = Some (mk_net_Error true false).
Proof.
  intros g p b d tmo a clk0 clk wakes h alarm Hne Hlt Hclk.
  pose proof (@past_deadline_expired clk0 clk d tmo Hne Hlt Hclk) as Hexp.
  fold alarm in Hexp.
  repeat split.
  - unfold halfConn_read. fold alarm.
    destruct wakes as [|[f clk1] ws]; simpl; unfold read_pass;
      destruct (is_nil (buf (get p h))); rewrite ?put_get_same;
      try reflexivity;
      destruct (netTimer_Timeout clk alarm) as [e alarm1];
      simpl in Hexp; subst e; rewrite put_get_same; reflexivity.
  - unfold halfConn_write. fold alarm.
    destruct wakes as [|[f clk1] ws]; simpl; unfold write_pass;
      destruct (eof (get p h)); rewrite ?put_get_same;
      try reflexivity;
      destruct (netTimer_Timeout clk alarm) as [e alarm1];
      simpl in Hexp; subst e; rewrite put_get_same; reflexivity.
Qed.

Lemma past_deadline_returns_at_once_witness :
  let cs := NewConn "client" "server" 4 in
  let h := snd cs in
  halfConn_read 1 SideA [Byte.x00] 5%Z 0%Z "client" 10%Z 11%Z
                [(upd SideA Broadcast, 12%Z)] h
  = Done 0 (Some (read_timeout "client")) ([Byte.x00], h) /\
  halfConn_write 1 SideA [Byte.x61] 5%Z 0%Z "client" 10%Z 11%Z
                 [(upd SideA Broadcast, 12%Z)] h
  = Done 0 (Some (write_timeout "client")) h /\
  as_net_Error (read_timeout "client") = Some (mk_net_Error true false) /\
  as_net_Error (write_timeout "client") = Some (mk_net_Error true false).
Proof.
  intros cs h.
  apply (@past_deadline_returns_at_once 1 SideA [Byte.x00] 5%Z 0%Z
           "client"%string 10%Z 11%Z [(upd SideA Broadcast, 12%Z)] h).
  - simpl. lia.
  - simpl. lia.
  - lia.
Defined.

(* ------------------------------------------------------------------ *)
(** *** End-of-stream seen by [Conn.Read] *)

Lemma read_loop_last_pass : forall g a p wakes clk alarm b h n err b' h1,
  pipe_wf h -> Forall wake_ok wakes ->
  read_loop g a p wakes clk alarm b h = Done n err (b', h1) ->
  exists hk clk_k alarm_k b_k c1,
    pipe_wf hk /\
    read_pass g clk_k a alarm_k b_k (get p hk) = Returns n err (b', c1) /\
    h1 = put p c1 hk.
Proof.
  intros g a p wakes. induction wakes as [|[f clk1] ws IH];
    intros clk alarm b h n err b' h1 Hwf Hok Hrun; simpl in Hrun.
  - destruct (read_pass g clk a alarm b (get p h)) as [n0 e0 [b0 c0]|n0 al [b0 c0]|]
      eqn:Hp; try discriminate.
    inversion Hrun; subst.
    exists h, clk, alarm, b, c0. auto.
  - destruct (read_pass g clk a alarm b (get p h)) as [n0 e0 [b0 c0]|n0 al [b0 c0]|]
      eqn:Hp; try discriminate.
    + inversion Hrun; subst.
      exists h, clk, alarm, b, c0. auto.
    + inversion Hok as [|? ? Hf Hws]; subst.
      apply (IH clk1 al b0 (f (put p c0 h)) n err b' h1); auto.
      apply Hf. apply put_keeps_wf; [exact Hwf|].
      pose proof (read_pass_keeps g clk a alarm b (get p h)) as Hk.
      rewrite Hp in Hk. exact Hk.
Qed.

(** The two ways a pass of [read] returns [io.EOF]. *)
Lemma read_pass_EOF : forall g clk a alarm b c n b' c1,
  hc_wf c ->
  read_pass g clk a alarm b c = Returns n (Some io_EOF) (b', c1) ->
  (is_nil (buf c) = true /\ n = 0 /\ c1 = c) \/
  (is_nil (buf c) = false /\ 0 < n /\ is_nil (buf c1) = false /\
   waiters c1 = [] /\ eof c1 = true).
Proof.
  intros g clk a alarm b c n b' c1 Hwf Hr.
  destruct (is_nil (buf c)) eqn:Hn.
  - unfold read_pass in Hr. rewrite Hn in Hr. inversion Hr; subst.
    left. auto.
  - right. pose proof (not_released_false Hn Hwf) as Hok.
    destruct (fst (netTimer_Timeout clk alarm)) eqn:Hexp.
    { unfold read_pass in Hr. rewrite Hn in Hr.
      destruct (netTimer_Timeout clk alarm) as [e al]. simpl in Hexp.
      subst e. discriminate. }
    destruct (Nat.eq_dec (length b) 0) as [Hb|Hb].
    { unfold read_pass in Hr. rewrite Hn in Hr.
      destruct (netTimer_Timeout clk alarm) as [e al]. simpl in Hexp.
      subst e. rewrite Hb in Hr. discriminate. }
    destruct (Nat.eq_dec (length (pending c)) 0) as [Hp0|Hp0].
    { apply length_zero_iff_nil in Hp0.
      rewrite read_pass_empty in Hr by assumption. discriminate. }
    assert (Hne : pending c <> []).
    { intros E. rewrite E in Hp0. simpl in Hp0. lia. }
    rewrite read_pass_data in Hr by assumption.
    inversion Hr as [[Hn_eq Herr Hb_eq Hc_eq]].
    rewrite Hn_eq in *.
    destruct (@after_read_fields c n Hn) as (Hw & He & _ & Hn' & _).
    split; [reflexivity|].
    split; [rewrite <- Hn_eq; unfold copy_n; lia|].
    split; [exact Hn'|]. split; [exact Hw|].
    rewrite He. destruct (eof c); [reflexivity|].
    rewrite andb_false_r in Herr. discriminate.
Qed.

Lemma write_on_closed : forall g p b d tmo a clk0 clk wakes h,
  eof (get p h) = true ->
  halfConn_write g p b d tmo a clk0 clk wakes h = Done 0 (Some io_EOF) h.
Proof.
  intros g p b d tmo a clk0 clk wakes h He.
  unfold halfConn_write.
  destruct wakes as [|[f clk1] ws]; simpl; unfold write_pass; rewrite He;
    rewrite put_get_same; reflexivity.
Qed.

(** C5 as the specification states it fails where the buffer had been
    released before the read: [close] then does nothing and wakes nobody,
    and a read of the peer on its own empty buffer does not see
    end-of-stream.  Here the client closes; the server's goroutine 7 then
    reads and waits on the server's half connection; the client's read
    returns [io.EOF] and leaves the heap as it is, goroutine 7 still among
    the waiters; and a read of the server on that heap waits again. *)
Lemma read_EOF_leaves_peer_waiting :
  let cs := NewConn "client" "server" 4 in
  let cA := fst (fst cs) in
  let cB := snd (fst cs) in
  let h1 := mk_Pipe
              (mk_halfConn [] "client" nil_slice 0 true)
              (mk_halfConn [] "server"
                 (Slice [Byte.x00; Byte.x00; Byte.x00; Byte.x00] 0) 0 true) in
  let h2 := mk_Pipe
              (mk_halfConn [] "client" nil_slice 0 true)
              (mk_halfConn [7] "server"
                 (Slice [Byte.x00; Byte.x00; Byte.x00; Byte.x00] 0) 0 true) in
  Conn_Close cA (snd cs) = (None, h1) /\
  Conn_Read 7 cB [Byte.x00] 0%Z 0%Z [] h1 = Blocked ([Byte.x00], h2) /\
  Conn_Read 1 cA [Byte.x00] 0%Z 0%Z [] h2
  = Done 0 (Some io_EOF) ([Byte.x00], h2) /\
  waiters (get (w cA) h2) = [7] /\
  Conn_Read 7 cB [Byte.x00] 0%Z 0%Z [] h2
  = Blocked ([Byte.x00],
             mk_Pipe (hcA h2)
                     (mk_halfConn [7; 7] "server"
                        (Slice [Byte.x00; Byte.x00; Byte.x00; Byte.x00] 0)
                        0 true)).
Proof.
  intros cs cA cB h1 h2. repeat split; reflexivity.
Qed.

(** C5, amended.  When [Read] on an endpoint returns [io.EOF], then
    afterwards the read buffer of the endpoint is released and the
    end-of-stream flag is set on both half connections, so that every later
    [Write] of the peer returns [io.EOF] in its first pass.  When the
    end-of-stream comes with bytes (the last ones pending), the read has
    closed the channel itself and has broadcast on both condition
    variables: nobody is left waiting on either. *)
Theorem read_EOF_closes : forall g c b clk0 clk wakes h n b' h',
  conn_wf c -> pipe_wf h -> Forall wake_ok wakes ->
  Conn_Read g c b clk0 clk wakes h = Done n (Some io_EOF) (b', h') ->
  released (get (r c) h') /\
  eof (get (r c) h') = true /\ eof (get (w c) h') = true /\
  (0 < n -> waiters (get (r c) h') = [] /\ waiters (get (w c) h') = []) /\
  (forall g' c' b2 clk0' clk' wakes',
     w c' = r c ->
     Conn_Write g' c' b2 clk0' clk' wakes' h' = Done 0 (Some io_EOF) h').
Proof.
  intros g c b clk0 clk wakes h n b' h' Hc Hwf Hwakes Hread.
  unfold Conn_Read, halfConn_read in Hread.
  destruct (read_loop _ _ _ _ _ _ _ _) as [n0 e0 [b0 h0]| |] eqn:Hloop;
    try discriminate.
  inversion Hread as [[Hn He Hb Hh]]. subst n0 e0 b0. clear Hread.
  simpl in Hh.
  destruct (@read_loop_last_pass _ _ _ _ _ _ _ _ _ _ _ _ Hwf Hwakes Hloop)
    as (hk & clk_k & alarm_k & b_k & c1 & Hwfk & Hpass & Hh0).
  assert (Hmain :
    released (get (r c) h') /\
    eof (get (r c) h') = true /\ eof (get (w c) h') = true /\
    (0 < n -> waiters (get (r c) h') = [] /\ waiters (get (w c) h') = [])).
  { destruct (@read_pass_EOF _ _ _ _ _ _ _ _ _ (proj1 (Hwfk (r c))) Hpass)
      as [(Hn & Hz & Hc1) | (Hn & Hpos & Hn1 & Hw1 & He1)].
    - subst c1. rewrite put_get_same in Hh0. subst h0.
      rewrite Conn_close_released in Hh by exact Hn. subst h'.
      destruct (proj2 (Hwfk (r c)) Hn) as [E1 E2].
      rewrite <- Hc in E2.
      repeat split; auto; lia.
    - assert (Hn0 : is_nil (buf (get (r c) h0)) = false).
      { subst h0. rewrite get_put_same. exact Hn1. }
      destruct (Conn_close_get h0 Hc Hn0) as [Hr Hw]. subst h'.
      rewrite Hr, Hw. unfold released. simpl. auto. }
  destruct Hmain as (H1 & H2 & H3 & H4).
  simpl. rewrite Hh.
  split; [exact H1|]. split; [exact H2|]. split; [exact H3|].
  split; [exact H4|].
  intros g' c' b2 clk0' clk' wakes' Hpeer.
  unfold Conn_Write. apply write_on_closed. rewrite Hpeer. exact H2.
Qed.

Lemma read_EOF_closes_witness :
  let cA := mk_Conn SideA SideB 0%Z 0%Z 0%Z in
  let h := mk_Pipe
             (mk_halfConn [3] "client"
                (Slice [Byte.x61; Byte.x00; Byte.x00; Byte.x00] 1) 0 true)
             (mk_halfConn [4] "server" nil_slice 0 true) in
  let h' := mk_Pipe
              (mk_halfConn [] "client" nil_slice 0 true)
              (mk_halfConn [] "server" nil_slice 0 true) in
  Conn_Read 1 cA [Byte.x00] 0%Z 0%Z [] h
  = Done 1 (Some io_EOF) ([Byte.x61], h') /\
  released (get (r cA) h') /\
  eof (get (r cA) h') = true /\ eof (get (w cA) h') = true /\
  (0 < 1 -> waiters (get (r cA) h') = [] /\ waiters (get (w cA) h') = []) /\
  (forall g' c' b2 clk0' clk' wakes',
     w c' = r cA ->
     Conn_Write g' c' b2 clk0' clk' wakes' h' = Done 0 (Some io_EOF) h').
Proof.
  intros cA h h'.
  assert (Hrun : Conn_Read 1 cA [Byte.x00] 0%Z 0%Z [] h
                 = Done 1 (Some io_EOF) ([Byte.x61], h')) by reflexivity.
  split; [exact Hrun|].
  apply (@read_EOF_closes 1 cA [Byte.x00] 0%Z 0%Z [] h 1 [Byte.x61] h').
  - reflexivity.
  - intros q. unfold hc_wf, released, hc_ok, hc_inv.
    destruct q; simpl; split; auto. right. repeat split; lia.
  - constructor.
  - exact Hrun.
Defined.

(* ------------------------------------------------------------------ *)
(** *** [Close] twice *)

(** C9 as the specification states it fails for a [Close] that follows
    the [Close] of the other endpoint: it still releases the read buffer of
    its own endpoint.  Here the client closes, then the server. *)
Lemma Close_after_peer_Close_changes_state :
  let cs := NewConn "client" "server" 4 in
  let cA := fst (fst cs) in
  let cB := snd (fst cs) in
  let h1 := mk_Pipe
              (mk_halfConn [] "client" nil_slice 0 true)
              (mk_halfConn [] "server"
                 (Slice [Byte.x00; Byte.x00; Byte.x00; Byte.x00] 0) 0 true) in
  let h2 := mk_Pipe
              (mk_halfConn [] "client" nil_slice 0 true)
              (mk_halfConn [] "server" nil_slice 0 true) in
  Conn_Close cA (snd cs) = (None, h1) /\
  Conn_Close cB h1 = (None, h2) /\
  h2 <> h1.
Proof.
  intros cs cA cB h1 h2. repeat split; try reflexivity.
  discriminate.
Qed.

(** C9, amended.  [Close] always returns nil and leaves the read buffer of
    its endpoint released; on an endpoint whose read buffer is released it
    changes nothing, so that a second [Close] of the same endpoint is a
    no-op; and once both endpoints of a pair have closed, [Close] of either
    changes nothing. *)
Theorem Close_idempotent : forall c h,
  fst (Conn_Close c h) = None /\
  released (get (r c) (snd (Conn_Close c h))) /\
  (released (get (r c) h) -> Conn_Close c h = (None, h)) /\
  Conn_Close c (snd (Conn_Close c h)) = Conn_Close c h /\
  (forall c',
     conn_wf c -> conn_wf c' -> r c' = w c ->
     let h2 := snd (Conn_Close c' (snd (Conn_Close c h))) in
     Conn_Close c h2 = (None, h2) /\ Conn_Close c' h2 = (None, h2)).
Proof.
  intros c h.
  assert (Hrel : forall c0 h0, released (get (r c0) (Conn_close c0 h0))).
  { intros [rs ws rd0 wd0 t0] h0. unfold released, Conn_close. simpl.
    destruct (is_nil (buf (get rs h0))) eqn:Hn; simpl; [exact Hn|].
    destruct rs, ws; reflexivity. }
  assert (Hnop : forall c0 h0,
             released (get (r c0) h0) -> Conn_Close c0 h0 = (None, h0)).
  { intros c0 h0 Hr. unfold Conn_Close.
    rewrite Conn_close_released by exact Hr. reflexivity. }
  split; [reflexivity|].
  split; [apply Hrel|].
  split; [apply Hnop|].
  split.
  - unfold Conn_Close at 1. simpl.
    rewrite Conn_close_released by apply Hrel. reflexivity.
  - intros c' Hc Hc' Hpeer h2.
    assert (Hr' : released (get (r c') h2)) by apply Hrel.
    split; [|apply Hnop; exact Hr'].
    apply Hnop. subst h2. simpl.
    pose proof (Hrel c h) as Hr1.
    set (h1 := Conn_close c h) in *.
    destruct (is_nil (buf (get (r c') h1))) eqn:Hn.
    + rewrite Conn_close_released by exact Hn. exact Hr1.
    + destruct (Conn_close_get h1 Hc' Hn) as [_ Hw].
      assert (Hwr : w c' = r c).
      { rewrite Hc', Hpeer, Hc. apply other_involutive. }
      rewrite Hwr in Hw. unfold released. rewrite Hw. simpl. exact Hr1.
Qed.

Lemma Close_idempotent_witness :
  let cs := NewConn "client" "server" 4 in
  let cA := fst (fst cs) in
  let cB := snd (fst cs) in
  let h2 := snd (Conn_Close cB (snd (Conn_Close cA (snd cs)))) in
  Conn_Close cA (snd (Conn_Close cA (snd cs))) = Conn_Close cA (snd cs) /\
  Conn_Close cA h2 = (None, h2) /\ Conn_Close cB h2 = (None, h2).
Proof.
  intros cs cA cB h2.
  destruct (Close_idempotent cA (snd cs)) as (_ & _ & _ & H4 & H5).
  split; [exact H4|].
  apply (H5 cB); reflexivity.
Defined.

(* ------------------------------------------------------------------ *)
(** *** The goroutine of a script *)

Lemma script_loop_ends :
  forall (S E : Type) (srv : Script.MockServer S E)
         (actions : list (Script.action S E)) (s : S),
  exists s1 v,
    Script.script srv actions (Script.make_chan 1) s
    = (s1, Script.mk_chan [v] 1 true [Script.Ev_send v; Script.Ev_close],
       Script.Exit_returns).
Proof.
  intros S E srv actions s. unfold Script.script.
  destruct (Script.script_loop srv actions 0 s) as [s1 r].
  exists s1, (Script.recovered r). reflexivity.
Qed.

(* ------------------------------------------------------------------ *)
(** *** The outcome of a script run *)

(** C3.  Whatever the script and whatever the server does, the goroutine
    of [script], given the channel of capacity 1 that [Script] has just
    made, returns after exactly one send and the close: the channel ends
    closed, holding the one value sent, which is nil when the loop ran to
    its end and the value of the panic when it panicked.  This is the
    channel every run started by [Script] ends with. *)
Theorem script_sends_one_outcome :
  forall (S E : Type) (srv : Script.MockServer S E)
         (actions : list (Script.action S E)) (s : S),
  let r := Script.script_loop srv actions 0 s in
  let v := match snd r with
           | Script.Ok _ => None
           | Script.Panic f => Some f
           end in
  let ch := Script.mk_chan [v] 1 true [Script.Ev_send v; Script.Ev_close] in
  Script.script srv actions (Script.make_chan 1) s
  = (fst r, ch, Script.Exit_returns) /\
  Script.sends ch = 1 /\
  (forall t t' : Script.T E,
     Script.Script t = Script.Returns t' ->
     Script.script_ends srv actions s t'
     = (fst r, Script.mk_T (Some ch) (Script.t_failed t) (Script.t_log t))).
Proof.
  intros S E srv actions s r v ch.
  assert (Hrun : Script.script srv actions (Script.make_chan 1) s
                 = (fst r, ch, Script.Exit_returns)).
  { unfold Script.script. fold r. destruct r as [s1 [u|f]]; reflexivity. }
  split; [exact Hrun|]. split; [reflexivity|].
  intros t t' Hs.
  assert (Ht' : t' = Script.mk_T (Some (Script.make_chan 1))
                       (Script.t_failed t) (Script.t_log t)).
  { unfold Script.Script in Hs.
    destruct (Script.chan_recv (Script.t_ch t)).
    - inversion Hs. reflexivity.
    - destruct (Script.t_ch t); [discriminate|].
      inversion Hs. reflexivity. }
  subst t'. unfold Script.script_ends. simpl. rewrite Hrun. reflexivity.
Qed.

Lemma script_sends_one_outcome_witness :
  let srv := Script.mk_MockServer
               (fun (b : list byte) (s : nat) => (s + 1, @None string))
               (fun s => (s, None))
               (fun s => (s, (list_byte_of_string "A1 NOOP", None)))
               (fun b s => (s, (length b, None)))
               (fun n s => (s, (repeat Byte.x00 n, None))) in
  let v := Some (Script.F_compare 2 "A1 NOOP "%string "A1 NOOP"%string None) in
  Script.script srv
                [Script.A_string "S: * OK ready"; Script.A_string "C: A1 NOOP "]
                (Script.make_chan 1) 0
  = (1, Script.mk_chan [v] 1 true [Script.Ev_send v; Script.Ev_close],
     Script.Exit_returns).
Proof.
  intros srv v.
  exact (proj1 (@script_sends_one_outcome nat string srv
                  [Script.A_string "S: * OK ready";
                   Script.A_string "C: A1 NOOP "] 0)).
Defined.

(* ------------------------------------------------------------------ *)
(** *** [Join] with no script running *)

(** C8 as the specification states it fails for a run that was never
    started: the channel variable of such a [T] is nil, and [Join] blocks
    in its receive; nothing is reported. *)
Lemma Join_on_nil_channel_blocks :
  Script.Join (@None string) (Script.mk_T None false []) = Script.Blocks.
Proof. reflexivity. Qed.

(** C8, amended.  [Join] on a [T] whose channel is closed and empty --
    the state a run leaves once its outcome has been taken -- logs the
    "called without an active script" report and ends the test with
    [FailNow]; [Join] with no client error on an unfailed [T] whose channel
    holds a nil outcome returns and logs nothing.  A [T] that [Script] has
    returned always has a channel; after a run has ended and one [Join] has
    taken its outcome, every further [Join] ends in the report. *)
Theorem Join_without_active_script :
  forall (E : Type) (err : option E) (t : Script.T E)
         (ch : Script.chan (option (Script.fault E))),
  Script.t_ch t = Some ch ->
  (Script.cbuf ch = [] -> Script.cclosed ch = true ->
   Script.Join err t
   = Script.FailNow (Script.mk_T (Some ch) true
                       (Script.t_log t ++ [Script.R_no_script]))) /\
  (forall rest, Script.cbuf ch = None :: rest -> Script.t_failed t = false ->
   Script.Join None t
   = Script.Returns
       (Script.mk_T (Some (Script.mk_chan rest (Script.ccap ch)
                             (Script.cclosed ch) (Script.clog ch)))
                    false (Script.t_log t))) /\
  (forall t', Script.Script t = Script.Returns t' ->
              Script.t_ch t' = Some (Script.make_chan 1)) /\
  (forall (S : Type) (srv : Script.MockServer S E) actions s t1 t2 err2,
     ch = Script.make_chan 1 ->
     t1 = snd (Script.script_ends srv actions s t) ->
     Script.Join err t1 = Script.Returns t2 \/
     Script.Join err t1 = Script.FailNow t2 ->
     Script.Join err2 t2
     = Script.FailNow (Script.mk_T (Script.t_ch t2) true
                         (Script.t_log t2 ++ [Script.R_no_script]))).
Proof.
  intros E err t ch Hch. split; [|split; [|split]].
  - intros Hb Hc. unfold Script.Join, Script.chan_recv.
    rewrite Hch, Hb, Hc. reflexivity.
  - intros rest Hb Hf. unfold Script.Join, Script.chan_recv.
    rewrite Hch, Hb. simpl. rewrite Hf. reflexivity.
  - intros t' Hs. unfold Script.Script in Hs.
    destruct (Script.chan_recv (Script.t_ch t)).
    + inversion Hs. reflexivity.
    + rewrite Hch in Hs. discriminate.
  - intros S srv actions s t1 t2 err2 Hmk Ht1 Hj.
    unfold Script.script_ends in Ht1. rewrite Hch in Ht1. subst ch.
    destruct (script_loop_ends srv actions s) as (s1 & v & Hrun).
    rewrite Hrun in Ht1. simpl in Ht1. subst t1.
    unfold Script.Join in Hj. simpl in Hj.
    assert (Ht2 : Script.t_ch t2
                  = Some (Script.mk_chan [] 1 true
                            [Script.Ev_send v; Script.Ev_close])).
    { destruct v as [f|]; destruct err as [e|]; simpl in Hj;
        try destruct (Script.t_failed t);
        destruct Hj as [Hj|Hj]; inversion Hj; reflexivity. }
    unfold Script.Join, Script.chan_recv. rewrite Ht2. reflexivity.
Qed.

Lemma Join_without_active_script_witness :
  let ch := Script.mk_chan [] 1 true
              [Script.Ev_send (@None (Script.fault string)); Script.Ev_close] in
  let t := Script.mk_T (Some ch) false [] in
  Script.Join (@None string) t
  = Script.FailNow (Script.mk_T (Some ch) true [Script.R_no_script]).
Proof.
  intros ch t.
  exact (proj1 (@Join_without_active_script string None t ch eq_refl)
               eq_refl eq_refl).
Defined.

(* ------------------------------------------------------------------ *)
(** *** [EnableTLS] on an encrypted transport *)

(** C10.  When [Encrypted()] reports true, [EnableTLS] returns
    [ErrEncryptionActive] and changes nothing: the connection and the two
    links of the transport are as they were, and no handshake has run. *)
Theorem EnableTLS_when_encrypted :
  forall (Config : Type) (e : Server.env Config) (config : Config)
         (w : Server.world Config),
  Server.Encrypted e (Server.tr w) = true ->
  Server.EnableTLS e config w = (Some Server.ErrEncryptionActive, w).
Proof.
  intros Config e config w He. unfold Server.EnableTLS.
  rewrite He. reflexivity.
Qed.

Lemma EnableTLS_when_encrypted_witness :
  let e := Server.mk_env
             (fun t : Server.transport nat =>
                match Server.conn t with
                | Server.TLS _ _ => true
                | Server.Raw _ => false
                end)
             (fun _ => false)
             (fun _ => None) in
  let c := Server.TLS (Server.Raw 0) 1 in
  let w := Server.mk_world
             (Server.mk_transport c
                (Server.mk_link (Some c) (Some c))
                (Server.mk_link None None))
             [c] in
  Server.EnableTLS e 2 w = (Some Server.ErrEncryptionActive, w).
Proof.
  intros e c w.
  apply (@EnableTLS_when_encrypted nat e 2 w).
  reflexivity.
Defined.

(* ================================================================== *)
(** * Further properties of the connection *)

(* ------------------------------------------------------------------ *)
(** *** First in, first out, for any order of the passes *)

Lemma hop_run_queue : forall o c i u c',
  hop_ok o -> is_nil (buf c) = false -> hc_ok c ->
  hop_run o c = (i, u, c') ->
  u ++ pending c' = pending c ++ i /\
  is_nil (buf c') = false /\ hc_ok c'.
Proof.
  intros o c i u c' Ho Hn Hok Hrun. destruct o as [g clk a alarm b n|g clk a alarm b];
    simpl in Hrun, Ho.
  - destruct (@write_pass_appends g clk a alarm b n c Hn Hok Ho)
      as (n' & c1 & (err & [Hw | [al Hw]]) & _ & _ & Hp & Hn1 & Hok1);
      rewrite Hw in Hrun; inversion Hrun; subst; simpl; auto.
  - destruct (fst (netTimer_Timeout clk alarm)) eqn:Hexp.
    { unfold read_pass in Hrun. rewrite Hn in Hrun.
      destruct (netTimer_Timeout clk alarm) as [e al]. simpl in Hexp. subst e.
      inversion Hrun; subst. simpl. rewrite app_nil_r. auto. }
    destruct (Nat.eq_dec (length b) 0) as [Hb|Hb].
    { unfold read_pass in Hrun. rewrite Hn in Hrun.
      destruct (netTimer_Timeout clk alarm) as [e al]. simpl in Hexp. subst e.
      rewrite Hb in Hrun. inversion Hrun; subst. simpl.
      rewrite app_nil_r. auto. }
    destruct (Nat.eq_dec (length (pending c)) 0) as [Hp0|Hp0].
    { apply length_zero_iff_nil in Hp0.
      rewrite read_pass_empty in Hrun by assumption.
      inversion Hrun; subst. simpl. rewrite app_nil_r.
      repeat split; auto; apply Hok. }
    assert (Hne : pending c <> []).
    { intros E. rewrite E in Hp0. simpl in Hp0. lia. }
    rewrite read_pass_data in Hrun by assumption.
    inversion Hrun; subst. clear Hrun.
    pose proof (copy_n_le_src (length b) (pending c)) as Hle.
    rewrite copy_prefix, pending_after_read by assumption.
    rewrite firstn_skipn, app_nil_r.
    split; [reflexivity|]. split.
    + apply after_read_fields. exact Hn.
    + apply hc_ok_after_read; assumption.
Qed.

(** X1.  On a half connection that is not released, whatever passes of
    [write] and [read] run in whatever order, the bytes handed to the
    readers followed by the bytes still pending are the bytes pending at the
    start followed by the bytes the writers count as written: nothing is
    lost, doubled or reordered, the compaction of the buffer and partial
    writes included. *)
Theorem passes_are_fifo : forall os c ins outs c',
  Forall hop_ok os ->
  is_nil (buf c) = false -> hc_ok c ->
  hops_run os c = (ins, outs, c') ->
  outs ++ pending c' = pending c ++ ins.
Proof.
  intros os. induction os as [|o os IH]; intros c ins outs c' Hos Hn Hok Hrun.
  - simpl in Hrun. inversion Hrun; subst. simpl. rewrite app_nil_r.
    reflexivity.
  - inversion Hos as [|? ? Ho Hos']; subst.
    simpl in Hrun.
    destruct (hop_run o c) as [[i u] c1] eqn:H1.
    destruct (hops_run os c1) as [[is' us] c2] eqn:H2.
    inversion Hrun; subst. clear Hrun.
    destruct (@hop_run_queue o c i u c1 Ho Hn Hok H1) as (Hq & Hn1 & Hok1).
    pose proof (IH c1 is' us c' Hos' Hn1 Hok1 H2) as Hrest.
    rewrite <- app_assoc, Hrest, app_assoc, Hq, <- app_assoc. reflexivity.
Qed.

Lemma passes_are_fifo_witness :
  let c := mk_halfConn [] "client"
             (Slice [Byte.x61; Byte.x62; Byte.x63; Byte.x64] 4) 2 false in
  let b := [Byte.x65; Byte.x66; Byte.x67] in
  let os := [Wr 1 0%Z "server" zero_netTimer b 0;
             Rd 2 0%Z "client" zero_netTimer [Byte.x00; Byte.x00; Byte.x00];
             Wr 1 0%Z "server" zero_netTimer b 2] in
  let c' := mk_halfConn [] "client"
              (Slice [Byte.x66; Byte.x67; Byte.x65; Byte.x66] 2) 0 false in
  hops_run os c = (b, [Byte.x63; Byte.x64; Byte.x65], c') /\
  [Byte.x63; Byte.x64; Byte.x65] ++ pending c' = pending c ++ b.
Proof.
  intros c b os c'.
  assert (Hrun : hops_run os c = (b, [Byte.x63; Byte.x64; Byte.x65], c'))
    by reflexivity.
  split; [exact Hrun|].
  apply (@passes_are_fifo os c b [Byte.x63; Byte.x64; Byte.x65] c').
  - repeat constructor.
  - reflexivity.
  - unfold hc_ok, hc_inv. simpl. repeat split; lia.
  - exact Hrun.
Defined.

(* ------------------------------------------------------------------ *)
(** *** The slice expressions stay in range *)

Lemma read_pass_no_panic : forall g clk a alarm b c,
  hc_wf c -> read_pass g clk a alarm b c <> Panics.
Proof.
  intros g clk a alarm b c Hwf. unfold read_pass.
  destruct (is_nil (buf c)) eqn:Hn; [discriminate|].
  destruct (netTimer_Timeout clk alarm) as [e al].
  destruct e; [discriminate|].
  destruct (length b =? 0); [discriminate|].
  destruct (0 <? len (buf c)); [|discriminate].
  pose proof (not_released_false Hn Hwf) as [[Ho _] _].
  rewrite (buf_from_off_ok c Ho).
  destruct (_ =? _); discriminate.
Qed.

Lemma write_pass_no_panic : forall g clk a alarm b n c,
  hc_wf c -> (released c -> eof c = true) ->
  write_pass g clk a alarm b n c <> Panics.
Proof.
  intros g clk a alarm b n c Hwf Hrel. unfold write_pass.
  destruct (eof c) eqn:He; [discriminate|].
  destruct (netTimer_Timeout clk alarm) as [e al].
  destruct e; [discriminate|].
  destruct (length b =? 0); [discriminate|].
  destruct (_ <? _)%Z; [|discriminate].
  assert (Hn : is_nil (buf c) = false).
  { destruct (is_nil (buf c)) eqn:Hn; [|reflexivity].
    specialize (Hrel Hn). congruence. }
  destruct (compact_pending Hn (not_released_false Hn Hwf))
    as (c1 & Hc & _).
  rewrite Hc. destruct (append c1 (skipn n b)) as [i c2].
  destruct (_ =? _); discriminate.
Qed.

Lemma read_loop_no_panic : forall g a p wakes clk alarm b h,
  pipe_wf h -> Forall wake_ok wakes ->
  read_loop g a p wakes clk alarm b h <> Panicked.
Proof.
  intros g a p wakes. induction wakes as [|[f clk1] ws IH];
    intros clk alarm b h Hwf Hok; simpl;
    pose proof (@read_pass_no_panic g clk a alarm b (get p h)
                  (proj1 (Hwf p))) as Hnp;
    pose proof (read_pass_keeps g clk a alarm b (get p h)) as Hk;
    destruct (read_pass g clk a alarm b (get p h))
      as [n0 e0 [b0 c0]|n0 al [b0 c0]|]; try discriminate;
    try contradiction.
  inversion Hok as [|? ? Hf Hws]; subst.
  apply IH; [|exact Hws].
  apply Hf. apply put_keeps_wf; assumption.
Qed.

Lemma write_loop_no_panic : forall g a p wakes clk alarm b n h,
  pipe_wf h -> Forall wake_ok wakes ->
  write_loop g a p wakes clk alarm b n h <> Panicked.
Proof.
  intros g a p wakes. induction wakes as [|[f clk1] ws IH];
    intros clk alarm b n h Hwf Hok; simpl;
    pose proof (@write_pass_no_panic g clk a alarm b n (get p h)
                  (proj1 (Hwf p))
                  (fun Hr => proj1 (proj2 (Hwf p) Hr))) as Hnp;
    pose proof (write_pass_keeps g clk a alarm b n (get p h)) as Hk;
    destruct (write_pass g clk a alarm b n (get p h))
      as [n0 e0 c0|n0 al c0|]; try discriminate;
    try contradiction.
  inversion Hok as [|? ? Hf Hws]; subst.
  apply IH; [|exact Hws].
  apply Hf. apply put_keeps_wf; assumption.
Qed.

(** X2.  On every heap a pair made by [NewConn] can get to, no call of
    [Read] or [Write] panics, however long it waits, as long as the other
    goroutines only run operations of the package meanwhile: [c.buf[c.off:]]
    is never out of range. *)
Theorem Read_Write_never_panic : forall g c b clk0 clk wakes h,
  reachable h -> Forall wake_ok wakes ->
  Conn_Read g c b clk0 clk wakes h <> Panicked /\
  Conn_Write g c b clk0 clk wakes h <> Panicked.
Proof.
  intros g c b clk0 clk wakes h Hr Hok.
  pose proof (reachable_wf Hr) as Hwf. split.
  - unfold Conn_Read, halfConn_read.
    pose proof (@read_loop_no_panic g (addr (get (r c) h)) (r c) wakes clk
                  (netTimer_Set clk0 zero_netTimer (rd c) (t c)) b h Hwf Hok)
      as Hnp.
    destruct (read_loop _ _ _ _ _ _ _ _) as [n0 e0 [b0 h0]|[b0 h0]|];
      try discriminate. contradiction.
  - unfold Conn_Write, halfConn_write. apply write_loop_no_panic; assumption.
Qed.

Lemma Read_Write_never_panic_witness :
  let cs := NewConn "client" "server" 2 in
  let cB := snd (fst cs) in
  let b := [Byte.x61; Byte.x62; Byte.x63] in
  let wakes := [(timer_fires SideA, 5%Z)] in
  Conn_Read 1 cB b 0%Z 0%Z wakes (snd cs) <> Panicked /\
  Conn_Write 1 cB b 0%Z 0%Z wakes (snd cs) <> Panicked.
Proof.
  intros cs cB b wakes.
  apply (@Read_Write_never_panic 1 cB b 0%Z 0%Z wakes (snd cs)).
  - apply reach_new.
  - constructor; [|constructor].
    apply step_wake_ok. intros h. exists OpTimer. apply step_timer.
Defined.

(* ------------------------------------------------------------------ *)
(** *** A write larger than the buffer *)

Lemma no_timer_Set : forall clk0 d tmo,
  d = 0%Z -> (tmo <= 0)%Z ->
  netTimer_Set clk0 zero_netTimer d tmo = zero_netTimer.
Proof.
  intros clk0 d tmo Hd Ht. unfold netTimer_Set. subst d.
  destruct (Z.ltb_spec 0 tmo); [lia|reflexivity].
Qed.

(** A pass of [write] with no timer on an empty buffer of capacity [K]:
    it takes the next [min(K, len(b) - n)] bytes and returns if they were
    the last, and waits if not. *)
Lemma write_pass_on_empty : forall g clk a b n c,
  open c -> pending c = [] -> 0 < cap (buf c) -> length b <> 0 ->
  let i := Nat.min (cap (buf c)) (length b - n) in
  exists c3,
    pending c3 = firstn i (skipn n b) /\ open c3 /\
    cap (buf c3) = cap (buf c) /\ waiters c3 = [] /\
    write_pass g clk a zero_netTimer b n c
    = if n + i =? length b then Returns (n + i) None c3
      else Waits (n + i) zero_netTimer (Wait g c3).
Proof.
  intros g clk a b n c (Hn & Hok & He) Hp Hcap Hb i.
  assert (Hlen : len (buf c) = 0) by (apply (hc_ok_pending_nil Hok); exact Hp).
  assert (Hoff : off c = 0) by (destruct Hok as [[Ho _] _]; lia).
  destruct (@append_pending c (skipn n b) Hn Hok)
    as (Hi & Hp2 & Hn2 & Hok2 & He2).
  assert (Hci : copy_n (cap (buf c) - len (buf c)) (skipn n b) = i).
  { unfold copy_n. rewrite Hlen, Nat.sub_0_r, length_skipn. reflexivity. }
  rewrite Hci in Hi, Hp2.
  rewrite Hp in Hp2. simpl in Hp2.
  assert (Hcap2 : cap (buf (snd (append c (skipn n b)))) = cap (buf c)).
  { unfold append. destruct (buf c) as [|arr k] eqn:Eb;
      [simpl in Hn; discriminate Hn|].
    simpl in *. apply copy_at_length; lia. }
  exists (Broadcast (snd (append c (skipn n b)))).
  split; [exact Hp2|].
  split; [unfold open, hc_ok, hc_inv in *; simpl; rewrite He2; auto|].
  split; [exact Hcap2|]. split; [reflexivity|].
  unfold write_pass. rewrite He. simpl.
  destruct (Nat.eqb_spec (length b) 0) as [|_]; [contradiction|].
  rewrite Hlen, Hoff.
  destruct (Z.ltb_spec (Z.of_nat 0 - Z.of_nat 0) (Z.of_nat (cap (buf c))));
    [|lia].
  unfold compact. rewrite Hlen.
  destruct (Nat.eqb_spec 0 (cap (buf c))); [lia|].
  destruct (append c (skipn n b)) as [i0 c2]. simpl in *. subst i0.
  reflexivity.
Qed.

(** A [Read] with no timer into at least as many bytes as are pending,
    some being pending, takes them all and leaves the buffer empty. *)
Lemma drain_empties : forall g c k clk h,
  no_read_timer c -> open (get (r c) h) ->
  pending (get (r c) h) <> [] -> length (pending (get (r c) h)) <= k ->
  open (get (r c) (drain g c k clk h)) /\
  pending (get (r c) (drain g c k clk h)) = [] /\
  cap (buf (get (r c) (drain g c k clk h))) = cap (buf (get (r c) h)).
Proof.
  intros g c k clk h [Hd Ht] (Hn & Hok & He) Hp Hk.
  unfold drain, Conn_Read, halfConn_read.
  rewrite no_timer_Set by assumption. simpl.
  assert (Hb : length (repeat Byte.x00 k) <> 0).
  { rewrite repeat_length. intros E. subst k.
    apply Hp. apply length_zero_iff_nil. lia. }
  rewrite read_pass_data by (auto; reflexivity).
  set (m := copy_n _ (pending (get (r c) h))).
  assert (Hcn : m = length (pending (get (r c) h))).
  { unfold m, copy_n. rewrite repeat_length. lia. }
  rewrite Hcn, He, andb_false_r. simpl. rewrite get_put_same.
  destruct (@after_read_fields (get (r c) h)
              (length (pending (get (r c) h))) Hn)
    as (_ & He' & _ & Hn' & Hc' & _).
  split; [|split].
  - unfold open. rewrite He', He.
    split; [exact Hn'|]. split; [|reflexivity].
    apply hc_ok_after_read; auto.
  - rewrite pending_after_read by auto. apply skipn_all.
  - exact Hc'.
Qed.

Lemma write_loop_drained : forall gw gr cw cr a b k clks n clk h,
  r cr = w cw -> no_read_timer cr ->
  open (get (w cw) h) -> pending (get (w cw) h) = [] ->
  0 < cap (buf (get (w cw) h)) -> cap (buf (get (w cw) h)) <= k ->
  length b <> 0 -> n <= length b ->
  let K := cap (buf (get (w cw) h)) in
  let wakes := map (fun c => (drain gr cr k c, c)) clks in
  (length b - n <= (length clks + 1) * K ->
   exists h' j,
     write_loop gw a (w cw) wakes clk zero_netTimer b n h
     = Done (length b) None h' /\
     j <= length clks /\ pending (get (w cw) h') = skipn (n + j * K) b) /\
  ((length clks + 1) * K < length b - n ->
   exists h',
     write_loop gw a (w cw) wakes clk zero_netTimer b n h = Blocked h').
Proof.
  intros gw gr cw cr a b k clks. induction clks as [|c1 clks IH];
    intros n clk h Hpeer Hrt Hopen Hp Hpos Hk Hb Hn K wakes;
    destruct (@write_pass_on_empty gw clk a b n (get (w cw) h)
                Hopen Hp Hpos Hb)
      as (c3 & Hp3 & Hopen3 & Hcap3 & _ & Hpass); fold K in Hpass, Hp3, Hcap3;
    subst wakes; simpl map; simpl write_loop; rewrite Hpass.
  - split; intros Hfit; simpl in Hfit.
    + assert (E : n + Nat.min K (length b - n) = length b) by lia.
      rewrite E, Nat.eqb_refl.
      exists (put (w cw) c3 h), 0. rewrite get_put_same.
      split; [reflexivity|]. split; [lia|].
      rewrite Hp3. simpl. rewrite Nat.add_0_r.
      apply firstn_all2. rewrite length_skipn. lia.
    + replace (n + Nat.min K (length b - n) =? length b) with false
        by (symmetry; apply Nat.eqb_neq; lia).
      eexists. reflexivity.
  - destruct (Nat.eqb_spec (n + Nat.min K (length b - n)) (length b))
      as [Hdone|Hmore].
    + split; intros Hfit; [|simpl in Hfit; lia].
      rewrite Hdone.
      exists (put (w cw) c3 h), 0. rewrite get_put_same.
      split; [reflexivity|]. split; [lia|].
      rewrite Hp3. simpl. rewrite Nat.add_0_r.
      apply firstn_all2. rewrite length_skipn. lia.
    + assert (Hmin : Nat.min K (length b - n) = K) by lia.
      rewrite Hmin in *.
      set (h1 := put (w cw) (Wait gw c3) h).
      assert (Hopen1 : open (get (r cr) h1)).
      { rewrite Hpeer. unfold h1. rewrite get_put_same.
        destruct Hopen3 as (A & B & C). unfold open. auto. }
      assert (Hpend1 : pending (get (r cr) h1) = firstn K (skipn n b)).
      { rewrite Hpeer. unfold h1. rewrite get_put_same. exact Hp3. }
      assert (Hlen1 : length (pending (get (r cr) h1)) = K).
      { rewrite Hpend1, length_firstn, length_skipn. lia. }
      destruct (@drain_empties gr cr k c1 h1 Hrt Hopen1)
        as (Hopen2 & Hp2 & Hcap2).
      { intros E. rewrite E in Hlen1. simpl in Hlen1. lia. }
      { lia. }
      rewrite Hpeer in Hopen2, Hp2, Hcap2.
      assert (HK : cap (buf (get (w cw) (drain gr cr k c1 h1))) = K).
      { rewrite Hcap2. unfold h1. rewrite get_put_same.
        destruct c3; exact Hcap3. }
      destruct (IH (n + K) c1 (drain gr cr k c1 h1) Hpeer Hrt Hopen2 Hp2)
        as [IH1 IH2]; try (rewrite HK; lia); try lia.
      rewrite HK in IH1, IH2.
      split; intros Hfit; simpl in Hfit.
      * destruct IH1 as (h' & j & Hrun & Hj & Hpj); [lia|].
        exists h', (Datatypes.S j). split; [exact Hrun|].
        split; [simpl; lia|].
        rewrite Hpj. f_equal. simpl. lia.
      * destruct IH2 as (h' & Hrun); [lia|].
        exists h'. exact Hrun.
Qed.

Lemma write_pass_nothing' : forall g clk a b n c,
  eof c = false -> length b = 0 ->
  write_pass g clk a zero_netTimer b n c = Returns n None c.
Proof.
  intros g clk a b n c He Hb. unfold write_pass. rewrite He. simpl.
  rewrite Hb. reflexivity.
Qed.

(** X3.  A [Write] with no timer on an open, empty half connection of
    capacity [K], while the peer, each time the writer waits, reads with no
    timer into at least [K] bytes: the write fills the buffer, waits to be
    drained, and goes on.  Given enough such reads (one less than the
    number of buffers the slice fills) it returns the full count and no
    error, its last bytes pending; given fewer it is still blocked. *)
Theorem big_write_waits_for_reader :
  forall gw gr cw cr b k clks clk0 clk h,
  r cr = w cw -> no_write_timer cw -> no_read_timer cr ->
  open (get (w cw) h) -> pending (get (w cw) h) = [] ->
  0 < cap (buf (get (w cw) h)) -> cap (buf (get (w cw) h)) <= k ->
  let K := cap (buf (get (w cw) h)) in
  let wakes := map (fun c => (drain gr cr k c, c)) clks in
  (length b <= (length clks + 1) * K ->
   exists h' j,
     Conn_Write gw cw b clk0 clk wakes h = Done (length b) None h' /\
     j <= length clks /\ pending (get (w cw) h') = skipn (j * K) b) /\
  ((length clks + 1) * K < length b ->
   exists h', Conn_Write gw cw b clk0 clk wakes h = Blocked h').
Proof.
  intros gw gr cw cr b k clks clk0 clk h Hpeer [Hd Ht] Hrt Hopen Hp Hpos Hk
         K wakes.
  unfold Conn_Write, halfConn_write. rewrite no_timer_Set by assumption.
  destruct (Nat.eq_dec (length b) 0) as [Hb|Hb].
  - split; intros Hfit; [|lia].
    exists h, 0. split; [|split; [lia|]].
    + destruct Hopen as (_ & _ & He).
      destruct wakes as [|[f c1] ws]; simpl;
        rewrite write_pass_nothing' by assumption;
        rewrite put_get_same, Hb; reflexivity.
    + apply length_zero_iff_nil in Hb. subst b. exact Hp.
  - destruct (@write_loop_drained gw gr cw cr (addr (get (r cw) h)) b k clks
                0 clk h Hpeer Hrt Hopen Hp Hpos Hk Hb ltac:(lia))
      as [H1 H2].
    fold K in H1, H2. fold wakes in H1, H2.
    split; intros Hfit.
    + destruct H1 as (h' & j & Hrun & Hj & Hpj); [lia|].
      exists h', j. auto.
    + apply H2. lia.
Qed.

Lemma big_write_waits_for_reader_witness :
  let cs := NewConn "client" "server" 2 in
  let cA := fst (fst cs) in
  let cB := snd (fst cs) in
  let b := [Byte.x61; Byte.x62; Byte.x63; Byte.x64; Byte.x65] in
  let wakes := map (fun c => (drain 2 cA 2 c, c)) [1%Z; 2%Z] in
  exists h' j,
    Conn_Write 1 cB b 0%Z 0%Z wakes (snd cs) = Done (length b) None h' /\
    j <= 2 /\ pending (get SideA h') = skipn (j * 2) b.
Proof.
  intros cs cA cB b wakes.
  assert (Hopen : open (get (w cB) (snd cs))).
  { unfold open, hc_ok, hc_inv. simpl.
    repeat split; first [reflexivity | lia]. }
  refine (proj1 (@big_write_waits_for_reader 1 2 cB cA b 2 [1%Z; 2%Z]
                   0%Z 0%Z (snd cs) eq_refl _ _ Hopen eq_refl _ _) _).
  - split; [reflexivity | simpl; lia].
  - split; [reflexivity | simpl; lia].
  - simpl. lia.
  - simpl. lia.
  - simpl. lia.
Defined.

(* ------------------------------------------------------------------ *)
(** *** [Clear] *)

Lemma read_loop_returns : forall g a p wakes clk alarm b h n err b1 c1,
  read_pass g clk a alarm b (get p h) = Returns n err (b1, c1) ->
  read_loop g a p wakes clk alarm b h = Done n err (b1, put p c1 h).
Proof.
  intros g a p wakes clk alarm b h n err b1 c1 Hp.
  destruct wakes as [|[f clk1] ws]; simpl; rewrite Hp; reflexivity.
Qed.

Lemma write_loop_returns : forall g a p wakes clk alarm b n h n1 err c1,
  write_pass g clk a alarm b n (get p h) = Returns n1 err c1 ->
  write_loop g a p wakes clk alarm b n h = Done n1 err (put p c1 h).
Proof.
  intros g a p wakes clk alarm b n h n1 err c1 Hp.
  destruct wakes as [|[f clk1] ws]; simpl; rewrite Hp; reflexivity.
Qed.

(** X4.  [Clear] on an endpoint of a well-formed pair drops what is
    pending in both directions and wakes every waiter, and neither closes
    nor reopens anything: the end-of-stream flags and the released buffers
    stay as they are.  The heap stays well formed, and a [Read] of either
    endpoint that returns in its first pass after it returns no byte. *)
Theorem Clear_drops_pending : forall c h,
  conn_wf c -> pipe_wf h ->
  pipe_wf (Conn_Clear c h) /\
  (forall p,
     pending (get p (Conn_Clear c h)) = [] /\
     waiters (get p (Conn_Clear c h)) = [] /\
     eof (get p (Conn_Clear c h)) = eof (get p h) /\
     is_nil (buf (get p (Conn_Clear c h))) = is_nil (buf (get p h))) /\
  (forall g c' b clk0 clk n err b' h',
     Conn_Read g c' b clk0 clk [] (Conn_Clear c h) = Done n err (b', h') ->
     n = 0 /\ b' = b).
Proof.
  intros c h Hc Hwf.
  assert (Hget : forall p,
    len (buf (get p (Conn_Clear c h))) = 0 /\
    pending (get p (Conn_Clear c h)) = [] /\
    waiters (get p (Conn_Clear c h)) = [] /\
    eof (get p (Conn_Clear c h)) = eof (get p h) /\
    is_nil (buf (get p (Conn_Clear c h))) = is_nil (buf (get p h))).
  { intros p. rewrite Conn_Clear_get by exact Hc.
    unfold pending. simpl.
    destruct (buf (get p h)); simpl; auto. }
  split; [exact (step_keeps_wf (step_Clear h Hc) Hwf)|].
  split; [intros p; apply Hget|].
  intros g c' b clk0 clk n err b' h' Hread.
  unfold Conn_Read, halfConn_read in Hread. simpl in Hread.
  destruct (Hget (r c')) as (Hlen & _).
  unfold read_pass in Hread. rewrite Hlen in Hread. simpl in Hread.
  destruct (is_nil (buf (get (r c') (Conn_Clear c h)))).
  - inversion Hread. auto.
  - destruct (netTimer_Timeout clk _) as [e al].
    destruct e; [inversion Hread; auto|].
    destruct (length b =? 0); [inversion Hread; auto|discriminate].
Qed.

Lemma Clear_drops_pending_witness :
  let c := mk_Conn SideA SideB 0%Z 0%Z 0%Z in
  let h := mk_Pipe
             (mk_halfConn [3] "client"
                (Slice [Byte.x61; Byte.x62; Byte.x00; Byte.x00] 2) 1 true)
             (mk_halfConn [4] "server" nil_slice 0 true) in
  pipe_wf (Conn_Clear c h) /\
  (forall p,
     pending (get p (Conn_Clear c h)) = [] /\
     waiters (get p (Conn_Clear c h)) = [] /\
     eof (get p (Conn_Clear c h)) = eof (get p h) /\
     is_nil (buf (get p (Conn_Clear c h))) = is_nil (buf (get p h))) /\
  (forall g c' b clk0 clk n err b' h',
     Conn_Read g c' b clk0 clk [] (Conn_Clear c h) = Done n err (b', h') ->
     n = 0 /\ b' = b).
Proof.
  intros c h. apply (@Clear_drops_pending c h).
  - reflexivity.
  - intros q. unfold hc_wf, released, hc_ok, hc_inv.
    destruct q; simpl; split; auto. right. repeat split; lia.
Defined.

(* ------------------------------------------------------------------ *)
(** *** After [Close] *)

(** X5.  Once an endpoint of a well-formed pair has closed, its [Read] and
    its [Write] and the [Write] of its peer return [io.EOF] in their first
    pass, with no byte moved and the heap unchanged, whatever the slice,
    the deadlines and the clock. *)
Theorem closed_endpoint_fails_at_once : forall c h g b clk0 clk wakes,
  conn_wf c -> pipe_wf h ->
  let h' := Conn_close c h in
  Conn_Read g c b clk0 clk wakes h' = Done 0 (Some io_EOF) (b, h') /\
  Conn_Write g c b clk0 clk wakes h' = Done 0 (Some io_EOF) h' /\
  (forall c', w c' = r c ->
              Conn_Write g c' b clk0 clk wakes h' = Done 0 (Some io_EOF) h').
Proof.
  intros c h g b clk0 clk wakes Hc Hwf h'.
  assert (Hrel : is_nil (buf (get (r c) h')) = true).
  { unfold h', Conn_close.
    destruct (is_nil (buf (get (r c) h))) eqn:Hn; simpl; [exact Hn|].
    destruct c as [rs ws rd0 wd0 t0]. unfold conn_wf in Hc. simpl in *.
    subst ws. destruct rs; reflexivity. }
  assert (Hwf' : pipe_wf h')
    by exact (step_keeps_wf (step_close h Hc) Hwf).
  destruct (proj2 (Hwf' (r c)) Hrel) as [Er Ew]. rewrite <- Hc in Ew.
  split; [|split].
  - unfold Conn_Read, halfConn_read.
    rewrite (@read_loop_returns _ _ _ _ _ _ _ _ 0 (Some io_EOF) b
               (get (r c) h')).
    + rewrite put_get_same. simpl.
      rewrite Conn_close_released by exact Hrel. reflexivity.
    + unfold read_pass. rewrite Hrel. reflexivity.
  - unfold Conn_Write. apply write_on_closed. exact Ew.
  - intros c' Hpeer. unfold Conn_Write. apply write_on_closed.
    rewrite Hpeer. exact Er.
Qed.

Lemma closed_endpoint_fails_at_once_witness :
  let cs := NewConn "client" "server" 4 in
  let cA := SetDeadline (fst (fst cs)) 5%Z in
  let cB := snd (fst cs) in
  let h' := Conn_close cA (snd cs) in
  let b := [Byte.x61] in
  let wakes := [(timer_fires SideA, 9%Z)] in
  Conn_Read 1 cA b 1%Z 2%Z wakes h' = Done 0 (Some io_EOF) (b, h') /\
  Conn_Write 1 cA b 1%Z 2%Z wakes h' = Done 0 (Some io_EOF) h' /\
  Conn_Write 1 cB b 1%Z 2%Z wakes h' = Done 0 (Some io_EOF) h'.
Proof.
  intros cs cA cB h' b wakes.
  destruct (@closed_endpoint_fails_at_once cA (snd cs) 1 b 1%Z 2%Z wakes
              eq_refl (NewConn_wf "client" "server" 4))
    as (H1 & H2 & H3).
  split; [exact H1|]. split; [exact H2|].
  apply (H3 cB). reflexivity.
Defined.

(* ------------------------------------------------------------------ *)
(** *** What the peer can still read after a [Close] *)

(** After [close] on the endpoint [cw], the half connection it writes to
    has its buffer and offset as before and its flag set. *)
Lemma close_on_write_side : forall cw h,
  conn_wf cw -> pipe_wf h ->
  buf (get (w cw) (Conn_close cw h)) = buf (get (w cw) h) /\
  off (get (w cw) (Conn_close cw h)) = off (get (w cw) h) /\
  eof (get (w cw) (Conn_close cw h)) = true.
Proof.
  intros cw h Hc Hwf.
  destruct (is_nil (buf (get (r cw) h))) eqn:Hn.
  - rewrite Conn_close_released by exact Hn.
    destruct (proj2 (Hwf (r cw)) Hn) as [_ Ew]. rewrite <- Hc in Ew. auto.
  - destruct (Conn_close_get h Hc Hn) as [_ Hw]. rewrite Hw. auto.
Qed.

(** X6.  [Close] does not take away what is in flight to the peer: when
    bytes [d] are pending for the endpoint [cr] and its peer closes, a
    [Read] of [cr] whose timer has not expired returns the first
    [min(len(b), len(d))] of them; it returns [io.EOF] with them, and
    releases the buffer, exactly when they are all of [d]. *)
Theorem pending_survives_peer_Close :
  forall g cw cr b clk0 clk wakes h,
  conn_wf cw -> conn_wf cr -> r cr = w cw -> pipe_wf h ->
  is_nil (buf (get (r cr) h)) = false ->
  pending (get (r cr) h) <> [] -> length b <> 0 ->
  expired (rd cr) (t cr) clk0 clk = false ->
  let d := pending (get (r cr) h) in
  let n := Nat.min (length b) (length d) in
  exists b' h2,
    Conn_Read g cr b clk0 clk wakes (Conn_close cw h)
    = Done n (if length d <=? length b then Some io_EOF else None) (b', h2) /\
    firstn n b' = firstn n d /\
    (length d <= length b -> released (get (r cr) h2)) /\
    (length b < length d -> pending (get (r cr) h2) = skipn n d).
Proof.
  intros g cw cr b clk0 clk wakes h Hcw Hcr Hpeer Hwf Hn Hd Hb Hexp d n.
  destruct (close_on_write_side Hcw Hwf) as (Hbuf & Hoff & Heof).
  rewrite <- Hpeer in Hbuf, Hoff, Heof.
  set (h1 := Conn_close cw h) in *.
  set (c1 := get (r cr) h1) in *.
  assert (Hpend : pending c1 = d).
  { unfold pending. rewrite Hbuf, Hoff. reflexivity. }
  assert (Hn1 : is_nil (buf c1) = false) by (rewrite Hbuf; exact Hn).
  assert (Hok1 : hc_ok c1).
  { pose proof (not_released_false Hn (proj1 (Hwf (r cr)))) as Hok.
    unfold hc_ok, hc_inv in *. rewrite Hbuf, Hoff. exact Hok. }
  assert (Hpass := @read_pass_data g clk (addr c1)
                     (netTimer_Set clk0 zero_netTimer (rd cr) (t cr)) b c1
                     Hn1 Hok1 Hexp Hb ltac:(rewrite Hpend; exact Hd)).
  simpl in Hpass. rewrite Hpend, Heof, andb_true_r in Hpass.
  fold n in Hpass. unfold copy_n in Hpass. fold n in Hpass.
  unfold Conn_Read, halfConn_read. fold c1.
  rewrite (@read_loop_returns g _ (r cr) wakes clk _ b h1 _ _ _ _ Hpass).
  assert (Hcond : (n =? length d) = (length d <=? length b)).
  { destruct (Nat.eqb_spec n (length d)), (Nat.leb_spec (length d) (length b));
      try reflexivity; unfold n in *; lia. }
  rewrite Hcond.
  eexists. eexists. split; [reflexivity|].
  split.
  { pose proof (copy_prefix b d) as Hcp. unfold copy_n in Hcp.
    fold n in Hcp. exact Hcp. }
  assert (Hle : n <= length (pending c1)) by (rewrite Hpend; unfold n; lia).
  destruct (Nat.leb_spec (length d) (length b)) as [Hall|Hpart]; simpl.
  - split; [|lia]. intros _.
    assert (Hn2 : is_nil (buf (get (r cr)
                     (put (r cr) (after_read c1 n) h1))) = false).
    { rewrite get_put_same. apply after_read_fields. exact Hn1. }
    destruct (Conn_close_get _ Hcr Hn2) as [Hr _].
    unfold released. rewrite Hr. reflexivity.
  - split; [lia|]. intros _. rewrite get_put_same.
    rewrite pending_after_read by assumption. rewrite Hpend. reflexivity.
Qed.

Lemma pending_survives_peer_Close_witness :
  let cA := mk_Conn SideA SideB 0%Z 0%Z 0%Z in
  let cB := mk_Conn SideB SideA 0%Z 0%Z 0%Z in
  let h := mk_Pipe
             (mk_halfConn [] "client"
                (Slice [Byte.x61; Byte.x62; Byte.x63; Byte.x00] 3) 1 false)
             (mk_halfConn [] "server"
                (Slice [Byte.x00; Byte.x00; Byte.x00; Byte.x00] 0) 0 false) in
  let b := [Byte.x00; Byte.x00; Byte.x00] in
  exists b' h2,
    Conn_Read 1 cA b 0%Z 0%Z [] (Conn_close cB h)
    = Done 2 (Some io_EOF) (b', h2) /\
    firstn 2 b' = [Byte.x62; Byte.x63] /\
    (2 <= 3 -> released (get SideA h2)) /\
    (3 < 2 -> pending (get SideA h2) = []).
Proof.
  intros cA cB h b.
  apply (@pending_survives_peer_Close 1 cB cA b 0%Z 0%Z [] h);
    try reflexivity; try discriminate.
  intros q. unfold hc_wf, released, hc_ok, hc_inv.
  destruct q; simpl; split; try discriminate; right; repeat split; lia.
Defined.

(* ------------------------------------------------------------------ *)
(** *** A read of an empty buffer *)

Lemma read_loop_on_empty : forall g a p wakes clk alarm b h,
  is_nil (buf (get p h)) = false -> len (buf (get p h)) = 0 ->
  length b <> 0 ->
  Forall (fun x => quiet p (fst x)) wakes ->
  (exists h', read_loop g a p wakes clk alarm b h = Blocked (b, h')) \/
  (exists h', read_loop g a p wakes clk alarm b h
              = Done 0 (Some (read_timeout a)) (b, h')).
Proof.
  intros g a p wakes. induction wakes as [|[f clk1] ws IH];
    intros clk alarm b h Hn Hlen Hb Hq.
  - simpl. unfold read_pass. rewrite Hn, Hlen.
    destruct (netTimer_Timeout clk alarm) as [e al].
    destruct e; [right; eexists; reflexivity|].
    destruct (Nat.eqb_spec (length b) 0); [contradiction|].
    simpl. left. eexists. reflexivity.
  - inversion Hq as [|? ? Hf Hws]; subst. simpl in Hf.
    simpl. unfold read_pass. rewrite Hn, Hlen.
    destruct (netTimer_Timeout clk alarm) as [e al].
    destruct e; [right; eexists; reflexivity|].
    destruct (Nat.eqb_spec (length b) 0); [contradiction|].
    simpl. apply IH; auto.
    + rewrite (proj1 (Hf _)), get_put_same. exact Hn.
    + rewrite (proj1 (Hf _)), get_put_same. exact Hlen.
Qed.

(** X7.  A [Read] into a non-empty slice on an endpoint whose buffer is
    allocated and empty never returns [io.EOF] and never returns bytes as
    long as nothing is written to that buffer and the endpoint itself does
    not close -- whether or not the peer has closed meanwhile: it is
    either still waiting or it has returned the timeout error with no byte.
    The [close] of the peer is such a quiet event: it sets the flag and
    leaves the buffer of this endpoint alone. *)
Theorem read_of_empty_buffer_never_EOF :
  forall g c b clk0 clk wakes h,
  is_nil (buf (get (r c) h)) = false -> len (buf (get (r c) h)) = 0 ->
  length b <> 0 ->
  Forall (fun x => quiet (r c) (fst x)) wakes ->
  ((exists h', Conn_Read g c b clk0 clk wakes h = Blocked (b, h')) \/
   (exists h', Conn_Read g c b clk0 clk wakes h
               = Done 0 (Some (read_timeout (addr (get (r c) h)))) (b, h')))
  /\
  (forall cw, conn_wf cw -> w cw = r c -> quiet (r c) (Conn_close cw)).
Proof.
  intros g c b clk0 clk wakes h Hn Hlen Hb Hq. split.
  - unfold Conn_Read, halfConn_read.
    destruct (@read_loop_on_empty g (addr (get (r c) h)) (r c) wakes clk
                (netTimer_Set clk0 zero_netTimer (rd c) (t c)) b h
                Hn Hlen Hb Hq) as [[h' Hr] | [h' Hr]]; rewrite Hr.
    + left. eexists. reflexivity.
    + right. eexists. reflexivity.
  - intros cw Hcw Hpeer h0. rewrite <- Hpeer.
    destruct (is_nil (buf (get (r cw) h0))) eqn:Hn0.
    + rewrite Conn_close_released by exact Hn0. auto.
    + destruct (Conn_close_get h0 Hcw Hn0) as [_ Hw]. rewrite Hw. auto.
Qed.

Lemma read_of_empty_buffer_never_EOF_witness :
  let cs := NewConn "client" "server" 4 in
  let cA := SetTimeout (fst (fst cs)) 10%Z in
  let cB := snd (fst cs) in
  let b := [Byte.x00] in
  let wakes := [(Conn_close cB, 5%Z); (timer_fires SideA, 10%Z)] in
  (exists h', Conn_Read 1 cA b 0%Z 0%Z wakes (snd cs) = Blocked (b, h')) \/
  (exists h', Conn_Read 1 cA b 0%Z 0%Z wakes (snd cs)
              = Done 0 (Some (read_timeout "client")) (b, h')).
Proof.
  intros cs cA cB b wakes.
  refine (proj1 (@read_of_empty_buffer_never_EOF 1 cA b 0%Z 0%Z wakes
                   (snd cs) eq_refl eq_refl _ _)).
  - discriminate.
  - constructor; [|constructor; [|constructor]]; simpl.
    + intros h0. unfold Conn_close, upd. simpl.
      destruct (is_nil _); simpl; auto.
    + intros h0. auto.
Defined.

(* ------------------------------------------------------------------ *)
(** *** A deadline that passes while the caller waits *)

Lemma end_after_wait : forall clk al,
  end_ (snd (netTimer_Schedule (snd (netTimer_Timeout clk al)))) = end_ al.
Proof.
  intros clk al. unfold netTimer_Timeout, netTimer_Schedule.
  destruct (IsZero (end_ al)) eqn:E; simpl; rewrite E; simpl;
    [reflexivity|].
  destruct (Timer al); reflexivity.
Qed.

Lemma Timeout_before : forall clk al,
  end_ al <> 0%Z -> (clk < end_ al)%Z ->
  fst (netTimer_Timeout clk al) = false.
Proof.
  intros clk al Hne Hlt. rewrite Timeout_spec.
  destruct (Z.leb_spec (end_ al) clk); [lia|]. apply andb_false_r.
Qed.

Lemma Timeout_after : forall clk al,
  end_ al <> 0%Z -> (end_ al <= clk)%Z ->
  fst (netTimer_Timeout clk al) = true.
Proof.
  intros clk al Hne Hle. rewrite Timeout_spec.
  destruct (Z.eqb_spec (end_ al) 0); [contradiction|].
  destruct (Z.leb_spec (end_ al) clk); [reflexivity|lia].
Qed.

(** X8.  A [read] that waits on an empty buffer and is woken when its
    expiry has passed returns the timeout error and no byte, whatever has
    been written to the buffer meanwhile (the timer is looked at before the
    data), provided the buffer has not been released. *)
Theorem read_woken_after_deadline :
  forall g p b d tmo a clk0 clk f clk1 ws h,
  let alarm := netTimer_Set clk0 zero_netTimer d tmo in
  let h1 := put p (Wait g (get p h)) h in
  end_ alarm <> 0%Z -> (clk < end_ alarm)%Z -> (end_ alarm <= clk1)%Z ->
  is_nil (buf (get p h)) = false -> len (buf (get p h)) = 0 ->
  length b <> 0 ->
  is_nil (buf (get p (f h1))) = false ->
  halfConn_read g p b d tmo a clk0 clk ((f, clk1) :: ws) h
  = Done 0 (Some (read_timeout a)) (b, f h1).
Proof.
  intros g p b d tmo a clk0 clk f clk1 ws h alarm h1 Hne Hlt Hle Hn Hlen Hb Hn1.
  unfold halfConn_read. fold alarm. simpl.
  pose proof (@Timeout_before clk alarm Hne Hlt) as Hnot.
  unfold read_pass at 1. rewrite Hn, Hlen.
  destruct (netTimer_Timeout clk alarm) as [e al] eqn:Ht. simpl in Hnot.
  subst e.
  destruct (Nat.eqb_spec (length b) 0); [contradiction|]. simpl.
  fold h1.
  assert (Hend : end_ (snd (netTimer_Schedule al)) = end_ alarm).
  { pose proof (end_after_wait clk alarm) as H. rewrite Ht in H. exact H. }
  assert (Hyes : fst (netTimer_Timeout clk1 (snd (netTimer_Schedule al)))
                 = true)
    by (apply Timeout_after; rewrite Hend; assumption).
  rewrite (@read_loop_returns g a p ws clk1 _ b (f h1) 0
             (Some (read_timeout a)) b (get p (f h1))).
  - rewrite put_get_same. reflexivity.
  - unfold read_pass. rewrite Hn1.
    destruct (netTimer_Timeout clk1 _) as [e2 al2]. simpl in Hyes. subst e2.
    reflexivity.
Qed.

Lemma read_woken_after_deadline_witness :
  let cs := NewConn "client" "server" 4 in
  let cB := snd (fst cs) in
  let b := [Byte.x00] in
  let f := fun h => match Conn_Write 2 cB [Byte.x61] 0%Z 0%Z [] h with
                    | Done _ _ h' => h'
                    | _ => h
                    end in
  let h1 := put SideA (Wait 1 (get SideA (snd cs))) (snd cs) in
  pending (get SideA (f h1)) = [Byte.x61] /\
  halfConn_read 1 SideA b 0%Z 10%Z "client" 0%Z 5%Z [(f, 10%Z)] (snd cs)
  = Done 0 (Some (read_timeout "client")) (b, f h1).
Proof.
  intros cs cB b f h1. split; [reflexivity|].
  apply (@read_woken_after_deadline 1 SideA b 0%Z 10%Z "client"%string
           0%Z 5%Z f 10%Z [] (snd cs)); first [reflexivity | discriminate].
Defined.

(** A pass of [write] whose timer has not expired, on an empty buffer of
    capacity [K]. *)
Lemma write_pass_on_empty_timed : forall g clk a alarm b n c,
  open c -> pending c = [] -> 0 < cap (buf c) -> length b <> 0 ->
  fst (netTimer_Timeout clk alarm) = false ->
  let i := Nat.min (cap (buf c)) (length b - n) in
  exists c3,
    pending c3 = firstn i (skipn n b) /\ open c3 /\
    cap (buf c3) = cap (buf c) /\ waiters c3 = [] /\
    write_pass g clk a alarm b n c
    = if n + i =? length b then Returns (n + i) None c3
      else Waits (n + i)
                 (snd (netTimer_Schedule (snd (netTimer_Timeout clk alarm))))
                 (Wait g c3).
Proof.
  intros g clk a alarm b n c (Hn & Hok & He) Hp Hcap Hb Hexp i.
  assert (Hlen : len (buf c) = 0) by (apply (hc_ok_pending_nil Hok); exact Hp).
  assert (Hoff : off c = 0) by (destruct Hok as [[Ho _] _]; lia).
  destruct (@append_pending c (skipn n b) Hn Hok)
    as (Hi & Hp2 & Hn2 & Hok2 & He2).
  assert (Hci : copy_n (cap (buf c) - len (buf c)) (skipn n b) = i).
  { unfold copy_n. rewrite Hlen, Nat.sub_0_r, length_skipn. reflexivity. }
  rewrite Hci in Hi, Hp2.
  rewrite Hp in Hp2. simpl in Hp2.
  assert (Hcap2 : cap (buf (snd (append c (skipn n b)))) = cap (buf c)).
  { unfold append. destruct (buf c) as [|arr k] eqn:Eb;
      [simpl in Hn; discriminate Hn|].
    simpl in *. apply copy_at_length; lia. }
  exists (Broadcast (snd (append c (skipn n b)))).
  split; [exact Hp2|].
  split; [unfold open, hc_ok, hc_inv in *; simpl; rewrite He2; auto|].
  split; [exact Hcap2|]. split; [reflexivity|].
  unfold write_pass. rewrite He.
  destruct (netTimer_Timeout clk alarm) as [e al]. simpl in Hexp. subst e.
  destruct (Nat.eqb_spec (length b) 0) as [|_]; [contradiction|].
  rewrite Hlen, Hoff.
  destruct (Z.ltb_spec (Z.of_nat 0 - Z.of_nat 0) (Z.of_nat (cap (buf c))));
    [|lia].
  unfold compact. rewrite Hlen.
  destruct (Nat.eqb_spec 0 (cap (buf c))); [lia|].
  destruct (append c (skipn n b)) as [i0 c2]. simpl in *. subst i0.
  reflexivity.
Qed.

(** X9.  A [write] of more bytes than the empty buffer holds puts the
    first [K = cap(buf)] of them in the buffer and waits; woken when its
    expiry has passed, it returns the timeout error together with the count
    [K] of the bytes it has handed over, provided what happened meanwhile
    has left the end-of-stream flag as it was. *)
Theorem write_woken_after_deadline :
  forall g p b d tmo a clk0 clk f clk1 ws h,
  let alarm := netTimer_Set clk0 zero_netTimer d tmo in
  let K := cap (buf (get p h)) in
  end_ alarm <> 0%Z -> (clk < end_ alarm)%Z -> (end_ alarm <= clk1)%Z ->
  open (get p h) -> pending (get p h) = [] -> 0 < K -> K < length b ->
  (forall h', eof (get p (f h')) = eof (get p h')) ->
  exists c3,
    pending c3 = firstn K b /\
    halfConn_write g p b d tmo a clk0 clk ((f, clk1) :: ws) h
    = Done K (Some (write_timeout a)) (f (put p (Wait g c3) h)).
Proof.
  intros g p b d tmo a clk0 clk f clk1 ws h alarm K Hne Hlt Hle Hopen Hp HK
         Hbig Hf.
  pose proof (@Timeout_before clk alarm Hne Hlt) as Hnot.
  destruct (@write_pass_on_empty_timed g clk a alarm b 0 (get p h)
              Hopen Hp HK ltac:(lia) Hnot)
    as (c3 & Hp3 & (_ & _ & He3) & _ & _ & Hpass).
  fold K in Hp3, Hpass.
  replace (Nat.min K (length b - 0)) with K in * by lia.
  simpl in Hpass, Hp3.
  destruct (Nat.eqb_spec K (length b)); [lia|].
  exists c3. split; [exact Hp3|].
  unfold halfConn_write. fold alarm. simpl. rewrite Hpass.
  set (al2 := snd (netTimer_Schedule (snd (netTimer_Timeout clk alarm)))).
  assert (Hyes : fst (netTimer_Timeout clk1 al2) = true).
  { apply Timeout_after; unfold al2; rewrite end_after_wait; assumption. }
  set (h2 := f (put p (Wait g c3) h)).
  rewrite (@write_loop_returns g a p ws clk1 al2 b K h2 K
             (Some (write_timeout a)) (get p h2)).
  - rewrite put_get_same. reflexivity.
  - unfold write_pass. unfold h2. rewrite Hf, get_put_same. simpl.
    rewrite He3.
    destruct (netTimer_Timeout clk1 al2) as [e2 al3]. simpl in Hyes.
    subst e2. reflexivity.
Qed.

Lemma write_woken_after_deadline_witness :
  let cs := NewConn "client" "server" 2 in
  let b := [Byte.x61; Byte.x62; Byte.x63] in
  exists c3,
    pending c3 = [Byte.x61; Byte.x62] /\
    halfConn_write 1 SideA b 0%Z 10%Z "server" 0%Z 5%Z
                   [(timer_fires SideA, 10%Z)] (snd cs)
    = Done 2 (Some (write_timeout "server"))
           (timer_fires SideA (put SideA (Wait 1 c3) (snd cs))).
Proof.
  intros cs b.
  apply (@write_woken_after_deadline 1 SideA b 0%Z 10%Z "server"%string
           0%Z 5%Z (timer_fires SideA) 10%Z [] (snd cs));
    try reflexivity; try discriminate; try (simpl; lia).
  unfold open, hc_ok, hc_inv. simpl.
  repeat split; first [reflexivity | lia].
Defined.

(* ------------------------------------------------------------------ *)
(** *** [Schedule] *)

(** X10.  [Schedule], called as the loops call it, right after [Timeout]
    has reported false at the clock [clk]: a timer with no expiry is left
    alone and nothing is armed; a timer with an expiry is armed for the
    time left, [end - clk], which is positive; the caller is told to defer
    [Stop] only by the call that makes the timer, never by a later one;
    and the expiry is never changed. *)
Theorem Schedule_arms_time_left : forall clk al,
  fst (netTimer_Timeout clk al) = false ->
  let al1 := snd (netTimer_Timeout clk al) in
  (end_ al = 0%Z -> netTimer_Schedule al1 = (false, al)) /\
  (end_ al <> 0%Z ->
   Timer (snd (netTimer_Schedule al1)) = Some (end_ al - clk)%Z /\
   (0 < end_ al - clk)%Z /\
   fst (netTimer_Schedule al1)
   = match Timer al with None => true | Some _ => false end) /\
  fst (netTimer_Schedule (snd (netTimer_Schedule al1))) = false /\
  end_ (snd (netTimer_Schedule al1)) = end_ al.
Proof.
  intros clk [tm nw en] Hexp al1. subst al1.
  rewrite Timeout_spec in Hexp. simpl in Hexp.
  unfold netTimer_Timeout, netTimer_Schedule, IsZero. simpl.
  destruct (Z.eqb_spec en 0) as [Hz|Hnz]; simpl.
  - rewrite (proj2 (Z.eqb_eq en 0) Hz). simpl.
    rewrite (proj2 (Z.eqb_eq en 0) Hz). simpl.
    split; [reflexivity|]. split; [intros; contradiction|]. auto.
  - rewrite (proj2 (Z.eqb_neq en 0) Hnz). simpl.
    destruct (Z.leb_spec en clk) as [|Hlt]; [discriminate|].
    split; [intros; contradiction|].
    destruct tm; simpl; rewrite (proj2 (Z.eqb_neq en 0) Hnz); simpl;
      (split; [intros _; split; [reflexivity|split; [lia|reflexivity]]|]);
      auto.
Qed.

Lemma Schedule_arms_time_left_witness :
  let al := netTimer_Set 100%Z zero_netTimer 0%Z 50%Z in
  let al1 := snd (netTimer_Timeout 120%Z al) in
  Timer (snd (netTimer_Schedule al1)) = Some (end_ al - 120)%Z /\
  (0 < end_ al - 120)%Z /\
  fst (netTimer_Schedule al1)
  = match Timer al with None => true | Some _ => false end.
Proof.
  intros al al1.
  apply (proj1 (proj2 (@Schedule_arms_time_left 120%Z al eq_refl))).
  discriminate.
Defined.

(* ------------------------------------------------------------------ *)
(** *** Addresses and capacity *)

Lemma step_keeps_addr_cap : forall o h h',
  step o h h' -> (forall p, hc_inv_open (get p h)) ->
  forall p,
    addr (get p h') = addr (get p h) /\
    (is_nil (buf (get p h')) = false ->
     is_nil (buf (get p h)) = false /\
     cap (buf (get p h')) = cap (buf (get p h))).
Proof.
  intros o h h' Hs Hinv. destruct Hs; intros q.
  - rewrite get_put. destruct (side_eqb p q) eqn:E; [|auto].
    apply side_eqb_true in E. subst q.
    destruct (read_pass_shape g clk a alarm b (get p h))
      as (_ & Ha & [[Hb _] | (_ & Hn & _ & Hc & _)]).
    + rewrite Ha, Hb. auto.
    + rewrite Ha, Hc. auto.
  - rewrite get_put. destruct (side_eqb p q) eqn:E; [|auto].
    apply side_eqb_true in E. subst q.
    destruct (write_pass_shape g clk a alarm b n (get p h))
      as (_ & Ha & [[Hb _] | (Hn & Hc & _)]).
    + rewrite Ha, Hb. auto.
    + rewrite Ha, Hn, (Hc (proj1 (Hinv p))). auto.
  - rewrite Conn_Clear_get by assumption. simpl.
    destruct (buf (get q h)); simpl; auto.
  - destruct (is_nil (buf (get (r c) h))) eqn:Hn.
    + rewrite Conn_close_released by assumption. auto.
    + destruct (Conn_close_get h H Hn) as [Hr Hw].
      destruct (side_cases q H) as [-> | ->].
      * rewrite Hr. simpl. split; [reflexivity|discriminate].
      * rewrite Hw. simpl. auto.
  - unfold timer_fires, upd. rewrite get_put.
    destruct (side_eqb p q) eqn:E; [|auto].
    apply side_eqb_true in E. subst q. simpl. auto.
Qed.

Lemma reaches_keeps_addr_cap : forall h0 h,
  reaches h0 h -> (forall p, hc_inv_open (get p h0)) ->
  (forall p, hc_inv_open (get p h)) /\
  forall p,
    addr (get p h) = addr (get p h0) /\
    (is_nil (buf (get p h)) = false ->
     is_nil (buf (get p h0)) = false /\
     cap (buf (get p h)) = cap (buf (get p h0))).
Proof.
  intros h0 h Hr Hinv. induction Hr as [h|o h h1 h2 Hr IH Hs].
  - auto.
  - destruct (IH Hinv) as [Hinv1 Hkeep].
    split; [exact (step_keeps_inv_open Hs Hinv1)|].
    intros p. destruct (step_keeps_addr_cap Hs Hinv1 p) as [Ha Hc].
    destruct (Hkeep p) as [Ha1 Hc1].
    split; [congruence|].
    intros Hn. destruct (Hc Hn) as [Hn1 Hcap].
    destruct (Hc1 Hn1) as [Hn0 Hcap0]. split; [exact Hn0|congruence].
Qed.

(** X11.  On every heap that steps of the operations reach from the one
    [NewConn] makes, the local address of each endpoint is the remote
    address of the other, as given to [NewConn]; and every buffer that is
    not released still has the capacity [NewConn] gave it, the requested
    size or 4096 when that is not positive, and holds no more than it. *)
Theorem NewConn_addresses_and_capacity : forall addrA addrB bufSize h,
  let cs := NewConn addrA addrB bufSize in
  let cA := fst (fst cs) in
  let cB := snd (fst cs) in
  reaches (snd cs) h ->
  LocalAddr cA h = addrA /\ RemoteAddr cA h = addrB /\
  LocalAddr cB h = addrB /\ RemoteAddr cB h = addrA /\
  forall p,
    is_nil (buf (get p h)) = false ->
    cap (buf (get p h))
    = Z.to_nat (if (bufSize <=? 0)%Z then 4096%Z else bufSize) /\
    len (buf (get p h)) <= cap (buf (get p h)).
Proof.
  intros addrA addrB bufSize h cs cA cB Hr.
  assert (Hinv0 : forall p, hc_inv_open (get p (snd cs))).
  { intros p. unfold hc_inv_open. destruct p; simpl; split; intros; lia. }
  destruct (reaches_keeps_addr_cap Hr Hinv0) as [Hinv Hkeep].
  unfold LocalAddr, RemoteAddr. simpl.
  destruct (Hkeep SideA) as [HaA HcA]. destruct (Hkeep SideB) as [HaB HcB].
  simpl in HaA, HaB.
  repeat split; auto.
  - destruct p; [destruct (HcA H) as [_ Hc] | destruct (HcB H) as [_ Hc]];
      rewrite Hc; simpl; apply repeat_length.
  - apply (Hinv p).
Qed.

Lemma NewConn_addresses_and_capacity_witness :
  let cs := NewConn "client" "server" 0 in
  let cA := fst (fst cs) in
  let cB := snd (fst cs) in
  let h := Conn_Clear cA (snd cs) in
  LocalAddr cA h = "client"%string /\ RemoteAddr cA h = "server"%string /\
  LocalAddr cB h = "server"%string /\ RemoteAddr cB h = "client"%string /\
  forall p,
    is_nil (buf (get p h)) = false ->
    cap (buf (get p h)) = Z.to_nat 4096 /\
    len (buf (get p h)) <= cap (buf (get p h)).
Proof.
  intros cs cA cB h.
  apply (@NewConn_addresses_and_capacity "client" "server" 0%Z h).
  apply (@reaches_step OpClear (snd cs) (snd cs) h).
  - apply reaches_refl.
  - apply step_Clear. reflexivity.
Defined.

(* ------------------------------------------------------------------ *)
(** *** A reader that waits for the writer *)

(** X17.  A [Read] with no timer that finds the buffer empty waits; when
    the peer then writes [d] (no timer, [d] not empty and within the
    capacity), the write empties the waiter set of the half connection --
    the reader is woken -- and the reader's next pass returns the first
    [min(len(b), len(d))] bytes of [d] with no error, the rest of [d] left
    pending. *)
Theorem blocked_read_gets_peer_write :
  forall g gw cr cw b d clk0 clk clk1 ws h,
  r cr = w cw -> no_read_timer cr -> no_write_timer cw ->
  open (get (r cr) h) -> pending (get (r cr) h) = [] ->
  d <> [] -> length d <= cap (buf (get (r cr) h)) -> length b <> 0 ->
  let h1 := put (r cr) (Wait g (get (r cr) h)) h in
  let n := Nat.min (length b) (length d) in
  Conn_Read g cr b clk0 clk [] h = Blocked (b, h1) /\
  waiters (get (r cr) (written gw cw d clk1 h1)) = [] /\
  exists b' h',
    Conn_Read g cr b clk0 clk ((written gw cw d clk1, clk1) :: ws) h
    = Done n None (b', h') /\
    firstn n b' = firstn n d /\
    pending (get (r cr) h') = skipn n d.
Proof.
  intros g gw cr cw b d clk0 clk clk1 ws h Hpeer [Hrd Hrt] [Hwd Hwt]
         Hopen Hp Hd Hfit Hb h1 n.
  destruct Hopen as (Hn & Hok & He).
  assert (Hlen : len (buf (get (r cr) h)) = 0)
    by (apply (hc_ok_pending_nil Hok); exact Hp).
  assert (Hpass1 : read_pass g clk (addr (get (r cr) h)) zero_netTimer b
                     (get (r cr) h)
                   = Waits 0 zero_netTimer (b, Wait g (get (r cr) h))).
  { rewrite read_pass_empty by (auto; reflexivity). reflexivity. }
  (* the write of the peer on the heap the reader waits in *)
  assert (Hopen1 : is_nil (buf (get (w cw) h1)) = false /\
                   hc_ok (get (w cw) h1) /\ eof (get (w cw) h1) = false).
  { rewrite <- Hpeer. unfold h1. rewrite get_put_same. simpl. auto. }
  destruct Hopen1 as (Hn1 & Hok1 & He1).
  assert (Hdl : length d <> 0).
  { intros E. apply Hd. apply length_zero_iff_nil. exact E. }
  destruct (@write_pass_fits gw clk1 (addr (get (r cw) h1)) zero_netTimer d
              (get (w cw) h1) Hn1 Hok1 He1 eq_refl Hdl)
    as (c2 & Hw & Hp2 & Hn2 & Hok2 & He2 & _ & _ & _ & Hwt2 & Ha2).
  { rewrite <- Hpeer. unfold h1. rewrite get_put_same. simpl. lia. }
  assert (Hwritten : written gw cw d clk1 h1 = put (w cw) c2 h1).
  { unfold written, Conn_Write, halfConn_write.
    rewrite no_timer_Set by assumption. simpl. rewrite Hw. reflexivity. }
  assert (Hpend2 : pending c2 = d).
  { rewrite Hp2. rewrite <- Hpeer. unfold h1. rewrite get_put_same.
    unfold pending in *. simpl. rewrite Hp. reflexivity. }
  split; [|split].
  - unfold Conn_Read, halfConn_read. rewrite no_timer_Set by assumption.
    simpl. rewrite Hpass1. reflexivity.
  - rewrite Hwritten, Hpeer, get_put_same. exact Hwt2.
  - unfold Conn_Read, halfConn_read. rewrite no_timer_Set by assumption.
    simpl read_loop. rewrite Hpass1. fold h1. rewrite Hwritten.
    assert (Hpass2 := @read_pass_data g clk1 (addr (get (r cr) h))
                        zero_netTimer b c2 Hn2 Hok2 eq_refl Hb
                        ltac:(rewrite Hpend2; exact Hd)).
    simpl in Hpass2. rewrite Hpend2, He2, andb_false_r in Hpass2.
    unfold copy_n in Hpass2. fold n in Hpass2.
    rewrite (@read_loop_returns g _ (r cr) ws clk1 _ b (put (w cw) c2 h1)
               n None (copy b d) (after_read c2 n)).
    + simpl. eexists. eexists. split; [reflexivity|]. split.
      * pose proof (copy_prefix b d) as Hcp. unfold copy_n in Hcp.
        exact Hcp.
      * rewrite get_put_same, pending_after_read, Hpend2;
          [reflexivity | exact Hok2 | rewrite Hpend2; unfold n; lia].
    + rewrite Hpeer, get_put_same. exact Hpass2.
Qed.

Lemma blocked_read_gets_peer_write_witness :
  let cs := NewConn "client" "server" 4 in
  let cA := fst (fst cs) in
  let cB := snd (fst cs) in
  let b := [Byte.x00; Byte.x00] in
  let d := [Byte.x61; Byte.x62; Byte.x63] in
  let h1 := put SideA (Wait 1 (get SideA (snd cs))) (snd cs) in
  Conn_Read 1 cA b 0%Z 0%Z [] (snd cs) = Blocked (b, h1) /\
  waiters (get SideA (written 2 cB d 7%Z h1)) = [] /\
  exists b' h',
    Conn_Read 1 cA b 0%Z 0%Z [(written 2 cB d 7%Z, 7%Z)] (snd cs)
    = Done 2 None (b', h') /\
    firstn 2 b' = [Byte.x61; Byte.x62] /\
    pending (get SideA h') = [Byte.x63].
Proof.
  intros cs cA cB b d h1.
  apply (@blocked_read_gets_peer_write 1 2 cA cB b d 0%Z 0%Z 7%Z []
           (snd cs));
    try reflexivity; try discriminate; try (simpl; lia).
  - split; [reflexivity | simpl; lia].
  - split; [reflexivity | simpl; lia].
  - unfold open, hc_ok, hc_inv. simpl.
    repeat split; first [reflexivity | lia].
Defined.

(* ================================================================== *)
(** * Further properties of the script runner *)

(* ------------------------------------------------------------------ *)
(** *** The first fault ends the run *)

Lemma act_fault_ln :
  forall (S E : Type) (srv : Script.MockServer S E) ln v s s' f,
  Script.act srv ln v s = (s', Script.Panic f) -> fault_ln f = ln.
Proof.
  intros S E srv ln v s s' f H.
  destruct v as [v|v|v|g|g|ty];
    cbv beta iota delta [Script.act Script.bind Script.call Script.flush
                         Script.compare Script.run Script.panicf Script.ret]
      in H.
  - destruct (String.prefix "S: " v).
    + destruct (Script.WriteLine srv _ s) as [s1 [e|]].
      * inversion H; reflexivity.
      * destruct (Script.Flush srv s1) as [s2 [e|]]; inversion H;
          reflexivity.
    + destruct (String.prefix "C: " v).
      * destruct (Script.ReadLine srv s) as [s1 [b err]]. simpl in H.
        destruct (negb _ || _); inversion H; reflexivity.
      * inversion H; reflexivity.
  - destruct (Script.Write srv v s) as [s1 [k [e|]]]; simpl in H.
    + inversion H; reflexivity.
    + destruct (Script.Flush srv s1) as [s2 [e|]]; inversion H; reflexivity.
  - destruct (Script.ReadFull srv (length v) s) as [s1 [b err]]. simpl in H.
    destruct (negb _ || _); inversion H; reflexivity.
  - destruct (g s) as [s1 [e|]]; inversion H; reflexivity.
  - destruct (g s) as [s1 [e|]]; inversion H; reflexivity.
  - inversion H; reflexivity.
Qed.

Lemma script_loop_app :
  forall (S E : Type) (srv : Script.MockServer S E) xs ys ln s,
  Script.script_loop srv (xs ++ ys) ln s
  = match Script.script_loop srv xs ln s with
    | (s1, Script.Ok _) => Script.script_loop srv ys (ln + length xs) s1
    | (s1, Script.Panic f) => (s1, Script.Panic f)
    end.
Proof.
  intros S E srv xs. induction xs as [|x xs IH]; intros ys ln s; simpl.
  - rewrite Nat.add_0_r. reflexivity.
  - unfold Script.bind.
    destruct (Script.act srv (Datatypes.S ln) x s) as [s1 [u|f]];
      [|reflexivity].
    rewrite IH. replace (Datatypes.S ln + length xs)
      with (ln + Datatypes.S (length xs)) by lia.
    reflexivity.
Qed.

Lemma script_loop_fault :
  forall (S E : Type) (srv : Script.MockServer S E) actions ln s s' f,
  Script.script_loop srv actions ln s = (s', Script.Panic f) ->
  exists xs v ys s1,
    actions = xs ++ v :: ys /\
    Script.script_loop srv xs ln s = (s1, Script.Ok tt) /\
    Script.act srv (ln + length xs + 1) v s1 = (s', Script.Panic f).
Proof.
  intros S E srv actions. induction actions as [|x rest IH];
    intros ln s s' f H; simpl in H.
  - discriminate.
  - unfold Script.bind in H.
    destruct (Script.act srv (Datatypes.S ln) x s) as [s1 [u|f1]] eqn:Ha.
    + destruct (IH _ _ _ _ H) as (xs & v & ys & s2 & Hsplit & Hpre & Hact).
      exists (x :: xs), v, ys, s2. subst rest. split; [reflexivity|].
      split.
      * simpl. unfold Script.bind. rewrite Ha. exact Hpre.
      * simpl. rewrite <- Hact. f_equal. lia.
    + inversion H; subst. exists [], x, rest, s.
      split; [reflexivity|]. split; [reflexivity|].
      simpl. rewrite <- Ha. f_equal. lia.
Qed.

(** X12.  When the run of a script ends in a fault, the fault comes from
    one action of the script: the actions before it all ran without fault,
    in order; that action, run on the server as they left it, raised the
    fault; none of the actions after it ran; and the index the fault
    carries is the 1-based position of that action in the script. *)
Theorem script_fault_names_action :
  forall (S E : Type) (srv : Script.MockServer S E) actions s s' f,
  Script.script_loop srv actions 0 s = (s', Script.Panic f) ->
  exists xs v ys s1,
    actions = xs ++ v :: ys /\
    Script.script_loop srv xs 0 s = (s1, Script.Ok tt) /\
    Script.act srv (length xs + 1) v s1 = (s', Script.Panic f) /\
    fault_ln f = length xs + 1 /\
    forall zs, Script.script_loop srv (xs ++ v :: zs) 0 s
               = (s', Script.Panic f).
Proof.
  intros S E srv actions s s' f H.
  destruct (script_loop_fault srv actions 0 s H)
    as (xs & v & ys & s1 & Hsplit & Hpre & Hact).
  simpl in Hact.
  exists xs, v, ys, s1.
  split; [exact Hsplit|]. split; [exact Hpre|]. split; [exact Hact|].
  split; [exact (act_fault_ln srv _ _ _ Hact)|].
  intros zs. rewrite script_loop_app, Hpre. simpl.
  unfold Script.bind.
  replace (Datatypes.S (length xs)) with (length xs + 1) by lia.
  rewrite Hact. reflexivity.
Qed.

Lemma script_fault_names_action_witness :
  let srv := Script.mk_MockServer
               (fun (b : list byte) (s : nat) => (s + 1, @None string))
               (fun s => (s, None))
               (fun s => (s, (list_byte_of_string "A1 NOOP", None)))
               (fun b s => (s, (length b, None)))
               (fun n s => (s, (repeat Byte.x00 n, None))) in
  let actions := [Script.A_string "S: * OK ready";
                  Script.A_string "C: A1 NOOP ";
                  Script.A_string "S: A1 OK done"] in
  let f := Script.F_compare 2 "A1 NOOP "%string "A1 NOOP"%string None in
  exists xs v ys s1,
    actions = xs ++ v :: ys /\
    Script.script_loop srv xs 0 0 = (s1, Script.Ok tt) /\
    Script.act srv (length xs + 1) v s1 = (1, Script.Panic f) /\
    fault_ln f = length xs + 1 /\
    forall zs, Script.script_loop srv (xs ++ v :: zs) 0 0
               = (1, Script.Panic f).
Proof.
  intros srv actions f.
  apply (@script_fault_names_action nat string srv actions 0 1 f).
  reflexivity.
Defined.

(* ------------------------------------------------------------------ *)
(** *** The text of a line *)

Lemma substring_all : forall x, String.substring 0 (String.length x) x = x.
Proof.
  induction x as [|a x IH]; simpl; [reflexivity|]. rewrite IH. reflexivity.
Qed.

Lemma from3_prefixed : forall a b c x,
  Script.from3 (String a (String b (String c x))) = x.
Proof.
  intros a b c x. unfold Script.from3. simpl.
  rewrite Nat.sub_0_r. apply substring_all.
Qed.

Lemma prefix_nil : forall x, String.prefix "" x = true.
Proof. intros [|a x]; reflexivity. Qed.

(** X13.  A line ["S: " ++ x] makes the server write the bytes of [x] as
    a line and then flush, the fault being the first error of the two; a
    line ["C: " ++ x] makes the server read a line, and passes exactly when
    the line read is the bytes of [x] and the read gave no error; if not,
    the fault carries the index, [x], the text read and the error. *)
Theorem script_lines_carry_text :
  forall (S E : Type) (srv : Script.MockServer S E) ln x s,
  Script.act srv ln (Script.A_string ("S: " ++ x)) s
  = (let (s1, err) := Script.WriteLine srv (list_byte_of_string x) s in
     match err with
     | Some e => (s1, Script.Panic (Script.F_write ln (inl ("S: " ++ x)%string) e))
     | None =>
         let (s2, err2) := Script.Flush srv s1 in
         match err2 with
         | Some e =>
             (s2, Script.Panic (Script.F_write ln (inl ("S: " ++ x)%string) e))
         | None => (s2, Script.Ok tt)
         end
     end) /\
  (forall s1 b err,
     Script.ReadLine srv s = (s1, (b, err)) ->
     (b = list_byte_of_string x -> err = None ->
      Script.act srv ln (Script.A_string ("C: " ++ x)) s = (s1, Script.Ok tt))
     /\
     (b <> list_byte_of_string x \/ err <> None ->
      Script.act srv ln (Script.A_string ("C: " ++ x)) s
      = (s1, Script.Panic
               (Script.F_compare ln x (string_of_list_byte b) err)))).
Proof.
  intros S E srv ln x s. split.
  - unfold Script.act.
    replace (String.prefix "S: " ("S: " ++ x)) with true
      by (simpl; symmetry; apply prefix_nil).
    rewrite (from3_prefixed _ _ _ x
             : Script.from3 ("S: " ++ x) = x).
    cbv beta iota delta [Script.bind Script.call Script.flush Script.panicf
                         Script.ret].
    destruct (Script.WriteLine srv (list_byte_of_string x) s) as [s1 [e|]];
      [reflexivity|].
    destruct (Script.Flush srv s1) as [s2 [e|]]; reflexivity.
  - intros s1 b err Hread.
    assert (Hact : Script.act srv ln (Script.A_string ("C: " ++ x)) s
                   = Script.compare ln x (string_of_list_byte b) err s1).
    { unfold Script.act.
      replace (String.prefix "S: " ("C: " ++ x)) with false by reflexivity.
      replace (String.prefix "C: " ("C: " ++ x)) with true
        by (simpl; symmetry; apply prefix_nil).
      rewrite (from3_prefixed _ _ _ x
               : Script.from3 ("C: " ++ x) = x).
      unfold Script.bind, Script.call. rewrite Hread. reflexivity. }
    rewrite Hact. unfold Script.compare, Script.panicf, Script.ret.
    split.
    + intros Hb He. subst b err.
      rewrite string_of_list_byte_of_string, String.eqb_refl. reflexivity.
    + intros Hbad.
      destruct (String.eqb_spec x (string_of_list_byte b)) as [Heq|Hne];
        simpl.
      * destruct err as [e|]; [reflexivity|].
        destruct Hbad as [Hb|He]; [|congruence].
        exfalso. apply Hb. rewrite Heq.
        symmetry. apply list_byte_of_string_of_list_byte.
      * reflexivity.
Qed.

(* ------------------------------------------------------------------ *)
(** *** From [Script] to [Join] *)

(** X14.  A run from start to end: [Script] returns, the goroutine runs
    the script to its end, [Join] is called with the error of the client.
    [Join] returns, with nothing logged, exactly when the script raised no
    fault, the client gave no error and the test had not failed before; in
    every other case it ends the test with [FailNow], the log extended by
    the report of the script's fault, if any, and then by the report of
    the client's error, if any.  Either way the channel is left closed and
    empty. *)
Theorem run_then_Join :
  forall (S E : Type) (srv : Script.MockServer S E) actions s
         (t t1 : Script.T E) (err : option E),
  Script.Script t = Script.Returns t1 ->
  let v := Script.recovered (snd (Script.script_loop srv actions 0 s)) in
  let t2 := snd (Script.script_ends srv actions s t1) in
  let ch := Script.mk_chan [] 1 true [Script.Ev_send v; Script.Ev_close] in
  Script.Join err t2
  = if match v, err with
       | None, None => negb (Script.t_failed t)
       | _, _ => false
       end
    then Script.Returns (Script.mk_T (Some ch) false (Script.t_log t))
    else Script.FailNow
           (Script.mk_T (Some ch) true
                        (Script.t_log t ++ join_reports v err)).
Proof.
  intros S E srv actions s t t1 err Hs v t2 ch.
  assert (Ht1 : t1 = Script.mk_T (Some (Script.make_chan 1))
                       (Script.t_failed t) (Script.t_log t)).
  { unfold Script.Script in Hs.
    destruct (Script.chan_recv (Script.t_ch t)).
    - inversion Hs. reflexivity.
    - destruct (Script.t_ch t); [discriminate|].
      inversion Hs. reflexivity. }
  subst t1 t2 ch v. unfold Script.script_ends, Script.script. simpl.
  destruct (Script.script_loop srv actions 0 s) as [s1 [u|f]]; simpl;
    unfold Script.Join, join_reports, Script.Errorf; simpl;
    destruct err as [e|]; simpl.
  - reflexivity.
  - destruct (Script.t_failed t); simpl; [|reflexivity].
    rewrite app_nil_r. reflexivity.
  - rewrite <- app_assoc. reflexivity.
  - reflexivity.
Qed.

Lemma run_then_Join_witness :
  let srv := Script.mk_MockServer
               (fun (b : list byte) (s : nat) => (s + 1, @None string))
               (fun s => (s, None))
               (fun s => (s, (list_byte_of_string "A1 NOOP", None)))
               (fun b s => (s, (length b, None)))
               (fun n s => (s, (repeat Byte.x00 n, None))) in
  let actions := [Script.A_string "S: * OK ready";
                  Script.A_string "C: A1 NOOP "] in
  let f := Script.F_compare 2 "A1 NOOP "%string "A1 NOOP"%string None in
  let t := @Script.mk_T string None false [] in
  let t1 := @Script.mk_T string (Some (Script.make_chan 1)) false [] in
  let ch := Script.mk_chan [] 1 true
              [Script.Ev_send (Some f); Script.Ev_close] in
  Script.Join (Some "EOF"%string) (snd (Script.script_ends srv actions 0 t1))
  = Script.FailNow
      (Script.mk_T (Some ch) true
                   [Script.R_server f; Script.R_client "EOF"%string]).
Proof.
  intros srv actions f t t1 ch.
  exact (@run_then_Join nat string srv actions 0 t t1 (Some "EOF"%string)
           eq_refl).
Defined.

(** X15.  [Script] refuses to start a run only while another is in
    flight, that is while the channel of [T] is open and empty: it then
    logs the report and ends the test.  In every other state -- no channel
    yet, an outcome waiting in the channel, or the channel closed -- it
    starts a run on a fresh channel of capacity 1 and leaves the log and
    the failure flag as they are: an outcome nobody has taken is dropped
    without a report. *)
Theorem Script_starts_or_fails : forall (E : Type) (t : Script.T E),
  (forall ch,
     Script.t_ch t = Some ch -> Script.cbuf ch = [] ->
     Script.cclosed ch = false ->
     Script.Script t
     = Script.FailNow
         (Script.mk_T (Script.t_ch t) true
                      (Script.t_log t ++ [Script.R_still_active]))) /\
  (Script.t_ch t = None \/
   (exists ch, Script.t_ch t = Some ch /\
               (Script.cbuf ch <> [] \/ Script.cclosed ch = true)) ->
   Script.Script t
   = Script.Returns
       (Script.mk_T (Some (Script.make_chan 1)) (Script.t_failed t)
                    (Script.t_log t))).
Proof.
  intros E t. split.
  - intros ch Hch Hb Hc.
    unfold Script.Script, Script.chan_recv, Script.Errorf.
    rewrite Hch, Hb, Hc. reflexivity.
  - intros [Hnil | (ch & Hch & Hready)]; unfold Script.Script, Script.chan_recv.
    + rewrite Hnil. reflexivity.
    + rewrite Hch. destruct (Script.cbuf ch) as [|v rest]; [|reflexivity].
      destruct Hready as [Hb|Hc]; [contradiction|]. rewrite Hc. reflexivity.
Qed.

(* ================================================================== *)
(** * Further properties of [EnableTLS] *)

(** X16.  [EnableTLS] either upgrades the transport or leaves it as it
    was.  It returns nil exactly when the transport was not encrypted and
    the handshake succeeded; the connection is then the TLS connection made
    over the old one, and that connection is attached as reader and writer
    to one link -- the compression link if the transport reports itself
    compressed, the buffer link if not -- the other link being left alone.
    Whenever it returns an error the connection and both links are
    unchanged. *)
Theorem EnableTLS_all_or_nothing :
  forall (Config : Type) (e : Server.env Config) (config : Config)
         (w : Server.world Config),
  let c := Server.TLS (Server.conn (Server.tr w)) config in
  let res := Server.EnableTLS e config w in
  (fst res = None <->
   Server.Encrypted e (Server.tr w) = false /\ Server.Handshake e c = None) /\
  (fst res = None ->
   Server.conn (Server.tr (snd res)) = c /\
   Server.handshakes (snd res) = Server.handshakes w ++ [c] /\
   let compressed :=
     Server.Compressed e (Server.mk_transport c (Server.bufLink (Server.tr w))
                                              (Server.cmpLink (Server.tr w))) in
   Server.cmpLink (Server.tr (snd res))
   = (if compressed then Server.mk_link (Some c) (Some c)
      else Server.cmpLink (Server.tr w)) /\
   Server.bufLink (Server.tr (snd res))
   = (if compressed then Server.bufLink (Server.tr w)
      else Server.mk_link (Some c) (Some c))) /\
  (forall err, fst res = Some err -> Server.tr (snd res) = Server.tr w).
Proof.
  intros Config e config w c res. subst res. unfold Server.EnableTLS.
  fold c. unfold Server.tls_Server. fold c.
  destruct (Server.Encrypted e (Server.tr w)) eqn:He; simpl.
  - split; [split; [discriminate | intros [H _]; discriminate]|].
    split; [discriminate|reflexivity].
  - destruct (Server.Handshake e c) as [err|] eqn:Hh; simpl.
    + split; [split; [discriminate | intros [_ H]; discriminate]|].
      split; [discriminate|reflexivity].
    + destruct (Server.Compressed e _) eqn:Hc; simpl;
        (split; [split; auto|]); (split; [|discriminate]);
        intros _; auto.
Qed.

(* ================================================================== *)
(** * Properties of the earlier script runner *)

Lemma prefix3 : forall a b c v,
  String.prefix (String a (String b (String c EmptyString))) v = true ->
  exists x, v = String a (String b (String c x)).
Proof.
  intros a b c v H. apply prefix_correct in H. simpl String.length in H.
  destruct v as [|a' [|b' [|c' x]]]; simpl in H; try discriminate H.
  injection H as -> -> -> _. exists x. reflexivity.
Qed.

Lemma prefix_eqb : forall p v,
  String.prefix p v
  = String.eqb (String.substring 0 (String.length p) v) p.
Proof.
  intros p v. destruct (String.prefix p v) eqn:H; symmetry.
  - apply String.eqb_eq, prefix_correct. exact H.
  - apply String.eqb_neq. intros A. apply prefix_correct in A. congruence.
Qed.

Lemma substring_0_0 : forall x, String.substring 0 0 x = EmptyString.
Proof. intros [|a x]; reflexivity. Qed.

Lemma prefixed_S : forall x,
  String.prefix "S: " ("S: " ++ x) || String.prefix "C: " ("S: " ++ x)
  = true.
Proof. intros x. simpl. rewrite prefix_nil. reflexivity. Qed.

Lemma prefixed_C : forall x,
  String.prefix "S: " ("C: " ++ x) || String.prefix "C: " ("C: " ++ x)
  = true.
Proof. intros x. simpl. apply prefix_nil. Qed.

(** The three shapes of a line, as the first test of [script] sees
    them. *)
Lemma line_shape : forall v,
  (String.prefix "S: " v || String.prefix "C: " v = false /\
   (String.length v <? 3)
   || (negb (String.eqb (Script0.upto 3 v) "S: ")
       && negb (String.eqb (Script0.upto 3 v) "C: ")) = true) \/
  (exists x, v = ("S: " ++ x)%string) \/
  (exists x, v = ("C: " ++ x)%string).
Proof.
  intros v.
  destruct (String.prefix "S: " v) eqn:HS.
  { right; left. apply prefix3 in HS. exact HS. }
  destruct (String.prefix "C: " v) eqn:HC.
  { right; right. apply prefix3 in HC. exact HC. }
  left. split; [reflexivity|].
  rewrite prefix_eqb in HS, HC. simpl String.length in HS, HC.
  unfold Script0.upto. rewrite HS, HC. apply orb_true_r.
Qed.

Section Earlier.
Variables (S E : Type) (srv : Script.MockServer S E).

(** What an iteration that ends without a fault says of the entry and of
    the [who] it leaves. *)
Lemma act_clean : forall ln who v next s s1 who1,
  Script0.act srv ln who v next s = (s1, inl who1) ->
  match v with
  | Script0.A_string l =>
      String.prefix "S: " l || String.prefix "C: " l = true /\
      (if is_marker l
       then (who1 = "S"%string \/ who1 = "C"%string) /\
            exists b, next = Some (Script0.A_bytes b)
       else who1 = EmptyString)
  | Script0.A_bytes _ =>
      (who = "S"%string \/ who = "C"%string) /\ who1 = EmptyString
  | Script0.A_ScriptFunc _ => who1 = EmptyString
  | Script0.A_other _ => False
  end.
Proof.
  intros ln who v next s s1 who1 H.
  destruct v as [l | b | f | ty].
  - destruct (line_shape l) as [[_ Hc] | [[x ->] | [x ->]]].
    + simpl in H. rewrite Hc in H. discriminate H.
    + split; [apply prefixed_S|].
      cbv beta iota delta [Script0.act] in H.
      rewrite (from3_prefixed _ _ _ x
               : Script.from3 ("S: " ++ x) = x) in H.
      unfold Script0.upto in H. simpl in H. rewrite !substring_0_0 in H.
      simpl in H.
      destruct x as [|a x].
      * simpl in H.
        destruct next as [[l' | b' | f' | ty']|];
          try discriminate H.
        injection H as _ <-.
        change (is_marker ("S: " ++ "")) with true. cbv iota.
        split; [left; reflexivity | eauto].
      * change (is_marker ("S: " ++ String a x)) with false. cbv iota.
        simpl in H.
        cbv beta iota delta [Script0.bind Script0.call Script0.then_Flush Script0.finish Script0.ret Script0.panicf] in H.
        destruct (Script.WriteLine srv _ s) as [s2 [e|]];
          [discriminate H|].
        destruct (Script.Flush srv s2) as [s3 [e|]];
          [discriminate H|].
        injection H as _ <-. reflexivity.
    + split; [apply prefixed_C|].
      cbv beta iota delta [Script0.act] in H.
      rewrite (from3_prefixed _ _ _ x
               : Script.from3 ("C: " ++ x) = x) in H.
      unfold Script0.upto in H. simpl in H. rewrite !substring_0_0 in H.
      simpl in H.
      destruct x as [|a x].
      * simpl in H.
        destruct next as [[l' | b' | f' | ty']|];
          try discriminate H.
        injection H as _ <-.
        change (is_marker ("C: " ++ "")) with true. cbv iota.
        split; [right; reflexivity | eauto].
      * change (is_marker ("C: " ++ String a x)) with false. cbv iota.
        simpl in H.
        cbv beta iota delta [Script0.bind Script0.call Script0.finish Script0.ret Script0.panicf] in H.
        destruct (Script.ReadLine srv s) as [s2 [b e]]. simpl in H.
        destruct (negb _); [discriminate H|].
        destruct e; [discriminate H|].
        injection H as _ <-. reflexivity.
  - simpl in H.
    cbv beta iota delta [Script0.bind Script0.call Script0.then_Flush Script0.finish Script0.ret Script0.panicf] in H.
    destruct (String.eqb who "S") eqn:HS.
    + apply String.eqb_eq in HS. split; [left; exact HS|].
      destruct (Script.Write srv b s) as [s2 [n [e|]]]; simpl in H;
        [discriminate H|].
      destruct (Script.Flush srv s2) as [s3 [e|]]; [discriminate H|].
      injection H as _ <-. reflexivity.
    + destruct (String.eqb who "C") eqn:HC; [|discriminate H].
      apply String.eqb_eq in HC. split; [right; exact HC|].
      destruct (Script.ReadFull srv _ s) as [s2 [b' e]]. simpl in H.
      destruct (negb _); [discriminate H|].
      destruct e; [discriminate H|].
      injection H as _ <-. reflexivity.
  - simpl in H.
    cbv beta iota delta [Script0.bind Script0.call Script0.finish Script0.ret Script0.panicf] in H.
    destruct (f s) as [s2 [e|]]; [discriminate H|].
    injection H as _ <-. reflexivity.
  - discriminate H.
Qed.

Lemma script0_loop_clean : forall script ln who s s1,
  (who = EmptyString \/
   ((who = "S"%string \/ who = "C"%string) /\
    exists b rest, script = Script0.A_bytes b :: rest)) ->
  Script0.script_loop srv script ln who s = (s1, inl tt) ->
  well_placed (negb (String.eqb who "")) script = true.
Proof.
  induction script as [|v rest IH]; intros ln who s s1 Hwho H.
  - destruct Hwho as [-> | [_ (b & rest & Hx)]]; [reflexivity|].
    discriminate Hx.
  - simpl in H. unfold Script0.bind in H.
    destruct (Script0.act srv (Datatypes.S ln) who v (hd_error rest) s)
      as [s2 [who1 | f]] eqn:Ha; [|discriminate H].
    apply act_clean in Ha.
    destruct v as [l | b | f | ty].
    + destruct Hwho as [-> | [_ (b & rest' & Hx)]]; [|discriminate Hx].
      destruct Ha as [Hp Hm]. simpl. rewrite Hp. simpl.
      destruct (is_marker l).
      * destruct Hm as [Hw1 [b Hn]].
        assert (Hr : exists rest', rest = Script0.A_bytes b :: rest').
        { destruct rest as [|v' rest']; [discriminate Hn|].
          simpl in Hn. injection Hn as ->. eauto. }
        destruct Hr as [rest' Hr].
        assert (Hi := IH (Datatypes.S ln) who1 s2 s1
                         (or_intror (conj Hw1
                            (ex_intro _ b (ex_intro _ rest' Hr)))) H).
        destruct Hw1 as [-> | ->]; exact Hi.
      * subst who1.
        exact (IH (Datatypes.S ln) EmptyString s2 s1 (or_introl eq_refl) H).
    + destruct Ha as [Hw ->]. simpl.
      assert (Hm : negb (String.eqb who "") = true)
        by (destruct Hw as [-> | ->]; reflexivity).
      rewrite Hm. simpl.
      exact (IH (Datatypes.S ln) EmptyString s2 s1 (or_introl eq_refl) H).
    + subst who1.
      destruct Hwho as [-> | [_ (b & rest' & Hx)]]; [|discriminate Hx].
      simpl.
      exact (IH (Datatypes.S ln) EmptyString s2 s1 (or_introl eq_refl) H).
    + destruct Ha.
Qed.

(** X18.  The earlier [script] runs a script without a fault only when its
    raw entries are well placed: every [[]byte] directly after a line that
    is just ["S: "] or ["C: "], every such line directly before a
    [[]byte], every line with one of the two prefixes and no entry of
    another type.  On any other script the run, whatever the server does,
    sends one fault on its channel and closes it. *)
Theorem misplaced_entry_faults :
  forall (actions : list (Script0.action S E)) (s : S),
  well_placed false actions = false ->
  exists s1 f,
    Script0.script srv actions (Script.make_chan 1) s
    = (s1,
       Script.mk_chan [Some f] 1 true
                      [Script.Ev_send (Some f); Script.Ev_close],
       Script.Exit_returns).
Proof.
  intros actions s Hw. unfold Script0.script.
  destruct (Script0.script_loop srv actions 0 EmptyString s)
    as [s1 [[] | f]] eqn:Hl.
  - apply script0_loop_clean in Hl; [|left; reflexivity].
    simpl in Hl. congruence.
  - exists s1, f. reflexivity.
Qed.

(** An iteration of each runner on the entries that say the same: the
    server is left in the same state, and one faults when the other
    does. *)
Ltac run_both :=
  cbv beta iota delta
    [Script0.bind Script.bind Script0.call Script.call Script0.then_Flush
     Script.flush Script.compare Script.run Script0.finish Script0.ret
     Script.ret Script0.panicf Script.panicf].

Lemma act0_line_C : forall ln who a x next,
  Script0.act srv ln who (Script0.A_string ("C: " ++ String a x)) next
  = Script0.bind (Script0.call (Script.ReadLine srv))
      (fun r =>
         if negb (String.eqb (string_of_list_byte (fst r)) (String a x))
         then Script0.panicf (Script0.F_ReadLine (String a x) (fst r) (snd r))
         else Script0.finish (snd r)).
Proof.
  intros ln who a x next. cbv beta iota delta [Script0.act].
  rewrite (from3_prefixed _ _ _ (String a x)
           : Script.from3 ("C: " ++ String a x) = String a x).
  unfold Script0.upto. simpl String.substring. rewrite ?substring_0_0.
  reflexivity.
Qed.

Lemma act_line_C : forall ln x,
  Script.act srv ln (Script.A_string ("C: " ++ x))
  = Script.bind (Script.call (Script.ReadLine srv))
      (fun r => Script.compare ln x (string_of_list_byte (fst r)) (snd r)).
Proof.
  intros ln x. unfold Script.act.
  replace (String.prefix "S: " ("C: " ++ x)) with false by reflexivity.
  replace (String.prefix "C: " ("C: " ++ x)) with true
    by (simpl; symmetry; apply prefix_nil).
  rewrite (from3_prefixed _ _ _ x : Script.from3 ("C: " ++ x) = x).
  reflexivity.
Qed.

Lemma script_loops_agree : forall script ln ln' who s,
  well_placed (negb (String.eqb who "")) script = true ->
  who = EmptyString \/ who = "S"%string \/ who = "C"%string ->
  fst (Script0.script_loop srv script ln who s)
  = fst (Script.script_loop srv (upgrade who script) ln' s) /\
  clean0 (snd (Script0.script_loop srv script ln who s))
  = clean (snd (Script.script_loop srv (upgrade who script) ln' s)).
Proof.
  induction script as [|v rest IH]; intros ln ln' who s Hw Hwho.
  - simpl. auto.
  - destruct v as [l | b | f | ty].
    + (* a line *)
      cbn [well_placed] in Hw.
      destruct (negb (String.eqb who "")) eqn:Hm; [discriminate Hw|].
      assert (who = EmptyString) as ->.
      { destruct Hwho as [-> | [-> | ->]]; [reflexivity | | ];
          discriminate Hm. }
      cbn [negb andb] in Hw.
      destruct (line_shape l) as [[Hc _] | [[x ->] | [x ->]]].
      * rewrite Hc in Hw. discriminate Hw.
      * rewrite prefixed_S in Hw.
        cbn [andb] in Hw.
        destruct x as [|a x].
        -- change (is_marker ("S: " ++ "")) with true in Hw.
           destruct rest as [|[l' | b' | f' | ty'] rest'];
             try discriminate Hw.
           exact (IH (Datatypes.S ln) ln' "S"%string s Hw
                     (or_intror (or_introl eq_refl))).
        -- change (is_marker ("S: " ++ String a x)) with false in Hw.
           change (upgrade "" (Script0.A_string ("S: " ++ String a x)
                               :: rest))
             with (Script.A_string ("S: " ++ String a x)
                   :: upgrade "" rest).
           cbn [Script0.script_loop Script.script_loop].
           unfold Script0.bind, Script.bind.
           cbv beta iota delta [Script0.act Script.act].
           rewrite (from3_prefixed _ _ _ (String a x)
                    : Script.from3 ("S: " ++ String a x) = String a x).
           unfold Script0.upto. simpl String.substring.
           simpl String.length. simpl String.prefix.
           rewrite ?substring_0_0. simpl.
           run_both.
           destruct (Script.WriteLine srv _ s) as [s2 [e|]];
             [simpl; auto|].
           destruct (Script.Flush srv s2) as [s3 [e|]]; [simpl; auto|].
           exact (IH (Datatypes.S ln) (Datatypes.S ln') EmptyString s3 Hw
                     (or_introl eq_refl)).
      * rewrite prefixed_C in Hw.
        cbn [andb] in Hw.
        destruct x as [|a x].
        -- change (is_marker ("C: " ++ "")) with true in Hw.
           destruct rest as [|[l' | b' | f' | ty'] rest'];
             try discriminate Hw.
           exact (IH (Datatypes.S ln) ln' "C"%string s Hw
                     (or_intror (or_intror eq_refl))).
        -- change (is_marker ("C: " ++ String a x)) with false in Hw.
           change (upgrade "" (Script0.A_string ("C: " ++ String a x)
                               :: rest))
             with (Script.A_string ("C: " ++ String a x)
                   :: upgrade "" rest).
           cbn [Script0.script_loop Script.script_loop].
           rewrite act0_line_C, act_line_C. run_both.
           destruct (Script.ReadLine srv s) as [s2 [b e]].
           cbn [fst snd].
           rewrite (String.eqb_sym (string_of_list_byte b) (String a x)).
           destruct (String.eqb (String a x) (string_of_list_byte b));
             [|simpl; auto].
           destruct e as [e'|]; [simpl; auto|]. cbn [negb orb].
           exact (IH (Datatypes.S ln) (Datatypes.S ln') EmptyString s2 Hw
                     (or_introl eq_refl)).
    + (* raw bytes *)
      simpl in Hw. apply andb_prop in Hw. destruct Hw as [Hm Hw].
      destruct Hwho as [-> | [-> | ->]]; [discriminate Hm | |].
      * change (upgrade "S" (Script0.A_bytes b :: rest))
          with (Script.A_Send (S:=S) (E:=E) b :: upgrade "" rest).
        cbn [Script0.script_loop Script.script_loop].
        unfold Script0.bind, Script.bind.
        cbv beta iota delta [Script0.act Script.act]. change (String.eqb "S" "S") with true.
        cbv beta iota.
        run_both.
        destruct (Script.Write srv b s) as [s2 [n [e|]]];
          [simpl; auto|]. simpl.
        destruct (Script.Flush srv s2) as [s3 [e|]]; [simpl; auto|].
        exact (IH (Datatypes.S ln) (Datatypes.S ln') EmptyString s3 Hw
                  (or_introl eq_refl)).
      * change (upgrade "C" (Script0.A_bytes b :: rest))
          with (Script.A_Recv (S:=S) (E:=E) b :: upgrade "" rest).
        cbn [Script0.script_loop Script.script_loop].
        unfold Script0.bind, Script.bind.
        cbv beta iota delta [Script0.act Script.act]. change (String.eqb "C" "S") with false.
        change (String.eqb "C" "C") with true.
        cbv beta iota.
        run_both.
        destruct (Script.ReadFull srv (length b) s) as [s2 [b' e]].
        cbn [fst snd].
        rewrite (String.eqb_sym (string_of_list_byte b')
                                (string_of_list_byte b)).
        destruct (String.eqb (string_of_list_byte b)
                             (string_of_list_byte b'));
          [|simpl; auto].
        destruct e as [e'|]; [simpl; auto|]. cbn [negb orb].
        exact (IH (Datatypes.S ln) (Datatypes.S ln') EmptyString s2 Hw
                  (or_introl eq_refl)).
    + (* a ScriptFunc *)
      simpl in Hw. apply andb_prop in Hw. destruct Hw as [Hm Hw].
      assert (who = EmptyString) as ->.
      { destruct Hwho as [-> | [-> | ->]]; [reflexivity | | ];
          discriminate Hm. }
      change (upgrade "" (Script0.A_ScriptFunc f :: rest))
        with (Script.A_ScriptFunc f :: upgrade "" rest).
      cbn [Script0.script_loop Script.script_loop].
      unfold Script0.bind, Script.bind.
      cbv beta iota delta [Script0.act Script.act].
      run_both.
      destruct (f s) as [s2 [e|]]; [simpl; auto|].
      exact (IH (Datatypes.S ln) (Datatypes.S ln') EmptyString s2 Hw
                (or_introl eq_refl)).
    + simpl in Hw. discriminate Hw.
Qed.

(** X19.  The two generations of the runner agree on every script whose
    raw entries are well placed: with each pair of a line ["S: "] or
    ["C: "] and its [[]byte] turned into a [Send] or a [Recv], the later
    [script] makes the same calls on the server as the earlier one made,
    so both leave it in the same state, and each sends one outcome and
    closes its channel, nil for one exactly when nil for the other. *)
Theorem generations_agree :
  forall (actions : list (Script0.action S E)) (s : S),
  well_placed false actions = true ->
  exists s1 o0 o1,
    Script0.script srv actions (Script.make_chan 1) s
    = (s1, Script.mk_chan [o0] 1 true [Script.Ev_send o0; Script.Ev_close],
       Script.Exit_returns) /\
    Script.script srv (upgrade "" actions) (Script.make_chan 1) s
    = (s1, Script.mk_chan [o1] 1 true [Script.Ev_send o1; Script.Ev_close],
       Script.Exit_returns) /\
    (o0 = None <-> o1 = None).
Proof.
  intros actions s Hw.
  destruct (@script_loops_agree actions 0 0 EmptyString s Hw
              (or_introl eq_refl)) as [Hs Hc].
  unfold Script0.script, Script.script.
  destruct (Script0.script_loop srv actions 0 "" s) as [s1 r0].
  destruct (Script.script_loop srv (upgrade "" actions) 0 s) as [s2 r1].
  simpl in Hs, Hc. subst s2.
  exists s1, (Script0.recovered r0), (Script.recovered r1).
  split; [reflexivity|]. split; [reflexivity|].
  destruct r0 as [[]|f0], r1 as [[]|f1]; simpl in *;
    try discriminate Hc; split; intros H; try reflexivity;
    discriminate H.
Qed.

End Earlier.

Lemma misplaced_entry_faults_witness :
  let srv := Script.mk_MockServer
               (fun (b : list byte) (s : nat) => (s + 1, @None string))
               (fun s => (s, None))
               (fun s => (s, (list_byte_of_string "A1 NOOP", None)))
               (fun b s => (s + length b, (length b, None)))
               (fun n s => (s, (repeat Byte.x61 n, None))) in
  let actions := [Script0.A_string "S: * OK ready";
                  Script0.A_bytes [Byte.x61; Byte.x62]] in
  exists s1 f,
    Script0.script srv actions (Script.make_chan 1) 0
    = (s1,
       Script.mk_chan [Some f] 1 true
                      [Script.Ev_send (Some f); Script.Ev_close],
       Script.Exit_returns).
Proof.
  intros srv actions.
  apply (@misplaced_entry_faults nat string srv actions 0).
  reflexivity.
Defined.

Lemma generations_agree_witness :
  let srv := Script.mk_MockServer
               (fun (b : list byte) (s : nat) => (s + 1, @None string))
               (fun s => (s, None))
               (fun s => (s, (list_byte_of_string "A1 NOOP", None)))
               (fun b s => (s + length b, (length b, None)))
               (fun n s => (s, (repeat Byte.x61 n, None))) in
  let actions := [Script0.A_string "S: * OK ready";
                  Script0.A_string "C: ";
                  Script0.A_bytes [Byte.x61; Byte.x61];
                  Script0.A_string "S: ";
                  Script0.A_bytes [Byte.x62];
                  Script0.A_string "C: A1 NOOP"] in
  exists s1 o0 o1,
    Script0.script srv actions (Script.make_chan 1) 0
    = (s1, Script.mk_chan [o0] 1 true [Script.Ev_send o0; Script.Ev_close],
       Script.Exit_returns) /\
    Script.script srv
      [Script.A_string "S: * OK ready";
       Script.A_Recv [Byte.x61; Byte.x61];
       Script.A_Send [Byte.x62];
       Script.A_string "C: A1 NOOP"]
      (Script.make_chan 1) 0
    = (s1, Script.mk_chan [o1] 1 true [Script.Ev_send o1; Script.Ev_close],
       Script.Exit_returns) /\
    (o0 = None <-> o1 = None).
Proof.
  intros srv actions.
  apply (@generations_agree nat string srv actions 0).
  reflexivity.
Defined.

(** X20.  [Dial] works once for a server: a call that returns leaves
    [t.cn] nil and records in [t.c] the client it returned, whether
    [NewClient] failed or not, and every later call panics. *)
Theorem Dial_only_once :
  forall (C Cl E : Type) (NewClient : C -> option Cl * option E)
         (t t' : Script0.T C Cl) (r : option Cl * option E),
  Script0.Dial NewClient t = Some (t', r) ->
  Script0.t_c t' = fst r /\
  Script0.Dial NewClient t' = None /\
  (exists cn, Script0.t_cn t = Some cn /\ r = NewClient cn).
Proof.
  intros C Cl E NewClient t t' r H. unfold Script0.Dial in *.
  destruct (Script0.t_cn t) as [cn|] eqn:Hcn; [|discriminate H].
  destruct (NewClient cn) as [c err] eqn:Hn.
  injection H as <- <-. simpl. repeat split.
  exists cn. auto.
Qed.

Lemma Dial_only_once_witness :
  let NewClient := fun cn : nat => (Some (cn + 1), @None string) in
  let t := Script0.mk_T (Some 7) (@None nat) in
  let t' := Script0.mk_T (@None nat) (Some 8) in
  Script0.t_c t' = Some 8 /\
  Script0.Dial NewClient t' = None /\
  (exists cn, Script0.t_cn t = Some cn /\ (Some 8, None) = NewClient cn).
Proof.
  intros NewClient t t'.
  apply (@Dial_only_once nat nat string NewClient t t' (Some 8, None)).
  reflexivity.
Defined.
